(** * p-variation of real-valued sequences: a shallow embedding of
    [p_var_real.cpp] and the verification of its specification.

    The source computes with [double] and indexes [std::vector]s with
    [size_t].  The embedding keeps both visible:

    - the arithmetic on [double] is an interface ([DoubleOps]) holding exactly
      the operations the source performs ([+], [-], [<], [>=], [std::abs],
      [std::pow] and the literal [0]); every structural result below holds for
      any implementation of that interface, IEEE-754 binary64 included;
    - indexing a vector outside its bounds and dereferencing an iterator that
      was never assigned are undefined behaviour in the source; the embedding
      reports them ([OutOfBounds], [Uninit]) instead of inventing a value;
    - loops whose trip count is not bounded syntactically take a [fuel]
      budget and report [OutOfFuel] when it runs out; termination is then a
      theorem (enough fuel always gives [Ok]).

    Indices ([size_t], and the [int] counter of the boundary scan) are [nat]:
    the only subtraction the code performs on them is [x.size()-1], and the
    only place where it could wrap ([x.size() = 0]) stores the value in a list
    that is never read again. *)

From stdpp Require Import base list sorting.
From Stdlib Require Import ZArith Lia Reals Lra.

(** ** Results of partial computations *)

Inductive res (A : Type) : Type :=
  | Ok (a : A)
  | OutOfBounds
  | Uninit
  | OutOfFuel.
Arguments Ok {A} a.
Arguments OutOfBounds {A}.
Arguments Uninit {A}.
Arguments OutOfFuel {A}.

#[global] Instance res_ret : MRet res := λ A a, Ok a.
#[global] Instance res_bind : MBind res := λ A B f m,
  match m with
  | Ok a => f a
  | OutOfBounds => OutOfBounds
  | Uninit => Uninit
  | OutOfFuel => OutOfFuel
  end.

#[global] Instance res_fmap : FMap res := λ A B f m,
  match m with
  | Ok a => Ok (f a)
  | OutOfBounds => OutOfBounds
  | Uninit => Uninit
  | OutOfFuel => OutOfFuel
  end.

Definition is_Ok {A} (r : res A) : Prop := ∃ a, r = Ok a.

(** ** The arithmetic the source performs on [double] *)

Class DoubleOps (D : Type) : Type := {
  dzero : D;                (* the literal 0 / 0.0 *)
  dadd : D → D → D;         (* a + b *)
  dsub : D → D → D;         (* a - b *)
  dlt : D → D → bool;       (* a < b; a > b is [dlt b a] *)
  dle : D → D → bool;       (* a <= b; a >= b is [dle b a] *)
  dabs : D → D;             (* std::abs *)
  dpow : D → D → D;         (* std::pow *)
}.

(** ** Types of the source *)

(** [struct pointdata]: one record per index, emulating a doubly linked list. *)
Record pointdata (D : Type) : Type := mk_pointdata {
  prev : nat;
  next : nat;
  pvdiff : D;
}.
Arguments mk_pointdata {D}.
Arguments prev {D}.
Arguments next {D}.
Arguments pvdiff {D}.

(** [struct pvtemppoint]: a candidate join point of [Merge2GoodInt]. *)
Record pvtemppoint (D : Type) : Type := mk_pvtemppoint {
  it : nat;
  ev : D;
}.
Arguments mk_pvtemppoint {D}.
Arguments it {D}.
Arguments ev {D}.

(** Reading [v[i]]. *)
Definition rd {A} (v : list A) (i : nat) : res A :=
  match v !! i with
  | Some a => Ok a
  | None => OutOfBounds
  end.

(** Writing one field of [v[i]]: [upd f v i] is [v] after [v[i] = f v[i]]. *)
Definition upd {A} (f : A → A) (v : list A) (i : nat) : res (list A) :=
  match v !! i with
  | Some a => Ok (<[i := f a]> v)
  | None => OutOfBounds
  end.

(** * Exact arithmetic

    The properties of the result (as opposed to those of the control flow)
    are stated for an arithmetic without rounding: one whose values embed in
    the real numbers, with [+], [-], [<], [<=] and [abs] acting as on the
    reals.  The integers, the rationals and the reals themselves are such
    arithmetics; [double] is one on the inputs for which no operation
    rounds. *)

Class ExactOps (D : Type) `{DoubleOps D} : Type := {
  val : D → R;
  val_inj : ∀ a b, val a = val b → a = b;
  val_zero : val dzero = 0%R;
  val_add : ∀ a b, val (dadd a b) = (val a + val b)%R;
  val_sub : ∀ a b, val (dsub a b) = (val a - val b)%R;
  val_abs : ∀ a, val (dabs a) = Rabs (val a);
  val_lt : ∀ a b, dlt a b = true ↔ (val a < val b)%R;
  val_le : ∀ a b, dle a b = true ↔ (val a <= val b)%R;
}.

(** What the algorithm needs of the exponent [p]: on the non-negative
    reals, [t ↦ t^p] vanishes at 0, is positive elsewhere, is increasing and
    has increasing increments (it is convex).  Every [p >= 1] is such an
    exponent. *)
Record PowerLaw {D : Type} `{ExactOps D} (p : D) : Type := {
  phi : R → R;
  phi_pow : ∀ a, (0 <= val a)%R → val (dpow a p) = phi (val a);
  phi_0 : phi 0%R = 0%R;
  phi_pos : ∀ t, (0 < t)%R → (0 < phi t)%R;
  phi_mono : ∀ s t, (0 <= s)%R → (s <= t)%R → (phi s <= phi t)%R;
  phi_convex : ∀ s t c, (0 <= s)%R → (s <= t)%R → (0 <= c)%R →
    (phi (s + c) - phi s <= phi (t + c) - phi t)%R;
}.
Arguments phi {D _ _ p}.
Arguments phi_pow {D _ _ p}.
Arguments phi_0 {D _ _ p}.
Arguments phi_pos {D _ _ p}.
Arguments phi_mono {D _ _ p}.
Arguments phi_convex {D _ _ p}.

Section Program.
Context {D : Type} `{DoubleOps D}.

(** [typedef std::vector<pointdata> DoublyLinkedList]. *)
Abbreviation DoublyLinkedList := (list (pointdata D)).
Abbreviation NumericVector := (list D).

Definition get_prev (links : DoublyLinkedList) (i : nat) : res nat :=
  prev <$> rd links i.
Definition get_next (links : DoublyLinkedList) (i : nat) : res nat :=
  next <$> rd links i.
Definition get_pvdiff (links : DoublyLinkedList) (i : nat) : res D :=
  pvdiff <$> rd links i.

Definition set_prev (links : DoublyLinkedList) (i v : nat) : res DoublyLinkedList :=
  upd (λ c, mk_pointdata v (next c) (pvdiff c)) links i.
Definition set_next (links : DoublyLinkedList) (i v : nat) : res DoublyLinkedList :=
  upd (λ c, mk_pointdata (prev c) v (pvdiff c)) links i.
Definition set_pvdiff (links : DoublyLinkedList) (i : nat) (v : D) : res DoublyLinkedList :=
  upd (λ c, mk_pointdata (prev c) (next c) v) links i.

(** [pvar_diff]: the absolute power of a difference. *)
Definition pvar_diff (diff p : D) : D := dpow (dabs diff) p.

(** *** DetectLocalExtrema *)

(** State carried by the [for] loop: [last_extremum], [direction], [links]. *)
Definition dle_state : Type := nat * Z * DoublyLinkedList.

(** One iteration of the loop, at index [i]. *)
Definition dle_body (x : NumericVector) (p : D) (n : nat) (st : dle_state) (i : nat)
  : res dle_state :=
  let '(last_extremum, direction, links) := st in
  let j := i + 1 in
  '(new_extremum, direction) ←
    (if decide (j ≠ n) then
       xj ← rd x j;
       xi ← rd x i;
       if dlt xi xj then Ok ((direction =? -1)%Z, 1%Z)
       else if dlt xj xi then Ok ((direction =? 1)%Z, (-1)%Z)
       else Ok (false, direction)
     else Ok (true, direction));
  if (new_extremum : bool) then
    links ← set_next links last_extremum i;
    links ← set_prev links i last_extremum;
    xi ← rd x i;
    xl ← rd x last_extremum;
    links ← set_pvdiff links i (pvar_diff (dsub xi xl) p);
    Ok (i, direction, links)
  else Ok (last_extremum, direction, links).

(** [for (i = lo; i < lo + k; i++) body]. *)
Fixpoint for_loop {S} (body : S → nat → res S) (lo k : nat) (st : S) : res S :=
  match k with
  | 0 => Ok st
  | S k' => st' ← body st lo; for_loop body (lo + 1) k' st'
  end.

Definition DetectLocalExtrema (x : NumericVector) (links : DoublyLinkedList) (p : D)
  : res DoublyLinkedList :=
  let n := length x in
  links ← set_prev links 0 0;                        (* links.front().prev = 0 *)
  links ← set_pvdiff links 0 dzero;                  (* links.front().pvdiff = 0.0 *)
  links ← set_next links (length links - 1) n;       (* links.back().next = n *)
  '(_, _, links) ← for_loop (dle_body x p n) 0 n (0, 0%Z, links);
  Ok links.

(** *** CheckShortIntervals *)

(** The window of the scan: [int_begin], [int_end] and the running [csum]. *)
Record window : Type := mk_window {
  int_begin : nat;
  int_end : nat;
  csum : D;
}.

(** The [dcount] loops extend the window to the right; [None] is the early
    [return] taken when [int_end] reaches [x.size()]. *)
Definition csi_extend (n : nat) (links : DoublyLinkedList) (w : window)
  : res (option window) :=
  e ← get_next links (int_end w);
  if decide (e = n) then Ok None
  else d ← get_pvdiff links e;
       Ok (Some (mk_window (int_begin w) e (dadd (csum w) d))).

(** The opening loop: three steps to the right from index 0. *)
Fixpoint csi_open (dcount : nat) (n : nat) (links : DoublyLinkedList) (w : window)
  : res (option window) :=
  match dcount with
  | 0 => Ok (Some w)
  | S k =>
      r ← csi_extend n links w;
      match r with
      | None => Ok None
      | Some w' => csi_open k n links w'
      end
  end.

(** The backtracking loop run after an excision: three steps, each to the
    left when [int_begin > 0] and to the right otherwise. *)
Fixpoint csi_backtrack (dcount : nat) (n : nat) (links : DoublyLinkedList) (w : window)
  : res (option window) :=
  match dcount with
  | 0 => Ok (Some w)
  | S k =>
      if decide (0 < int_begin w) then
        d ← get_pvdiff links (int_begin w);
        b ← get_prev links (int_begin w);
        csi_backtrack k n links (mk_window b (int_end w) (dadd (csum w) d))
      else
        r ← csi_extend n links w;
        match r with
        | None => Ok None
        | Some w' => csi_backtrack k n links w'
        end
  end.

(** One iteration of [while (true)]: the new [links], and the next window or
    [None] when the function returns. *)
Definition csi_step (x : NumericVector) (p : D) (links : DoublyLinkedList) (w : window)
  : res (DoublyLinkedList * option window) :=
  let n := length x in
  xb ← rd x (int_begin w);
  xe ← rd x (int_end w);
  let fjoinval := pvar_diff (dsub xb xe) p in
  if dle fjoinval (csum w) then
    (* mid points are significant, continue to next interval *)
    e ← get_next links (int_end w);
    if decide (e = n) then Ok (links, None)
    else
      b ← get_next links (int_begin w);
      db ← get_pvdiff links b;
      de ← get_pvdiff links e;
      Ok (links, Some (mk_window b e (dadd (dsub (csum w) db) de)))
  else
    (* mid points are redundant, erase them *)
    links ← set_next links (int_begin w) (int_end w);
    links ← set_prev links (int_end w) (int_begin w);
    links ← set_pvdiff links (int_end w) fjoinval;
    r ← csi_backtrack 3 n links (mk_window (int_end w) (int_end w) dzero);
    Ok (links, r).

Fixpoint csi_loop (fuel : nat) (x : NumericVector) (p : D) (links : DoublyLinkedList)
  (w : window) : res DoublyLinkedList :=
  match fuel with
  | 0 => OutOfFuel
  | S f =>
      '(links', r) ← csi_step x p links w;
      match r with
      | None => Ok links'
      | Some w' => csi_loop f x p links' w'
      end
  end.

Definition CheckShortIntervals (fuel : nat) (x : NumericVector) (links : DoublyLinkedList)
  (p : D) : res DoublyLinkedList :=
  r ← csi_open 3 (length x) links (mk_window 0 0 dzero);
  match r with
  | None => Ok links
  | Some w => csi_loop fuel x p links w
  end.

(** *** Merge2GoodInt *)

(** State of one candidate walk: [ev], [prt_it], the running minimum and
    maximum, and the two candidate vectors being filled. *)
Record walk : Type := mk_walk {
  w_ev : D;
  w_it : nat;
  w_min : D;
  w_max : D;
  w_mins : list (pvtemppoint D);
  w_maxs : list (pvtemppoint D);
}.

(** The two [if]s closing the body of either walk, at the point [prt_it]
    just reached with cumulated weight [ev]. *)
Definition walk_record (x : NumericVector) (ev : D) (prt_it : nat) (w : walk) : res walk :=
  xi ← rd x prt_it;
  let '(amax, maxs) :=
    if dlt (w_max w) xi
    then (xi, w_maxs w ++ [mk_pvtemppoint prt_it ev])
    else (w_max w, w_maxs w) in
  xi ← rd x prt_it;
  let '(amin, mins) :=
    if dlt xi (w_min w)
    then (xi, w_mins w ++ [mk_pvtemppoint prt_it ev])
    else (w_min w, w_mins w) in
  Ok (mk_walk ev prt_it amin amax mins maxs).

(** [while (prt_it != a)]: the walk from [v] back to [a]. *)
Fixpoint walk_back (fuel : nat) (x : NumericVector) (links : DoublyLinkedList)
  (a : nat) (w : walk) : res walk :=
  match fuel with
  | 0 => OutOfFuel
  | S f =>
      if decide (w_it w ≠ a) then
        d ← get_pvdiff links (w_it w);
        let ev := dadd (w_ev w) d in
        prt_it ← get_prev links (w_it w);
        w' ← walk_record x ev prt_it w;
        walk_back f x links a w'
      else Ok w
  end.

(** [while (prt_it != b)]: the walk from [v] forward to [b]. *)
Fixpoint walk_forth (fuel : nat) (x : NumericVector) (links : DoublyLinkedList)
  (b : nat) (w : walk) : res walk :=
  match fuel with
  | 0 => OutOfFuel
  | S f =>
      if decide (w_it w ≠ b) then
        prt_it ← get_next links (w_it w);
        d ← get_pvdiff links prt_it;
        let ev := dadd (w_ev w) d in
        w' ← walk_record x ev prt_it w;
        walk_forth f x links b w'
      else Ok w
  end.

(** State of the search for the best joint: [maxbalance], [takefjoin], the
    elements [tait] and [tbit] point to (none before the first assignment),
    and [sbit] as the suffix of the right-hand vector it points into. *)
Record search : Type := mk_search {
  maxbalance : D;
  takefjoin : D;
  tjoin : option (pvtemppoint D * pvtemppoint D);
  sbit : list (pvtemppoint D);
}.

(** The inner [for]: [bit] runs over the suffix [cur] of the right vector. *)
Fixpoint scan_bit (x : NumericVector) (p : D) (ait : pvtemppoint D)
  (cur : list (pvtemppoint D)) (s : search) : res search :=
  match cur with
  | [] => Ok s
  | bit :: rest =>
      xa ← rd x (it ait);
      xb ← rd x (it bit);
      let fjoin := pvar_diff (dsub xa xb) p in
      let balance := dsub (dsub fjoin (ev bit)) (ev ait) in
      let s' :=
        if dlt (maxbalance s) balance
        then mk_search balance fjoin (Some (ait, bit)) cur
        else s in
      scan_bit x p ait rest s'
  end.

(** The outer [for]: [ait] runs over the left vector, each inner scan
    starting at the current [sbit]. *)
Fixpoint scan_ait (x : NumericVector) (p : D) (av : list (pvtemppoint D)) (s : search)
  : res search :=
  match av with
  | [] => Ok s
  | ait :: rest =>
      s' ← scan_bit x p ait (sbit s) s;
      scan_ait x p rest s'
  end.

Definition Merge2GoodInt (fuel : nat) (x : NumericVector) (p : D)
  (links : DoublyLinkedList) (a v b : nat) : res DoublyLinkedList :=
  if decide (a = v ∨ v = b) then Ok links
  else
    (* 1. find potential points *)
    xv ← rd x v;
    wa ← walk_back fuel x links a (mk_walk dzero v xv xv [] []);
    xv ← rd x v;
    wb ← walk_forth fuel x links b (mk_walk dzero v xv xv [] []);
    (* 2. sequentially check all possible joints *)
    s ← scan_ait x p (w_mins wa) (mk_search dzero dzero None (w_maxs wb));
    s ← scan_ait x p (w_maxs wa)
          (mk_search (maxbalance s) (takefjoin s) (tjoin s) (w_mins wb));
    (* if we found any point, join it by erasing all middle points *)
    if dlt dzero (maxbalance s) then
      match tjoin s with
      | None => Uninit
      | Some (tait, tbit) =>
          links ← set_next links (it tait) (it tbit);
          links ← set_prev links (it tbit) (it tait);
          set_pvdiff links (it tbit) (takefjoin s)
      end
    else Ok links.

(** *** MergeIntervalsRecursively *)

(** Step 1: the boundaries, one every [LSI] chain nodes. *)
Fixpoint collect (fuel : nat) (n LSI : nat) (links : DoublyLinkedList)
  (it count : nat) (IterList : list nat) : res (list nat) :=
  match fuel with
  | 0 => OutOfFuel
  | S f =>
      if decide (it < n) then
        let IterList := if decide (count mod LSI = 0) then IterList ++ [it] else IterList in
        nx ← get_next links it;
        collect f n LSI links nx (count + 1) IterList
      else Ok IterList
  end.

(** One run of the inner [while]: starting with [a_IL] at the head of [il],
    merge [(a, v, b)], erase [v] and move [a_IL] to [b], as long as both
    [v_IL] and [b_IL] exist.  The result is the list from [a_IL] on. *)
Fixpoint merge_pass (fuel : nat) (x : NumericVector) (p : D)
  (links : DoublyLinkedList) (il : list nat) : res (DoublyLinkedList * list nat) :=
  match il with
  | a :: v :: ((b :: _) as tl) =>
      links ← Merge2GoodInt fuel x p links a v b;
      '(links, tl') ← merge_pass fuel x p links tl;
      Ok (links, a :: tl')
  | _ => Ok (links, il)
  end.

(** Step 2: [while (IterList.size() > 2)]. *)
Fixpoint merge_rounds (fuel : nat) (fuel2 : nat) (x : NumericVector) (p : D)
  (links : DoublyLinkedList) (il : list nat) : res DoublyLinkedList :=
  match fuel with
  | 0 => OutOfFuel
  | S f =>
      if decide (2 < length il) then
        '(links, il') ← merge_pass fuel2 x p links il;
        merge_rounds f fuel2 x p links il'
      else Ok links
  end.

Definition MergeIntervalsRecursively (fuel : nat) (x : NumericVector)
  (links : DoublyLinkedList) (p : D) (LSI : nat) : res DoublyLinkedList :=
  IterList ← collect fuel (length x) LSI links 0 0 [];
  let IterList := IterList ++ [length x - 1] in
  merge_rounds fuel fuel x p links IterList.

(** *** pvar *)

(** The closing walk: [while (i < x.size())]. *)
Fixpoint accumulate (fuel : nat) (n : nat) (links : DoublyLinkedList)
  (i : nat) (pvalue : D) : res D :=
  match fuel with
  | 0 => OutOfFuel
  | S f =>
      if decide (i < n) then
        d ← get_pvdiff links i;
        nx ← get_next links i;
        accumulate f n links nx (dadd pvalue d)
      else Ok pvalue
  end.

Definition pvar (fuel : nat) (x : NumericVector) (p : D) : res D :=
  if decide (length x ≤ 2) then
    if decide (length x ≤ 1) then Ok dzero
    else
      x0 ← rd x 0;
      x1 ← rd x 1;
      Ok (dpow (dabs (dsub x0 x1)) p)
  else
    (* value-initialised: every field is zero *)
    let links := replicate (length x) (mk_pointdata 0 0 dzero) in
    links ← DetectLocalExtrema x links p;
    links ← CheckShortIntervals fuel x links p;
    links ← MergeIntervalsRecursively fuel x links p 4;
    accumulate fuel (length x) links 0 dzero.

(** * The chain held by the links

    [links] emulates a doubly linked list over a subset of the indices.  The
    verification reads it as a list of nodes, the chain: the indices that
    are still linked, in increasing order, each with the weight stored in
    its [pvdiff] field. *)

Record node : Type := mk_node {
  idx : nat;
  wt : D;
}.

(** What a computation may end in: a result satisfying [Q], or [OutOfFuel]
    when the budget was not [enough]; [Uninit] only in an arithmetic where
    [0 < 0]; never [OutOfBounds]. *)
Definition outcome {A} (enough : Prop) (r : res A) (Q : A → Prop) : Prop :=
  match r with
  | Ok a => Q a
  | OutOfFuel => ¬ enough
  | Uninit => dlt dzero dzero = true
  | OutOfBounds => False
  end.

(** Consecutive nodes of [c] point at each other. *)
Fixpoint linked (links : DoublyLinkedList) (c : list node) : Prop :=
  match c with
  | u :: (w :: _) as tl =>
      get_next links (idx u) = Ok (idx w) ∧
      get_prev links (idx w) = Ok (idx u) ∧
      linked links tl
  | _ => True
  end.

Definition in_bounds (n : nat) (c : pointdata D) : Prop :=
  prev c ≤ n ∧ next c ≤ n.

(** [links] holds a chain that starts at index 0 with weight 0, whose last
    node is not linked forward yet. *)
Definition prepr (x : NumericVector) (links : DoublyLinkedList) (c : list node)
  : Prop :=
  length links = length x ∧
  (∃ post, c = mk_node 0 dzero :: post) ∧
  StronglySorted lt (idx <$> c) ∧
  Forall (λ nd, idx nd < length x) c ∧
  Forall (λ nd, get_pvdiff links (idx nd) = Ok (wt nd)) c ∧
  linked links c ∧
  get_next links (length x - 1) = Ok (length x) ∧
  get_prev links 0 = Ok 0 ∧
  Forall (in_bounds (length x)) links.

(** [links] holds the chain [c] from index 0 to index [n-1], followed by the
    sentinel [n]. *)
Definition repr (x : NumericVector) (links : DoublyLinkedList) (c : list node)
  : Prop :=
  prepr x links c ∧ last (idx <$> c) = Some (length x - 1).

(** The value [x[i]], for an index known to be in range. *)
Definition xval (x : NumericVector) (i : nat) : D := default dzero (x !! i).

(** ** The pipeline, read on chains

    Each stage of the pipeline is restated as a function on chains; the
    simulation lemmas below show that the source, run on links holding a
    chain, computes links holding the image of that chain. *)

(** *** The chain of local extrema *)

(** The nodes [DetectLocalExtrema] links from index [i] on, [xs] being
    [x[i..]], [xl] the value at [last_extremum]. *)
Fixpoint extrema (p : D) (i : nat) (xs : list D) (xl : D) (direction : Z) : list node :=
  match xs with
  | [] => []
  | xi :: tl =>
      let '(new_extremum, direction') :=
        match tl with
        | xj :: _ =>
            if dlt xi xj then ((direction =? -1)%Z, 1%Z)
            else if dlt xj xi then ((direction =? 1)%Z, (-1)%Z)
            else (false, direction)
        | [] => (true, direction)
        end in
      if (new_extremum : bool)
      then mk_node i (pvar_diff (dsub xi xl) p) :: extrema p (i + 1) tl xi direction'
      else extrema p (i + 1) tl xl direction'
  end.

Definition extrema_chain (x : NumericVector) (p : D) : list node :=
  mk_node 0 dzero :: extrema p 0 x (xval x 0) 0.

(** *** The scan of three-edge windows *)

(** A chain with a window of three edges [zb - zm1 - zm2 - ze] in focus;
    [zl] holds the nodes before the window, nearest first. *)
Record zipper : Type := mk_zipper {
  zl : list node;
  zb : node;
  zm1 : node;
  zm2 : node;
  ze : node;
  zr : list node;
  zsum : D;
}.

Definition z_chain (z : zipper) : list node :=
  reverse (zl z) ++ zb z :: zm1 z :: zm2 z :: ze z :: zr z.

Definition z_window (z : zipper) : window :=
  mk_window (idx (zb z)) (idx (ze z)) (zsum z).

(** The direct jump value across a window. *)
Definition fjoin (x : NumericVector) (p : D) (b e : nat) : D :=
  pvar_diff (dsub (xval x b) (xval x e)) p.

(** The window after an excision that linked [b] to [e'] (the right end with
    its new weight): three edges ending at [e'] when the chain has them on
    the left, completed to the right otherwise. *)
Definition z_backtrack (l : list node) (b e' : node) (r : list node)
  : list node + zipper :=
  let s1 := dadd dzero (wt e') in
  match l, r with
  | l1 :: l2 :: l', _ =>
      inr (mk_zipper l' l2 l1 b e' r (dadd (dadd s1 (wt b)) (wt l1)))
  | [l1], r1 :: r' =>
      inr (mk_zipper [] l1 b e' r1 r' (dadd (dadd s1 (wt b)) (wt r1)))
  | [], r1 :: r2 :: r' =>
      inr (mk_zipper [] b e' r1 r2 r' (dadd (dadd s1 (wt r1)) (wt r2)))
  | _, _ => inl (reverse l ++ b :: e' :: r)
  end.

(** One iteration of the scan: the final chain, or the next window. *)
Definition z_step (x : NumericVector) (p : D) (z : zipper) : list node + zipper :=
  let f := fjoin x p (idx (zb z)) (idx (ze z)) in
  if dle f (zsum z) then
    match zr z with
    | [] => inl (z_chain z)
    | e' :: r' =>
        inr (mk_zipper (zb z :: zl z) (zm1 z) (zm2 z) (ze z) e' r'
               (dadd (dsub (zsum z) (wt (zm1 z))) (wt e')))
    end
  else z_backtrack (zl z) (zb z) (mk_node (idx (ze z)) f) (zr z).

Fixpoint z_loop (fuel : nat) (x : NumericVector) (p : D) (z : zipper)
  : option (list node) :=
  match fuel with
  | 0 => None
  | S f =>
      match z_step x p z with
      | inl c => Some c
      | inr z' => z_loop f x p z'
      end
  end.

(** The opening window, when the chain has three edges. *)
Definition z_open (c : list node) : list node + zipper :=
  match c with
  | b :: m1 :: m2 :: e :: r =>
      inr (mk_zipper [] b m1 m2 e r
             (dadd (dadd (dadd dzero (wt m1)) (wt m2)) (wt e)))
  | _ => inl c
  end.

(** Every iteration either moves the window one node to the right or
    removes two nodes from the chain. *)
Definition z_measure (z : zipper) : nat :=
  2 * length (z_chain z) + length (zr z).

Definition short_chain (x : NumericVector) (p : D) (c : list node) : list node :=
  match z_open c with
  | inl c' => c'
  | inr z => default c (z_loop (S (z_measure z)) x p z)
  end.

(** *** Merging two intervals *)

(** The nodes of the chain with index in [[a, b]]. *)
Definition seg (a b : nat) (c : list node) : list node :=
  filter (λ nd, a ≤ idx nd ∧ idx nd ≤ b) c.

(** The chain with the nodes strictly between [l] and [r] removed and the
    weight [f] at [r]. *)
Definition excise (l r : nat) (f : D) (c : list node) : list node :=
  filter (λ nd, idx nd ≤ l) c ++ mk_node r f :: filter (λ nd, r < idx nd) c.

(** [walk_record] once [x[prt_it]] is known to exist. *)
Definition walk_rec (x : NumericVector) (ev : D) (prt_it : nat) (w : walk) : walk :=
  let xi := xval x prt_it in
  mk_walk ev prt_it
    (if dlt xi (w_min w) then xi else w_min w)
    (if dlt (w_max w) xi then xi else w_max w)
    (if dlt xi (w_min w) then w_mins w ++ [mk_pvtemppoint prt_it ev] else w_mins w)
    (if dlt (w_max w) xi then w_maxs w ++ [mk_pvtemppoint prt_it ev] else w_maxs w).

(** The backward walk, from the node [cur] through the nodes [rest] that
    precede it, nearest first. *)
Fixpoint back_walk (x : NumericVector) (cur : node) (rest : list node) (w : walk) : walk :=
  match rest with
  | [] => w
  | u :: rest' => back_walk x u rest' (walk_rec x (dadd (w_ev w) (wt cur)) (idx u) w)
  end.

(** The forward walk through the nodes [rest] that follow the start. *)
Fixpoint forth_walk (x : NumericVector) (rest : list node) (w : walk) : walk :=
  match rest with
  | [] => w
  | u :: rest' => forth_walk x rest' (walk_rec x (dadd (w_ev w) (wt u)) (idx u) w)
  end.

(** The search for the best joint, on values known to exist. *)
Fixpoint best_bit (x : NumericVector) (p : D) (ait : pvtemppoint D)
  (cur : list (pvtemppoint D)) (s : search) : search :=
  match cur with
  | [] => s
  | bit :: rest =>
      let fj := fjoin x p (it ait) (it bit) in
      let balance := dsub (dsub fj (ev bit)) (ev ait) in
      best_bit x p ait rest
        (if dlt (maxbalance s) balance
         then mk_search balance fj (Some (ait, bit)) cur
         else s)
  end.

Fixpoint best_ait (x : NumericVector) (p : D) (av : list (pvtemppoint D)) (s : search)
  : search :=
  match av with
  | [] => s
  | ait :: rest => best_ait x p rest (best_bit x p ait (sbit s) s)
  end.

Definition walk0 (x : NumericVector) (v : nat) : walk :=
  mk_walk dzero v (xval x v) (xval x v) [] [].

(** The two candidate walks from [v] and the search over both products. *)
Definition best_joint (x : NumericVector) (p : D) (c : list node) (a v b : nat) : search :=
  let wa :=
    match reverse (seg a v c) with
    | vn :: rest => back_walk x vn rest (walk0 x v)
    | [] => walk0 x v
    end in
  let wb := forth_walk x (tail (seg v b c)) (walk0 x v) in
  let s := best_ait x p (w_mins wa) (mk_search dzero dzero None (w_maxs wb)) in
  best_ait x p (w_maxs wa) (mk_search (maxbalance s) (takefjoin s) (tjoin s) (w_mins wb)).

Definition merge2 (x : NumericVector) (p : D) (c : list node) (a v b : nat) : list node :=
  if decide (a = v ∨ v = b) then c
  else
    let s := best_joint x p c a v b in
    if dlt dzero (maxbalance s) then
      match tjoin s with
      | Some (tait, tbit) => excise (it tait) (it tbit) (takefjoin s) c
      | None => c
      end
    else c.

(** *** Merging all intervals *)

(** The boundaries: the index of every [LSI]-th node. *)
Fixpoint boundaries (LSI : nat) (c : list node) (count : nat) : list nat :=
  match c with
  | [] => []
  | nd :: c' =>
      (if decide (count mod LSI = 0) then [idx nd] else [])
      ++ boundaries LSI c' (count + 1)
  end.

Fixpoint pass (x : NumericVector) (p : D) (c : list node) (il : list nat)
  : list node * list nat :=
  match il with
  | a :: v :: ((b :: _) as tl) =>
      let '(c', tl') := pass x p (merge2 x p c a v b) tl in
      (c', a :: tl')
  | _ => (c, il)
  end.

Fixpoint rounds (k : nat) (x : NumericVector) (p : D) (c : list node) (il : list nat)
  : list node :=
  match k with
  | 0 => c
  | S k' =>
      if decide (2 < length il) then
        let '(c', il') := pass x p c il in
        rounds k' x p c' il'
      else c
  end.

Definition merged_chain (x : NumericVector) (p : D) (LSI : nat) (c : list node)
  : list node :=
  let il := boundaries LSI c 0 ++ [length x - 1] in
  rounds (length il) x p c il.

(** *** The value of a chain *)

Definition chain_sum (c : list node) : D :=
  foldl (λ acc nd, dadd acc (wt nd)) dzero c.

Definition final_chain (x : NumericVector) (p : D) : list node :=
  merged_chain x p 4 (short_chain x p (extrema_chain x p)).

(** What a step of the scan hands to the loop: the next window, if any, and
    the chain it leaves. *)
Definition z_next (r : list node + zipper) : option window :=
  match r with inl _ => None | inr z => Some (z_window z) end.
Definition z_result (r : list node + zipper) : list node :=
  match r with inl c => c | inr z => z_chain z end.

(** The test the loop of [DetectLocalExtrema] performs at index [i]. *)
Definition extremum_test (x : NumericVector) (i : nat) (direction : Z) : bool * Z :=
  if decide (i + 1 ≠ length x) then
    if dlt (xval x i) (xval x (i + 1)) then ((direction =? -1)%Z, 1%Z)
    else if dlt (xval x (i + 1)) (xval x i) then ((direction =? 1)%Z, (-1)%Z)
    else (false, direction)
  else (true, direction).

(** The index the walk stands at, before the nodes [rest] still to visit. *)
Definition cursor (x : NumericVector) (rest : list node) : nat :=
  match rest with
  | nd :: _ => idx nd
  | [] => length x
  end.


(** ** The p-variation, as it is defined *)

(** The sum of [|x[i_j] - x[i_(j-1)]|^p] along the indices [s]. *)
Fixpoint subseq_sum (x : NumericVector) (p : D) (s : list nat) : D :=
  match s with
  | i :: ((j :: _) as tl) =>
      dadd (pvar_diff (dsub (xval x j) (xval x i)) p) (subseq_sum x p tl)
  | _ => dzero
  end.

(** The strictly increasing sequences of indices of [x]. *)
Definition subsequence (x : NumericVector) (s : list nat) : Prop :=
  StronglySorted lt s ∧ Forall (λ i, i < length x) s.

(** [v] is the largest sum along a subsequence of [x]. *)
Definition is_pvariation (x : NumericVector) (p : D) (v : D) : Prop :=
  (∃ s, subsequence x s ∧ subseq_sum x p s = v) ∧
  (∀ s, subsequence x s → dle (subseq_sum x p s) v = true).

(** The exhaustive enumeration of the subsequences, and the largest sum. *)
Fixpoint sublists {A} (l : list A) : list (list A) :=
  match l with
  | [] => [[]]
  | a :: l' => (cons a <$> sublists l') ++ sublists l'
  end.

Definition dmax (a b : D) : D := if dle a b then b else a.

Definition brute_force (x : NumericVector) (p : D) : D :=
  foldr dmax dzero (subseq_sum x p <$> sublists (seq 0 (length x))).

(** A relation holding between every two, three or four consecutive
    elements. *)
Fixpoint all_adj {A} (Q : A → A → Prop) (c : list A) : Prop :=
  match c with
  | u :: ((w :: _) as tl) => Q u w ∧ all_adj Q tl
  | _ => True
  end.

Fixpoint all_adj3 {A} (Q : A → A → A → Prop) (c : list A) : Prop :=
  match c with
  | u :: ((v :: w :: _) as tl) => Q u v w ∧ all_adj3 Q tl
  | _ => True
  end.

Fixpoint all_adj4 {A} (Q : A → A → A → A → Prop) (c : list A) : Prop :=
  match c with
  | b :: ((m1 :: m2 :: e :: _) as tl) => Q b m1 m2 e ∧ all_adj4 Q tl
  | _ => True
  end.

(** The weights of a chain are the jumps between its nodes. *)
Definition exact_wts (x : NumericVector) (p : D) (c : list node) : Prop :=
  (∀ nd, head c = Some nd → wt nd = dzero) ∧
  all_adj (λ u w, wt w = fjoin x p (idx u) (idx w)) c.

(** The points either walk of [Merge2GoodInt] visits, with the weight
    cumulated on the way: backwards from [cur] through [rest], forwards
    through [rest]. *)
Fixpoint back_visits (cur : node) (rest : list node) (ev0 : D)
  : list (pvtemppoint D) :=
  match rest with
  | [] => []
  | u :: rest' =>
      mk_pvtemppoint (idx u) (dadd ev0 (wt cur))
        :: back_visits u rest' (dadd ev0 (wt cur))
  end.

Fixpoint forth_visits (rest : list node) (ev0 : D) : list (pvtemppoint D) :=
  match rest with
  | [] => []
  | u :: rest' =>
      mk_pvtemppoint (idx u) (dadd ev0 (wt u))
        :: forth_visits rest' (dadd ev0 (wt u))
  end.

Definition walk_over (x : NumericVector) (vs : list (pvtemppoint D)) (w : walk)
  : walk :=
  foldl (λ w t, walk_rec x (ev t) (it t) w) w vs.

(** The points among [vs] whose value sets a new record below [cur], in the
    order [less]. *)
Fixpoint records (x : NumericVector) (less : D → D → bool) (cur : D)
  (vs : list (pvtemppoint D)) : list (pvtemppoint D) :=
  match vs with
  | [] => []
  | t :: vs' =>
      if less (xval x (it t)) cur
      then t :: records x less (xval x (it t)) vs'
      else records x less cur vs'
  end.

(** The two searches of [Merge2GoodInt], on the records of two lists of
    visited points. *)
Definition joint_search (x : NumericVector) (p : D) (v : nat)
  (Avis Bvis : list (pvtemppoint D)) : search :=
  let mins_a := records x dlt (xval x v) Avis in
  let maxs_a := records x (λ a b, dlt b a) (xval x v) Avis in
  let mins_b := records x dlt (xval x v) Bvis in
  let maxs_b := records x (λ a b, dlt b a) (xval x v) Bvis in
  let s1 := best_ait x p mins_a (mk_search dzero dzero None maxs_b) in
  best_ait x p maxs_a (mk_search (maxbalance s1) (takefjoin s1) (tjoin s1) mins_b).

(** ** Sums over the reals *)

Section Measure.
Context {E : ExactOps D}.

(** The samples as reals, and the weight of the jump from [i] to [j]. *)
Definition xr (x : NumericVector) (i : nat) : R := val (xval x i).

Definition jump (x : NumericVector) {p : D} (P : PowerLaw p) (i j : nat) : R :=
  phi P (Rabs (xr x i - xr x j)).

(** The sum along a sequence of indices. *)
Fixpoint psum (x : NumericVector) {p : D} (P : PowerLaw p) (s : list nat) : R :=
  match s with
  | i :: ((j :: _) as tl) => (jump x P i j + psum x P tl)%R
  | _ => 0%R
  end.

(** The value at [m] lies between those at [u] and [w]. *)
Definition between (x : NumericVector) (u m w : nat) : Prop :=
  (xr x u <= xr x m ∧ xr x m <= xr x w)%R ∨ (xr x w <= xr x m ∧ xr x m <= xr x u)%R.

(** The sequences of indices from [a] to [b], repetitions allowed. *)
Definition path (a b : nat) (s : list nat) : Prop :=
  StronglySorted le s ∧ head s = Some a ∧ last s = Some b.

(** No sequence from [u] to [w] sums to more than the jump from [u] to [w]. *)
Definition tight (x : NumericVector) {p : D} (P : PowerLaw p) (u w : nat) : Prop :=
  ∀ s, path u w s → (psum x P s <= jump x P u w)%R.

(** No sequence between the ends of [c] sums to more than [c]. *)
Definition opt (x : NumericVector) {p : D} (P : PowerLaw p) (c : list nat) : Prop :=
  ∀ a b s, head c = Some a → last c = Some b → path a b s →
    (psum x P s <= psum x P c)%R.

(** The samples rise, or fall, all the way from index [u] to index [w]. *)
Definition mono_up (x : NumericVector) (u w : nat) : Prop :=
  ∀ k k', u ≤ k → k ≤ k' → k' ≤ w → (xr x k <= xr x k')%R.

Definition mono_down (x : NumericVector) (u w : nat) : Prop :=
  ∀ k k', u ≤ k → k ≤ k' → k' ≤ w → (xr x k' <= xr x k)%R.

Definition mono_seg (x : NumericVector) (u w : nat) : Prop :=
  mono_up x u w ∨ mono_down x u w.

(** The value at [v] is strictly above, or strictly below, those at [u] and
    [w]. *)
Definition peak (x : NumericVector) (u v w : nat) : Prop :=
  (xr x u < xr x v ∧ xr x w < xr x v)%R ∨ (xr x v < xr x u ∧ xr x v < xr x w)%R.

(** The three edges of a window sum to at least the jump across it. *)
Definition window_ok (x : NumericVector) {p : D} (P : PowerLaw p)
  (b m1 m2 e : nat) : Prop :=
  (jump x P b e <= jump x P b m1 + jump x P m1 m2 + jump x P m2 e)%R.

(** What the loop of [DetectLocalExtrema] knows at index [i], the last
    extremum being [l]. *)
Definition run_ok (x : NumericVector) (l i : nat) (direction : Z) : Prop :=
  (direction = 0%Z ∧ mono_up x l i ∧ mono_down x l i) ∨
  (direction = 1%Z ∧ mono_up x l i ∧ (xr x l < xr x i)%R) ∨
  (direction = (-1)%Z ∧ mono_down x l i ∧ (xr x i < xr x l)%R).

(** A chain with exact weights, increasing indices and tight edges. *)
Definition chain_ok (x : NumericVector) {p : D} (P : PowerLaw p) (c : list node)
  : Prop :=
  exact_wts x p c ∧ StronglySorted lt (idx <$> c) ∧
  all_adj (tight x P) (idx <$> c).

(** What the scan knows at a window: the chain turns at every inner node,
    the windows that end before this one are settled, and [zsum] is the sum
    of the three edges. *)
Definition z_ok (x : NumericVector) {p : D} (P : PowerLaw p) (z : zipper) : Prop :=
  chain_ok x P (z_chain z) ∧
  all_adj3 (peak x) (idx <$> z_chain z) ∧
  all_adj4 (window_ok x P) (idx <$> (reverse (zl z) ++ [zb z; zm1 z; zm2 z])) ∧
  val (zsum z) = (val (wt (zm1 z)) + val (wt (zm2 z)) + val (wt (ze z)))%R.

(** What the scan leaves: a chain that turns at every inner node and in
    which no window is beaten by the jump across it. *)
Definition scanned (x : NumericVector) {p : D} (P : PowerLaw p) (c : list node)
  : Prop :=
  chain_ok x P c ∧
  all_adj3 (peak x) (idx <$> c) ∧
  all_adj4 (window_ok x P) (idx <$> c).

(** What joining [a] and [r] wins over the chain between them. *)
Definition bal (x : NumericVector) {p : D} (P : PowerLaw p)
  (a r : pvtemppoint D) : R :=
  (jump x P (it a) (it r) - val (ev r) - val (ev a))%R.

(** What the search holds: the best balance found, not negative, and the
    joint that achieves it. *)
Definition sv_ok (x : NumericVector) {p : D} (P : PowerLaw p)
  (Pj : pvtemppoint D → pvtemppoint D → Prop) (s : search) : Prop :=
  (0 <= val (maxbalance s))%R ∧
  match tjoin s with
  | Some (ta, tb) =>
      Pj ta tb ∧ val (maxbalance s) = bal x P ta tb ∧
      takefjoin s = fjoin x p (it ta) (it tb)
  | None => val (maxbalance s) = 0%R
  end.

(** The points [sk] that the inner loop skips are beaten by the point it
    starts at, for every left point [a'] still to come. *)
Definition skipdom (x : NumericVector) {p : D} (P : PowerLaw p)
  (av sk sb : list (pvtemppoint D)) : Prop :=
  sk = [] ∨
  ∃ h tl, sb = h :: tl ∧
    ∀ a', a' ∈ av → ∀ r, r ∈ sk → (bal x P a' r <= bal x P a' h)%R.

(** Between every two consecutive boundaries the chain is optimal. *)
Definition parts_opt (x : NumericVector) {p : D} (P : PowerLaw p)
  (c : list node) (il : list nat) : Prop :=
  all_adj (λ a b, opt x P (idx <$> seg a b c)) il.

(** [cand] lists, in the order of the walk, exactly the nodes among
    [visited] whose value is [below] the value at [v] and [below] the value
    at every node visited before: [ks] are the positions of these nodes in
    [visited], in increasing order. *)
Definition strict_records (x : NumericVector) (below : R → R → Prop) (v : nat)
  (visited cand : list nat) : Prop :=
  ∃ ks : list nat,
    StronglySorted lt ks ∧
    Forall2 (λ k u, visited !! k = Some u) ks cand ∧
    ∀ k, k ∈ ks ↔
      ∃ u, visited !! k = Some u ∧ below (xr x u) (xr x v) ∧
           ∀ j u', j < k → visited !! j = Some u' → below (xr x u) (xr x u').

End Measure.
(** * Verification *)

(** ** Results *)

Lemma outcome_bind {A B} (enough : Prop) (m : res A) (f : A → res B) (Q : B → Prop) :
  outcome enough m (λ a, outcome enough (f a) Q) → outcome enough (m ≫= f) Q.
Proof. by destruct m. Qed.

Lemma outcome_mono {A} (e e' : Prop) (r : res A) (Q Q' : A → Prop) :
  outcome e r Q → (e' → e) → (∀ a, Q a → Q' a) → outcome e' r Q'.
Proof. destruct r; simpl; auto. Qed.

Lemma outcome_Ok {A} (e : Prop) (r : res A) (Q : A → Prop) :
  outcome e r Q → e → dlt dzero dzero = false → ∃ a, r = Ok a ∧ Q a.
Proof. destruct r; simpl; intros; eauto; try done; congruence. Qed.

Lemma outcome_in_bounds {A} (e : Prop) (r : res A) (Q : A → Prop) :
  outcome e r Q → r ≠ OutOfBounds.
Proof. by destruct r. Qed.

(** ** Vectors and fields *)

Lemma rd_Some {A} (v : list A) (i : nat) (a : A) : v !! i = Some a → rd v i = Ok a.
Proof. unfold rd. by intros ->. Qed.

Lemma rd_xval (x : NumericVector) (i : nat) : i < length x → rd x i = Ok (xval x i).
Proof.
  intros Hi. destruct (lookup_lt_is_Some_2 x i Hi) as [a Ha].
  unfold rd, xval. by rewrite Ha.
Qed.

Lemma get_next_lt (links : DoublyLinkedList) (i j : nat) :
  get_next links i = Ok j → i < length links.
Proof.
  unfold get_next, rd. destruct (links !! i) eqn:E; [|done].
  intros _. by eapply lookup_lt_Some.
Qed.

Lemma get_next_bound (links : DoublyLinkedList) (n i j : nat) :
  Forall (in_bounds n) links → get_next links i = Ok j → j ≤ n.
Proof.
  unfold get_next, rd. intros HF. destruct (links !! i) eqn:E; [|done].
  intros [= <-]. by destruct (Forall_lookup_1 _ _ _ _ HF E).
Qed.

Lemma get_prev_bound (links : DoublyLinkedList) (n i j : nat) :
  Forall (in_bounds n) links → get_prev links i = Ok j → j ≤ n.
Proof.
  unfold get_prev, rd. intros HF. destruct (links !! i) eqn:E; [|done].
  intros [= <-]. by destruct (Forall_lookup_1 _ _ _ _ HF E).
Qed.

(** What each field assignment changes. *)
Definition same_fields (links links' : DoublyLinkedList)
  (fn fp : nat → res nat) (fw : nat → res D) : Prop :=
  length links' = length links ∧
  (∀ j, get_next links' j = fn j) ∧
  (∀ j, get_prev links' j = fp j) ∧
  (∀ j, get_pvdiff links' j = fw j).

Lemma set_next_spec (links : DoublyLinkedList) (i v : nat) :
  i < length links →
  ∃ links', set_next links i v = Ok links' ∧
    same_fields links links'
      (λ j, if decide (j = i) then Ok v else get_next links j)
      (get_prev links) (get_pvdiff links) ∧
    ∀ n, Forall (in_bounds n) links → v ≤ n → Forall (in_bounds n) links'.
Proof.
  intros Hi. destruct (lookup_lt_is_Some_2 links i Hi) as [c Hc].
  unfold set_next, upd. rewrite Hc. eexists; split; [done|]. split.
  - unfold same_fields, get_next, get_prev, get_pvdiff, rd.
    rewrite length_insert. split_and!; [done|..]; intros j;
      (destruct (decide (j = i)) as [->|Hne];
       [rewrite list_lookup_insert_eq by done
       |rewrite list_lookup_insert_ne by done]); by rewrite ?Hc.
  - intros n HF Hv. apply Forall_insert; [done|].
    destruct (Forall_lookup_1 _ _ _ _ HF Hc). by split.
Qed.

Lemma set_prev_spec (links : DoublyLinkedList) (i v : nat) :
  i < length links →
  ∃ links', set_prev links i v = Ok links' ∧
    same_fields links links'
      (get_next links)
      (λ j, if decide (j = i) then Ok v else get_prev links j)
      (get_pvdiff links) ∧
    ∀ n, Forall (in_bounds n) links → v ≤ n → Forall (in_bounds n) links'.
Proof.
  intros Hi. destruct (lookup_lt_is_Some_2 links i Hi) as [c Hc].
  unfold set_prev, upd. rewrite Hc. eexists; split; [done|]. split.
  - unfold same_fields, get_next, get_prev, get_pvdiff, rd.
    rewrite length_insert. split_and!; [done|..]; intros j;
      (destruct (decide (j = i)) as [->|Hne];
       [rewrite list_lookup_insert_eq by done
       |rewrite list_lookup_insert_ne by done]); by rewrite ?Hc.
  - intros n HF Hv. apply Forall_insert; [done|].
    destruct (Forall_lookup_1 _ _ _ _ HF Hc). by split.
Qed.

Lemma set_pvdiff_spec (links : DoublyLinkedList) (i : nat) (v : D) :
  i < length links →
  ∃ links', set_pvdiff links i v = Ok links' ∧
    same_fields links links'
      (get_next links) (get_prev links)
      (λ j, if decide (j = i) then Ok v else get_pvdiff links j) ∧
    ∀ n, Forall (in_bounds n) links → Forall (in_bounds n) links'.
Proof.
  intros Hi. destruct (lookup_lt_is_Some_2 links i Hi) as [c Hc].
  unfold set_pvdiff, upd. rewrite Hc. eexists; split; [done|]. split.
  - unfold same_fields, get_next, get_prev, get_pvdiff, rd.
    rewrite length_insert. split_and!; [done|..]; intros j;
      (destruct (decide (j = i)) as [->|Hne];
       [rewrite list_lookup_insert_eq by done
       |rewrite list_lookup_insert_ne by done]); by rewrite ?Hc.
  - intros n HF. apply Forall_insert; [done|].
    by destruct (Forall_lookup_1 _ _ _ _ HF Hc).
Qed.

(** ** Chains *)

Lemma sorted_split (pre : list node) (u : node) (post : list node) :
  StronglySorted lt (idx <$> (pre ++ u :: post)) →
  Forall (λ nd, idx nd < idx u) pre ∧ Forall (λ nd, idx u < idx nd) post ∧
  StronglySorted lt (idx <$> pre) ∧ StronglySorted lt (idx <$> post).
Proof.
  rewrite fmap_app, fmap_cons, StronglySorted_app, StronglySorted_cons.
  intros (Hx & Hpre & Hu & Hpost). split_and!; [|rewrite Forall_fmap in Hu; exact Hu|done..].
  apply Forall_forall. intros nd Hnd. apply (Hx (idx nd) (idx u)).
  - by apply list_elem_of_fmap_2.
  - left.
Qed.

Lemma sorted_join (pre : list node) (u : node) (post : list node) :
  Forall (λ nd, idx nd < idx u) pre → Forall (λ nd, idx u < idx nd) post →
  StronglySorted lt (idx <$> pre) → StronglySorted lt (idx <$> post) →
  StronglySorted lt (idx <$> (pre ++ u :: post)).
Proof.
  intros Hpre Hpost Spre Spost.
  rewrite fmap_app, fmap_cons, StronglySorted_app, StronglySorted_cons.
  split_and!; [|done| |done].
  - intros a b [nd [-> Hnd]]%list_elem_of_fmap Hb.
    rewrite Forall_forall in Hpre. specialize (Hpre _ Hnd).
    apply elem_of_cons in Hb as [->|[nd' [-> Hnd']]%list_elem_of_fmap]; [done|].
    rewrite Forall_forall in Hpost. specialize (Hpost _ Hnd'). lia.
  - by apply Forall_fmap.
Qed.

Lemma linked_app (links : DoublyLinkedList) (l1 : list node) (u : node) (l2 : list node) :
  linked links (l1 ++ u :: l2) ↔ linked links (l1 ++ [u]) ∧ linked links (u :: l2).
Proof.
  induction l1 as [|a [|b l1] IH]; simpl in *; [destruct l2; tauto..|tauto].
Qed.

Lemma linked_frame_le (links links' : DoublyLinkedList) (c : list node) (l r : nat) :
  linked links c → StronglySorted lt (idx <$> c) →
  Forall (λ nd, idx nd ≤ l) c → l < r →
  (∀ j, j ≠ l → get_next links' j = get_next links j) →
  (∀ j, j ≠ r → get_prev links' j = get_prev links j) →
  linked links' c.
Proof.
  intros Hl Hs Hc Hlr Hn Hp. induction c as [|a c IH]; [done|].
  destruct c as [|b c]; [done|].
  destruct Hl as (H1 & H2 & H3).
  apply Forall_cons in Hc as [Ha Hc]. pose proof Hc as [Hb _]%Forall_cons.
  rewrite fmap_cons, StronglySorted_cons in Hs. destruct Hs as [Hab Hs].
  rewrite fmap_cons, Forall_cons in Hab. destruct Hab as [Hab _].
  split_and!; [rewrite Hn by lia; done|rewrite Hp by lia; done|by apply IH].
Qed.

Lemma linked_frame_ge (links links' : DoublyLinkedList) (c : list node) (l r : nat) :
  linked links c → StronglySorted lt (idx <$> c) →
  Forall (λ nd, r ≤ idx nd) c → l < r →
  (∀ j, j ≠ l → get_next links' j = get_next links j) →
  (∀ j, j ≠ r → get_prev links' j = get_prev links j) →
  linked links' c.
Proof.
  intros Hl Hs Hc Hlr Hn Hp. induction c as [|a c IH]; [done|].
  destruct c as [|b c]; [done|].
  destruct Hl as (H1 & H2 & H3).
  apply Forall_cons in Hc as [Ha Hc]. pose proof Hc as [Hb _]%Forall_cons.
  rewrite fmap_cons, StronglySorted_cons in Hs. destruct Hs as [Hab Hs].
  rewrite fmap_cons, Forall_cons in Hab. destruct Hab as [Hab _].
  split_and!; [rewrite Hn by lia; done|rewrite Hp by lia; done|by apply IH].
Qed.

Lemma prepr_excise (x : NumericVector) (links : DoublyLinkedList)
  (pre : list node) (u : node) (mid : list node) (w : node) (post : list node) (f : D) :
  prepr x links (pre ++ u :: mid ++ w :: post) →
  ∃ l1 l2 l3,
    set_next links (idx u) (idx w) = Ok l1 ∧
    set_prev l1 (idx w) (idx u) = Ok l2 ∧
    set_pvdiff l2 (idx w) f = Ok l3 ∧
    prepr x l3 (pre ++ u :: mk_node (idx w) f :: post).
Proof.
  intros (Hlen & [post0 Hhd] & Hs & Hlt & Hwt & Hl & Hnx & Hpv & Hb).
  destruct (sorted_split _ _ _ Hs) as (Fpre & Fpost1 & Spre & Spost1).
  destruct (sorted_split _ _ _ Spost1) as (Fmid & Fpost & Smid & Spost).
  pose proof Fpost1 as [_ [Huw _]%Forall_cons]%Forall_app.
  pose proof Hlt as [Hlt_pre [Hu [_ [Hw Hlt_post]%Forall_cons]%Forall_app]%Forall_cons]%Forall_app.
  pose proof Hwt as [Hwt_pre [Hwu [_ [_ Hwt_post]%Forall_cons]%Forall_app]%Forall_cons]%Forall_app.
  simpl in Huw, Hu, Hw.
  destruct (set_next_spec links (idx u) (idx w)) as (l1 & E1 & (L1 & N1 & P1 & W1) & B1);
    [lia|].
  destruct (set_prev_spec l1 (idx w) (idx u)) as (l2 & E2 & (L2 & N2 & P2 & W2) & B2);
    [lia|].
  destruct (set_pvdiff_spec l2 (idx w) f) as (l3 & E3 & (L3 & N3 & P3 & W3) & B3);
    [lia|].
  exists l1, l2, l3. split_and!; [done..|].
  assert (∀ j, get_next l3 j = if decide (j = idx u) then Ok (idx w) else get_next links j)
    as HN by (intros j; by rewrite N3, N2, N1).
  assert (∀ j, get_prev l3 j = if decide (j = idx w) then Ok (idx u) else get_prev links j)
    as HP by (intros j; rewrite P3, P2; case_decide; [done|by rewrite P1]).
  assert (∀ j, get_pvdiff l3 j = if decide (j = idx w) then Ok f else get_pvdiff links j)
    as HW by (intros j; rewrite W3; case_decide; [done|by rewrite W2, W1]).
  apply linked_app in Hl as [Hl1 Hl2].
  change (u :: mid ++ w :: post) with ([u] ++ mid ++ w :: post) in Hl2.
  rewrite app_assoc in Hl2. apply linked_app in Hl2 as [_ Hl2].
  split_and!.
  - lia.
  - destruct pre; simplify_eq/=; eauto.
  - apply sorted_join; [done| |done|].
    + apply Forall_cons; split; [done|].
      eapply Forall_impl; [exact Fpost|]. simpl. intros; lia.
    + rewrite fmap_cons. apply StronglySorted_cons. split; [|done].
      by apply Forall_fmap.
  - apply Forall_app; split; [done|]. apply Forall_cons; split; [done|].
    apply Forall_cons; split; done.
  - apply Forall_app; split; [|apply Forall_cons; split; [|apply Forall_cons; split]]; simpl.
    + eapply Forall_impl; [apply Forall_and; split; [exact Fpre|exact Hwt_pre]|].
      simpl. intros nd [? ?]. rewrite HW. case_decide; [lia|done].
    + rewrite HW. case_decide; [lia|done].
    + simpl. rewrite HW. by case_decide.
    + eapply Forall_impl; [apply Forall_and; split; [exact Fpost|exact Hwt_post]|].
      simpl. intros nd [? ?]. rewrite HW. case_decide; [lia|done].
  - apply linked_app. split.
    + apply (linked_frame_le links l3 _ (idx u) (idx w)); [done| | |done|..].
      * replace (pre ++ [u]) with (pre ++ u :: []) by done.
        apply sorted_join; [done|done|done|constructor].
      * apply Forall_app; split; [|by apply Forall_singleton].
        eapply Forall_impl; [exact Fpre|]. simpl; intros; lia.
      * intros j ?. rewrite HN. by case_decide.
      * intros j ?. rewrite HP. by case_decide.
    + assert (linked l3 (w :: post)) as Hl3.
      { apply (linked_frame_ge links l3 _ (idx u) (idx w)); [done| | |done|..].
        - rewrite fmap_cons. apply StronglySorted_cons. split; [|done].
          by apply Forall_fmap.
        - apply Forall_cons; split; [done|].
          eapply Forall_impl; [exact Fpost|]. simpl; intros; lia.
        - intros j ?. rewrite HN. by case_decide.
        - intros j ?. rewrite HP. by case_decide. }
      simpl. split_and!.
      * rewrite HN. by case_decide.
      * rewrite HP. by case_decide.
      * destruct post; done.
  - rewrite HN. case_decide; [lia|done].
  - rewrite HP. case_decide; [lia|done].
  - apply B3. apply B2; [|lia]. apply B1; [done|lia].
Qed.

Lemma linked_suffix (links : DoublyLinkedList) (pre c : list node) :
  linked links (pre ++ c) → linked links c.
Proof.
  destruct c as [|u c]; [done|]. intros Hl. by apply linked_app in Hl as [_ ?].
Qed.

(** Everything the representation says about an explicit part of the chain. *)
Lemma prepr_part (x : NumericVector) (links : DoublyLinkedList) (pre c : list node) :
  prepr x links (pre ++ c) →
  linked links c ∧
  Forall (λ nd, get_pvdiff links (idx nd) = Ok (wt nd) ∧ idx nd < length x) c ∧
  StronglySorted lt (idx <$> c).
Proof.
  intros (_ & _ & Hs & Hlt & Hwt & Hl & _). split_and!.
  - by eapply linked_suffix.
  - apply Forall_app in Hlt as [_ ?]. apply Forall_app in Hwt as [_ ?].
    by apply Forall_and.
  - rewrite fmap_app in Hs. by apply StronglySorted_app in Hs as (_ & _ & ?).
Qed.

Lemma prepr_head (x : NumericVector) (links : DoublyLinkedList) (u : node)
  (post : list node) :
  prepr x links (u :: post) → u = mk_node 0 dzero.
Proof. intros (_ & [? ?] & _). by simplify_eq. Qed.

Lemma prepr_not_head (x : NumericVector) (links : DoublyLinkedList)
  (pre : list node) (a u : node) (post : list node) :
  prepr x links (pre ++ a :: u :: post) → 0 < idx u.
Proof.
  intros Hr. destruct (prepr_part _ _ _ _ Hr) as (_ & _ & Hs).
  rewrite !fmap_cons in Hs. apply StronglySorted_cons in Hs as [Hs _].
  apply Forall_cons in Hs as [? _]. lia.
Qed.

Lemma repr_last (x : NumericVector) (links : DoublyLinkedList)
  (pre : list node) (u : node) :
  repr x links (pre ++ [u]) →
  idx u = length x - 1 ∧ get_next links (idx u) = Ok (length x).
Proof.
  intros [(_ & _ & _ & _ & _ & _ & Hn & _) Hlast].
  rewrite fmap_app in Hlast. simpl in Hlast. rewrite last_snoc in Hlast.
  simplify_eq/=. split; [done|].
  by rewrite Hlast.
Qed.

Lemma last_drop_mid {A} (pre mid : list A) (u w : A) (post : list A) :
  last (pre ++ u :: mid ++ w :: post) = last (pre ++ u :: w :: post).
Proof.
  rewrite !last_app_cons. change (u :: mid ++ w :: post) with ((u :: mid) ++ w :: post).
  rewrite last_app_cons. by rewrite last_cons_cons.
Qed.

Lemma repr_excise (x : NumericVector) (links : DoublyLinkedList)
  (pre : list node) (u : node) (mid : list node) (w : node) (post : list node) (f : D) :
  repr x links (pre ++ u :: mid ++ w :: post) →
  ∃ l1 l2 l3,
    set_next links (idx u) (idx w) = Ok l1 ∧
    set_prev l1 (idx w) (idx u) = Ok l2 ∧
    set_pvdiff l2 (idx w) f = Ok l3 ∧
    repr x l3 (pre ++ u :: mk_node (idx w) f :: post).
Proof.
  intros [Hp Hlast].
  destruct (prepr_excise _ _ _ _ _ _ _ f Hp) as (l1 & l2 & l3 & ? & ? & ? & ?).
  exists l1, l2, l3. split_and!; [done..|]. split; [done|].
  rewrite <- Hlast. rewrite !fmap_app, !fmap_cons, !fmap_app, !fmap_cons.
  simpl. by rewrite last_drop_mid.
Qed.

Ltac step_res :=
  repeat first
    [ progress simpl
    | match goal with
      | H : ?a = Ok _ |- context [?a] => rewrite H
      | |- context [decide ?P] =>
          first [rewrite (decide_True (P:=P)) by (simpl; lia)
                |rewrite (decide_False (P:=P)) by (simpl; lia)]
      end ].

(** Unfolds what [prepr] says about the explicit nodes of the chain. *)
Ltac chain_facts H :=
  let Hl := fresh "Hl" in let Hf := fresh "Hf" in let Hs := fresh "Hs" in
  destruct (prepr_part _ _ _ _ H) as (Hl & Hf & Hs);
  simpl in Hl; rewrite ?fmap_cons in Hs;
  repeat match goal with
    | H' : Forall _ (_ :: _) |- _ => apply Forall_cons in H' as [? H']
    | H' : StronglySorted _ (_ :: _) |- _ => apply StronglySorted_cons in H' as [? H']
    | H' : _ ∧ _ |- _ => destruct H'
    end.

Lemma csi_backtrack_sim (x : NumericVector) (links : DoublyLinkedList)
  (l : list node) (b e' : node) (r : list node) :
  repr x links (reverse l ++ b :: e' :: r) →
  csi_backtrack 3 (length x) links (mk_window (idx e') (idx e') dzero)
    = Ok (z_next (z_backtrack l b e' r)) ∧
  z_result (z_backtrack l b e' r) = reverse l ++ b :: e' :: r.
Proof.
  intros Hr. pose proof Hr as [Hp Hlast].
  destruct l as [|l1 [|l2 l']].
  - (* the new edge starts the chain *)
    simpl in Hp. pose proof (prepr_head _ _ _ _ Hp) as ->.
    change (prepr x links ([] ++ mk_node 0 dzero :: e' :: r)) in Hp.
    destruct r as [|r1 [|r2 r']]; chain_facts Hp; simpl in *.
    + destruct (repr_last x links [mk_node 0 dzero] e' Hr) as [? ?].
      split; [|done]. unfold csi_extend. step_res. done.
    + destruct (repr_last x links [mk_node 0 dzero; e'] r1 Hr) as [? ?].
      split; [|done]. unfold csi_extend. step_res. done.
    + split; [|done]. unfold csi_extend. step_res. done.
  - (* one node before the new edge: the head *)
    rewrite reverse_singleton in *. simpl in Hp.
    pose proof (prepr_head _ _ _ _ Hp) as ->.
    change (prepr x links ([] ++ mk_node 0 dzero :: b :: e' :: r)) in Hp.
    destruct r as [|r1 r']; chain_facts Hp; simpl in *.
    + destruct (repr_last x links [mk_node 0 dzero; b] e' Hr) as [? ?].
      split; [|done]. unfold csi_extend. step_res. done.
    + split; [|done]. unfold csi_extend. step_res. done.
  - (* two nodes before the new edge *)
    rewrite !reverse_cons, <- !app_assoc in *. simpl in Hp.
    pose proof (prepr_not_head _ _ _ _ _ _ Hp).
    chain_facts Hp.
    split; [|done]. step_res. done.
Qed.

Lemma csi_step_sim (x : NumericVector) (p : D) (links : DoublyLinkedList) (z : zipper) :
  repr x links (z_chain z) →
  ∃ links',
    csi_step x p links (z_window z) = Ok (links', z_next (z_step x p z)) ∧
    repr x links' (z_result (z_step x p z)) ∧
    if dle (fjoin x p (idx (zb z)) (idx (ze z))) (zsum z) then links' = links
    else
      get_next links' (idx (zb z)) = Ok (idx (ze z)) ∧
      get_prev links' (idx (ze z)) = Ok (idx (zb z)) ∧
      get_pvdiff links' (idx (ze z)) = Ok (fjoin x p (idx (zb z)) (idx (ze z))).
Proof.
  destruct z as [l b m1 m2 e r s]. unfold z_chain, z_window, z_step, csi_step. simpl.
  intros Hr. pose proof Hr as [Hp Hlast]. pose proof Hp as Hp'. chain_facts Hp'.
  rewrite !rd_xval by done. simpl. fold (fjoin x p (idx b) (idx e)).
  destruct (dle (fjoin x p (idx b) (idx e)) s) eqn:Hdle.
  - (* mid points are significant *)
    destruct r as [|e' r'].
    + assert (repr x links ((reverse l ++ [b; m1; m2]) ++ [e])) as Hr'
        by (by rewrite <- app_assoc).
      destruct (repr_last _ _ _ _ Hr') as [? ?].
      exists links. step_res. done.
    + chain_facts Hp. exists links. step_res. split_and!; [done| |done].
      unfold z_chain. simpl. by rewrite reverse_cons, <- app_assoc.
  - (* mid points are redundant *)
    destruct (repr_excise x links (reverse l) b [m1; m2] e r
                (fjoin x p (idx b) (idx e)) Hr)
      as (l1 & l2 & l3 & E1 & E2 & E3 & Hr3).
    rewrite E1. simpl. rewrite E2. simpl. rewrite E3. simpl.
    destruct (csi_backtrack_sim _ _ _ _ _ _ Hr3) as [Eb Ec].
    simpl in Eb. exists l3. rewrite Eb. simpl. split_and!; [done|by rewrite Ec|..];
      destruct Hr3 as [Hp3 _]; chain_facts Hp3; done.
Qed.

Lemma z_backtrack_chain (l : list node) (b e' : node) (r : list node) :
  z_result (z_backtrack l b e' r) = reverse l ++ b :: e' :: r.
Proof.
  destruct l as [|l1 [|l2 l']]; destruct r as [|r1 [|r2 r']]; simpl; try done;
    unfold z_chain; simpl; by rewrite !reverse_cons, <- !app_assoc.
Qed.

Lemma z_backtrack_right (l : list node) (b e' : node) (r : list node) (z' : zipper) :
  z_backtrack l b e' r = inr z' → length (zr z') ≤ length r.
Proof.
  destruct l as [|l1 [|l2 l']]; destruct r as [|r1 [|r2 r']]; simpl;
    intros; simplify_eq/=; lia.
Qed.

Lemma z_step_measure (x : NumericVector) (p : D) (z z' : zipper) :
  z_step x p z = inr z' → z_measure z' < z_measure z.
Proof.
  unfold z_step, z_measure. destruct (dle _ _).
  - destruct (zr z) as [|e' r'] eqn:E; [done|]. intros [= <-].
    unfold z_chain. simpl. rewrite E, reverse_cons, <- app_assoc.
    rewrite !length_app. simpl. lia.
  - intros E. pose proof (z_backtrack_right _ _ _ _ _ E).
    pose proof (z_backtrack_chain (zl z) (zb z)
                  (mk_node (idx (ze z)) (fjoin x p (idx (zb z)) (idx (ze z)))) (zr z)) as Ec.
    rewrite E in Ec. simpl in Ec. rewrite Ec. unfold z_chain.
    rewrite !length_app. simpl. lia.
Qed.

Lemma z_step_sublist (x : NumericVector) (p : D) (z : zipper) :
  idx <$> z_result (z_step x p z) `sublist_of` idx <$> z_chain z.
Proof.
  unfold z_step. destruct (dle _ _).
  - destruct (zr z) as [|e' r'] eqn:E; [done|]. simpl.
    unfold z_chain. simpl. by rewrite E, reverse_cons, <- app_assoc.
  - rewrite z_backtrack_chain. unfold z_chain. rewrite !fmap_app.
    apply sublist_app; [done|]. simpl. apply sublist_skip.
    apply sublist_cons, sublist_cons. done.
Qed.

Lemma z_loop_terminates (fuel : nat) (x : NumericVector) (p : D) (z : zipper) :
  z_measure z < fuel → is_Some (z_loop fuel x p z).
Proof.
  revert z. induction fuel as [|f IH]; intros z Hm; [lia|]. simpl.
  destruct (z_step x p z) as [c|z'] eqn:E; [done|].
  apply IH. apply z_step_measure in E. lia.
Qed.

Lemma z_loop_mono (f f' : nat) (x : NumericVector) (p : D) (z : zipper) (c : list node) :
  z_loop f x p z = Some c → f ≤ f' → z_loop f' x p z = Some c.
Proof.
  revert f' z. induction f as [|f IH]; intros f' z Hz Hle; [done|].
  destruct f' as [|f']; [lia|]. simpl in *.
  destruct (z_step x p z); [done|]. apply IH; [done|lia].
Qed.

Lemma csi_loop_sim (fuel : nat) (x : NumericVector) (p : D)
  (links : DoublyLinkedList) (z : zipper) :
  repr x links (z_chain z) →
  outcome (z_measure z < fuel) (csi_loop fuel x p links (z_window z))
    (λ links', ∃ c', z_loop fuel x p z = Some c' ∧ repr x links' c').
Proof.
  revert links z. induction fuel as [|f IH]; intros links z Hr; simpl; [lia|].
  destruct (csi_step_sim x p links z Hr) as (links' & -> & Hr' & _). simpl.
  destruct (z_step x p z) as [c|z'] eqn:E; simpl in *; [eauto|].
  eapply outcome_mono; [by apply IH| |done].
  apply z_step_measure in E. lia.
Qed.

Lemma csi_open_sim (x : NumericVector) (links : DoublyLinkedList) (c : list node) :
  repr x links c →
  csi_open 3 (length x) links (mk_window 0 0 dzero) = Ok (z_next (z_open c)) ∧
  z_result (z_open c) = c.
Proof.
  intros Hr. pose proof Hr as [Hp Hlast].
  pose proof Hp as (_ & [post ->] & _).
  change (prepr x links ([] ++ mk_node 0 dzero :: post)) in Hp.
  destruct post as [|a [|b [|e r]]]; chain_facts Hp; simpl in *.
  - destruct (repr_last x links [] _ Hr) as [? ?]. simpl in *.
    split; [|done]. unfold csi_extend. step_res. done.
  - destruct (repr_last x links [_] _ Hr) as [? ?].
    split; [|done]. unfold csi_extend. step_res. done.
  - destruct (repr_last x links [_; _] _ Hr) as [? ?].
    split; [|done]. unfold csi_extend. step_res. done.
  - split; [|done]. unfold csi_extend. step_res. done.
Qed.

Lemma CheckShortIntervals_sim (fuel : nat) (x : NumericVector) (p : D)
  (links : DoublyLinkedList) (c : list node) :
  repr x links c →
  outcome (3 * length c < fuel) (CheckShortIntervals fuel x links p)
    (λ links', repr x links' (short_chain x p c)).
Proof.
  intros Hr. destruct (csi_open_sim x links c Hr) as [Eo Ec].
  unfold CheckShortIntervals, short_chain. rewrite Eo.
  destruct (z_open c) as [c'|z] eqn:E; cbn -[z_measure z_loop] in *; [by subst|].
  subst c. eapply outcome_mono; [by apply csi_loop_sim| |].
  - unfold z_measure. unfold z_chain at 2. rewrite !length_app. simpl. lia.
  - intros links' (c' & Hz & Hr').
    destruct (z_loop_terminates (S (z_measure z)) x p z) as [c'' Hz'']; [lia|].
    rewrite Hz''. simpl.
    pose proof (z_loop_mono _ (fuel + S (z_measure z)) _ _ _ _ Hz ltac:(lia)) as E1.
    pose proof (z_loop_mono _ (fuel + S (z_measure z)) _ _ _ _ Hz'' ltac:(lia)) as E2.
    congruence.
Qed.

Lemma prepr_extend (x : NumericVector) (links : DoublyLinkedList)
  (c : list node) (u : node) (i : nat) (w : D) :
  prepr x links (c ++ [u]) → idx u < i → i < length x →
  ∃ l1 l2 l3,
    set_next links (idx u) i = Ok l1 ∧
    set_prev l1 i (idx u) = Ok l2 ∧
    set_pvdiff l2 i w = Ok l3 ∧
    prepr x l3 (c ++ [u; mk_node i w]).
Proof.
  intros (Hlen & [post0 Hhd] & Hs & Hlt & Hwt & Hl & Hnx & Hpv & Hb) Hui Hi.
  destruct (sorted_split _ _ _ Hs) as (Fpre & _ & Spre & _).
  pose proof Hlt as [Hlt_pre [Hu _]%Forall_cons]%Forall_app.
  pose proof Hwt as [Hwt_pre [Hwu _]%Forall_cons]%Forall_app.
  simpl in Hu, Hwu.
  destruct (set_next_spec links (idx u) i) as (l1 & E1 & (L1 & N1 & P1 & W1) & B1);
    [lia|].
  destruct (set_prev_spec l1 i (idx u)) as (l2 & E2 & (L2 & N2 & P2 & W2) & B2);
    [lia|].
  destruct (set_pvdiff_spec l2 i w) as (l3 & E3 & (L3 & N3 & P3 & W3) & B3);
    [lia|].
  exists l1, l2, l3. split_and!; [done..|].
  assert (∀ j, get_next l3 j = if decide (j = idx u) then Ok i else get_next links j)
    as HN by (intros j; by rewrite N3, N2, N1).
  assert (∀ j, get_prev l3 j = if decide (j = i) then Ok (idx u) else get_prev links j)
    as HP by (intros j; rewrite P3, P2; case_decide; [done|by rewrite P1]).
  assert (∀ j, get_pvdiff l3 j = if decide (j = i) then Ok w else get_pvdiff links j)
    as HW by (intros j; rewrite W3; case_decide; [done|by rewrite W2, W1]).
  assert (StronglySorted lt (idx <$> c ++ [u])) as Hs' by done.
  split_and!.
  - lia.
  - destruct c; simplify_eq/=; eauto.
  - apply sorted_join; [done| |done|].
    + by apply Forall_singleton.
    + simpl. apply StronglySorted_cons. split; constructor.
  - apply Forall_app; split; [done|]. apply Forall_cons; split; [done|].
    by apply Forall_singleton.
  - apply Forall_app; split; [|apply Forall_cons; split; [|apply Forall_singleton]]; simpl.
    + eapply Forall_impl; [apply Forall_and; split; [exact Fpre|exact Hwt_pre]|].
      simpl. intros nd [? ?]. rewrite HW. case_decide; [lia|done].
    + rewrite HW. case_decide; [lia|done].
    + rewrite HW. by case_decide.
  - apply linked_app. split.
    + apply (linked_frame_le links l3 _ (idx u) i); [done|done| |done|..].
      * apply Forall_app; split; [|by apply Forall_singleton].
        eapply Forall_impl; [exact Fpre|]. simpl; intros; lia.
      * intros j ?. rewrite HN. by case_decide.
      * intros j ?. rewrite HP. by case_decide.
    + simpl. split_and!; [|  |done].
      * rewrite HN. by case_decide.
      * rewrite HP. by case_decide.
  - rewrite HN. case_decide; [lia|done].
  - rewrite HP. case_decide; [lia|done].
  - apply B3. apply B2; [|lia]. apply B1; [done|lia].
Qed.

Lemma drop_xval (x : NumericVector) (i : nat) :
  i < length x → drop i x = xval x i :: drop (S i) x.
Proof.
  intros Hi. destruct (lookup_lt_is_Some_2 x i Hi) as [a Ha].
  unfold xval. rewrite Ha. simpl. by apply drop_S.
Qed.

Lemma extrema_step (x : NumericVector) (p : D) (i : nat) (xl : D) (direction : Z) :
  i < length x →
  extrema p i (drop i x) xl direction =
    let '(new_extremum, direction') := extremum_test x i direction in
    if new_extremum
    then mk_node i (pvar_diff (dsub (xval x i) xl) p)
           :: extrema p (i + 1) (drop (i + 1) x) (xval x i) direction'
    else extrema p (i + 1) (drop (i + 1) x) xl direction'.
Proof.
  intros Hi. rewrite (drop_xval x i Hi). simpl. unfold extremum_test.
  replace (i + 1) with (S i) by lia.
  destruct (decide (S i ≠ length x)) as [Hj|Hj].
  - rewrite (drop_xval x (S i)) by lia. done.
  - rewrite (drop_ge x (S i)) by lia. done.
Qed.

Lemma extrema_last (p : D) (i : nat) (xs : list D) (xl : D) (direction : Z) :
  xs ≠ [] →
  last (idx <$> extrema p i xs xl direction) = Some (i + length xs - 1).
Proof.
  revert i xl direction. induction xs as [|xi tl IH]; intros i xl direction Hne; [done|].
  destruct tl as [|xj tl].
  - simpl. f_equal. lia.
  - pose proof (λ xl d, IH (i + 1) xl d ltac:(done)) as IH'.
    replace (i + length (xi :: xj :: tl) - 1) with (i + 1 + length (xj :: tl) - 1)
      by (simpl; lia).
    remember (xj :: tl) as tl' eqn:Etl. cbn [extrema]. subst tl'. lazy beta iota.
    destruct (dlt xi xj); [|destruct (dlt xj xi)];
      try destruct (_ =? _)%Z; rewrite ?fmap_cons, ?last_cons, IH'; done.
Qed.

Lemma dle_loop_sim (x : NumericVector) (p : D) (k i last : nat) (wl : D)
  (direction : Z) (links : DoublyLinkedList) (c : list node) :
  i + k = length x →
  prepr x links (c ++ [mk_node last wl]) →
  last < i ∨ (i = 0 ∧ last = 0 ∧ direction = 0%Z ∧ 2 ≤ length x) →
  ∃ st',
    for_loop (dle_body x p (length x)) i k (last, direction, links) = Ok st' ∧
    prepr x st'.2
      (c ++ mk_node last wl :: extrema p i (drop i x) (xval x last) direction).
Proof.
  revert i last wl direction links c.
  induction k as [|k IH]; intros i last wl direction links c Hik Hp Hlast.
  { rewrite drop_ge by lia. simpl. eauto. }
  assert (i < length x) as Hi by lia.
  assert (last < length x) as Hl.
  { destruct Hp as (_ & _ & _ & [_ [? _]%Forall_cons]%Forall_app & _). done. }
  simpl. unfold dle_body at 1.
  assert ((if decide (i + 1 ≠ length x) then
             xj ← rd x (i + 1); xi ← rd x i;
             if dlt xi xj then Ok ((direction =? -1)%Z, 1%Z)
             else if dlt xj xi then Ok ((direction =? 1)%Z, (-1)%Z)
             else Ok (false, direction)
           else Ok (true, direction)) = Ok (extremum_test x i direction)) as ->.
  { unfold extremum_test. case_decide; [|done]. rewrite !rd_xval by lia. simpl.
    by repeat destruct (dlt _ _). }
  simpl. rewrite extrema_step by done.
  destruct (extremum_test x i direction) as [[] dir'] eqn:Et.
  - assert (last < i) as Hli.
    { destruct Hlast as [?|(-> & -> & -> & ?)]; [done|].
      unfold extremum_test in Et. rewrite decide_True in Et by (simpl; lia).
      by repeat destruct (dlt _ _). }
    destruct (prepr_extend x links c (mk_node last wl) i
                (pvar_diff (dsub (xval x i) (xval x last)) p) Hp Hli Hi)
      as (l1 & l2 & l3 & E1 & E2 & E3 & Hp3).
    simpl in *. rewrite E1. simpl. rewrite E2. simpl.
    rewrite !rd_xval by done. simpl. rewrite E3. simpl.
    destruct (IH (i + 1) i (pvar_diff (dsub (xval x i) (xval x last)) p) dir' l3
                (c ++ [mk_node last wl])) as (st' & Es & Hs); [lia| |lia|].
    { by rewrite <- app_assoc. }
    exists st'. split; [done|]. by rewrite <- app_assoc in Hs.
  - apply IH; [lia|done|]. left. destruct Hlast as [?|(-> & -> & _)]; lia.
Qed.

Lemma DetectLocalExtrema_sim (x : NumericVector) (p : D) (links : DoublyLinkedList) :
  2 ≤ length x → length links = length x → Forall (in_bounds (length x)) links →
  ∃ links', DetectLocalExtrema x links p = Ok links' ∧ repr x links' (extrema_chain x p).
Proof.
  intros Hn Hlen Hb. unfold DetectLocalExtrema.
  destruct (set_prev_spec links 0 0) as (l1 & E1 & (L1 & N1 & P1 & W1) & B1); [lia|].
  destruct (set_pvdiff_spec l1 0 dzero) as (l2 & E2 & (L2 & N2 & P2 & W2) & B2); [lia|].
  destruct (set_next_spec l2 (length l2 - 1) (length x))
    as (l3 & E3 & (L3 & N3 & P3 & W3) & B3); [lia|].
  rewrite E1. simpl. rewrite E2. simpl. rewrite E3. simpl.
  assert (prepr x l3 ([] ++ [mk_node 0 dzero])) as Hp.
  { split_and!; simpl.
    - lia.
    - eauto.
    - apply StronglySorted_cons. split; constructor.
    - apply Forall_singleton. simpl. lia.
    - apply Forall_singleton. simpl. rewrite W3, W2. by rewrite decide_True.
    - done.
    - rewrite N3. rewrite decide_True; [done|lia].
    - rewrite P3, P2, P1. by rewrite decide_True.
    - apply B3; [|done]. apply B2. apply B1; [done|lia]. }
  destruct (dle_loop_sim x p (length x) 0 0 dzero 0%Z l3 [] eq_refl Hp)
    as ([[last' dir'] links'] & Es & Hs); [right; done|].
  rewrite Es. simpl. exists links'. split; [done|]. split; [done|].
  unfold extrema_chain. rewrite fmap_cons, last_cons.
  rewrite extrema_last by (destruct x; simpl in *; [lia|done]).
  f_equal.
Qed.

(** ** Segments of a sorted chain *)

Lemma filter_all {A} (P : A → Prop) `{!∀ a, Decision (P a)} (l : list A) :
  Forall P l → filter P l = l.
Proof.
  induction 1 as [|a l Ha _ IH]; [done|]. by rewrite filter_cons_True, IH.
Qed.

Lemma filter_none {A} (P : A → Prop) `{!∀ a, Decision (P a)} (l : list A) :
  Forall (λ a, ¬ P a) l → filter P l = [].
Proof.
  induction 1 as [|a l Ha _ IH]; [done|]. by rewrite filter_cons_False.
Qed.

Lemma seg_sorted (pre : list node) (a : node) (mid : list node) (b : node)
  (post : list node) :
  StronglySorted lt (idx <$> (pre ++ a :: mid ++ b :: post)) →
  seg (idx a) (idx b) (pre ++ a :: mid ++ b :: post) = a :: mid ++ [b].
Proof.
  intros Hs.
  destruct (sorted_split _ _ _ Hs) as (Fpre & Fpost1 & _ & Spost1).
  destruct (sorted_split _ _ _ Spost1) as (Fmid & Fpost & _ & _).
  apply Forall_app in Fpost1 as [Fmid' [Hab _]%Forall_cons].
  unfold seg. rewrite filter_app, filter_cons_True by lia.
  rewrite filter_app, filter_cons_True by lia.
  rewrite (filter_none _ pre), (filter_all _ mid), (filter_none _ post); [done|..].
  - eapply Forall_impl; [exact Fpost|]. simpl. intros; lia.
  - eapply Forall_impl; [apply Forall_and; split; [exact Fmid|exact Fmid']|].
    simpl. intros; lia.
  - eapply Forall_impl; [exact Fpre|]. simpl. intros; lia.
Qed.

Lemma excise_sorted (pre : list node) (l : node) (mid : list node) (r : node)
  (post : list node) (f : D) :
  StronglySorted lt (idx <$> (pre ++ l :: mid ++ r :: post)) →
  excise (idx l) (idx r) f (pre ++ l :: mid ++ r :: post)
    = pre ++ l :: mk_node (idx r) f :: post.
Proof.
  intros Hs.
  destruct (sorted_split _ _ _ Hs) as (Fpre & Fpost1 & _ & Spost1).
  destruct (sorted_split _ _ _ Spost1) as (Fmid & Fpost & _ & _).
  apply Forall_app in Fpost1 as [Fmid' [Hab Fpost']%Forall_cons].
  unfold excise. rewrite !filter_app, !filter_cons.
  rewrite !filter_app, !filter_cons.
  rewrite (decide_True (P:=idx l ≤ idx l)), (decide_False (P:=idx r ≤ idx l)),
    (decide_False (P:=idx r < idx l)), (decide_False (P:=idx r < idx r)) by lia.
  rewrite (filter_all (λ nd, idx nd ≤ idx l) pre),
    (filter_none (λ nd, idx nd ≤ idx l) mid),
    (filter_none (λ nd, idx nd ≤ idx l) post),
    (filter_none (λ nd, idx r < idx nd) pre),
    (filter_none (λ nd, idx r < idx nd) mid),
    (filter_all (λ nd, idx r < idx nd) post).
  - simpl. by rewrite <- app_assoc.
  - done.
  - eapply Forall_impl; [exact Fmid|]. simpl. intros; lia.
  - eapply Forall_impl; [exact Fpre|]. simpl. intros; lia.
  - eapply Forall_impl; [exact Fpost'|]. simpl. intros; lia.
  - eapply Forall_impl; [exact Fmid'|]. simpl. intros; lia.
  - eapply Forall_impl; [exact Fpre|]. simpl. intros; lia.
Qed.

Lemma sorted_length (l : list nat) (n : nat) :
  StronglySorted lt l → Forall (λ i, i < n) l → length l ≤ n.
Proof.
  revert n. induction l as [|a l IH] using rev_ind; intros n Hs Hn; [simpl; lia|].
  apply StronglySorted_app in Hs as (Hx & Hs & _).
  apply Forall_app in Hn as [_ [Ha _]%Forall_cons].
  rewrite length_app. simpl.
  assert (length l ≤ a); [|lia].
  apply IH; [done|]. apply Forall_forall. intros i Hi. apply Hx; [done|left].
Qed.

(** A node of the chain splits it. *)
Lemma chain_split (c : list node) (i : nat) :
  i ∈ idx <$> c → ∃ pre nd post, c = pre ++ nd :: post ∧ idx nd = i.
Proof.
  intros (nd & -> & Hnd)%list_elem_of_fmap.
  apply list_elem_of_split in Hnd as (pre & post & ->). eauto.
Qed.

(** Two nodes of a sorted chain, in order, split it twice. *)
Lemma chain_split2 (c : list node) (i j : nat) :
  StronglySorted lt (idx <$> c) → i ∈ idx <$> c → j ∈ idx <$> c → i < j →
  ∃ pre a mid b post, c = pre ++ a :: mid ++ b :: post ∧ idx a = i ∧ idx b = j.
Proof.
  intros Hs Hi Hj Hij.
  destruct (chain_split c i Hi) as (pre & a & post & -> & <-).
  destruct (sorted_split _ _ _ Hs) as (Fpre & Fpost & _ & _).
  rewrite fmap_app, fmap_cons in Hj.
  apply elem_of_app in Hj as [Hj|Hj].
  { apply list_elem_of_fmap in Hj as (nd & -> & Hnd).
    rewrite Forall_forall in Fpre. specialize (Fpre _ Hnd). lia. }
  apply elem_of_cons in Hj as [->|Hj]; [lia|].
  destruct (chain_split post j Hj) as (mid & b & post' & -> & <-).
  by exists pre, a, mid, b, post'.
Qed.
(** ** The candidate walks *)

Lemma walk_record_sim (x : NumericVector) (ev : D) (i : nat) (w : walk) :
  i < length x → walk_record x ev i w = Ok (walk_rec x ev i w).
Proof.
  intros Hi. unfold walk_record, walk_rec. rewrite !rd_xval by done. simpl.
  by repeat destruct (dlt _ _).
Qed.

Lemma default_last_cons {A} (a u : A) (l : list A) :
  default a (last (u :: l)) = default u (last l).
Proof. rewrite last_cons. by destruct (last l). Qed.

Lemma default_last_elem {A} (u : A) (l : list A) : default u (last l) ∈ u :: l.
Proof.
  destruct (last l) as [a|] eqn:E; simpl; [|left].
  right. apply last_Some in E as [l' ->]. apply elem_of_app. right. left.
Qed.

Lemma walk_back_sim (fuel : nat) (x : NumericVector) (links : DoublyLinkedList)
  (pre rest : list node) (cur : node) (post : list node) (w : walk) :
  prepr x links (pre ++ reverse rest ++ cur :: post) → w_it w = idx cur →
  outcome (length rest < fuel)
    (walk_back fuel x links (idx (default cur (last rest))) w)
    (λ w', w' = back_walk x cur rest w).
Proof.
  revert fuel cur post w.
  induction rest as [|u rest IH]; intros fuel cur post w Hp Hw.
  - destruct fuel; simpl; [lia|]. by rewrite decide_False by (simpl; lia).
  - destruct fuel; simpl; [lia|].
    rewrite reverse_cons, <- !app_assoc in Hp. simpl in Hp.
    rewrite app_assoc in Hp. pose proof Hp as Hp'. chain_facts Hp'.
    assert (idx (default cur (last (u :: rest))) < idx cur) as Hlt.
    { rewrite default_last_cons.
      pose proof (default_last_elem u rest) as Hin.
      destruct Hp as (_ & _ & Hs' & _).
      replace ((pre ++ reverse rest) ++ u :: cur :: post)
        with ((pre ++ reverse rest ++ [u]) ++ cur :: post) in Hs'
        by (by rewrite <- !app_assoc).
      apply sorted_split in Hs' as (Hall & _). rewrite Forall_forall in Hall.
      apply Hall. apply elem_of_app. right.
      rewrite <- reverse_cons. by apply elem_of_reverse. }
    rewrite decide_True by lia.
    rewrite Hw. step_res. rewrite walk_record_sim by done. simpl.
    rewrite default_last_cons.
    eapply outcome_mono; [apply (IH fuel u (cur :: post))| |done].
    + by rewrite <- app_assoc in Hp.
    + done.
    + lia.
Qed.

Lemma walk_forth_sim (fuel : nat) (x : NumericVector) (links : DoublyLinkedList)
  (pre : list node) (cur : node) (rest post : list node) (w : walk) :
  prepr x links (pre ++ cur :: rest ++ post) → w_it w = idx cur →
  outcome (length rest < fuel)
    (walk_forth fuel x links (idx (default cur (last rest))) w)
    (λ w', w' = forth_walk x rest w).
Proof.
  revert fuel pre cur w.
  induction rest as [|u rest IH]; intros fuel pre cur w Hp Hw.
  - destruct fuel; simpl; [lia|]. by rewrite decide_False by (simpl; lia).
  - destruct fuel; simpl; [lia|].
    pose proof Hp as Hp'. simpl in Hp'. chain_facts Hp'.
    assert (idx cur < idx (default cur (last (u :: rest)))) as Hlt.
    { rewrite default_last_cons.
      pose proof (default_last_elem u rest) as Hin.
      destruct Hp as (_ & _ & Hs' & _).
      apply sorted_split in Hs' as (_ & Hall & _). rewrite Forall_forall in Hall.
      apply Hall. change (u :: rest ++ post) with ((u :: rest) ++ post).
      apply elem_of_app. by left. }
    rewrite decide_True by lia.
    rewrite Hw. step_res. rewrite walk_record_sim by done. simpl.
    rewrite default_last_cons.
    eapply outcome_mono; [apply (IH fuel (pre ++ [cur]) u)| |done].
    + by rewrite <- app_assoc.
    + done.
    + lia.
Qed.
(** ** The search for the best joint *)

(** What the search keeps: [sbit] points into the right-hand candidates, and
    the joint found so far, if any, pairs a left with a right candidate; with
    no joint yet, [maxbalance] is still the initial 0. *)
Definition search_inv (PA PB : nat → Prop) (s : search) : Prop :=
  Forall (λ c, PB (it c)) (sbit s) ∧
  match tjoin s with
  | Some (ta, tb) => PA (it ta) ∧ PB (it tb)
  | None => maxbalance s = dzero
  end.

Lemma scan_bit_sim (x : NumericVector) (p : D) (ait : pvtemppoint D)
  (cur : list (pvtemppoint D)) (s : search) :
  it ait < length x → Forall (λ c, it c < length x) cur →
  scan_bit x p ait cur s = Ok (best_bit x p ait cur s).
Proof.
  intros Ha Hcur. revert s. induction Hcur as [|bit cur Hb _ IH]; intros s; [done|].
  simpl. rewrite !rd_xval by done. simpl. apply IH.
Qed.

Lemma best_bit_inv (PA PB : nat → Prop) (x : NumericVector) (p : D)
  (ait : pvtemppoint D) (cur : list (pvtemppoint D)) (s : search) :
  PA (it ait) → Forall (λ c, PB (it c)) cur → search_inv PA PB s →
  search_inv PA PB (best_bit x p ait cur s).
Proof.
  intros Ha Hcur. revert s. induction Hcur as [|bit cur Hb Hcur IH]; intros s Hs; [done|].
  simpl. apply IH. destruct (dlt _ _); [|done].
  split; simpl; [by apply Forall_cons|done].
Qed.

Lemma scan_ait_sim (x : NumericVector) (p : D) (av : list (pvtemppoint D)) (s : search) :
  Forall (λ c, it c < length x) av →
  search_inv (λ i, i < length x) (λ i, i < length x) s →
  scan_ait x p av s = Ok (best_ait x p av s) ∧
  search_inv (λ i, i < length x) (λ i, i < length x) (best_ait x p av s).
Proof.
  intros Hav. revert s. induction Hav as [|ait av Ha _ IH]; intros s Hs; [done|].
  simpl. rewrite scan_bit_sim by (done || apply Hs). simpl.
  apply IH. apply best_bit_inv; [done|apply Hs|done].
Qed.

Lemma best_ait_inv (PA PB : nat → Prop) (x : NumericVector) (p : D)
  (av : list (pvtemppoint D)) (s : search) :
  Forall (λ c, PA (it c)) av → search_inv PA PB s →
  search_inv PA PB (best_ait x p av s).
Proof.
  intros Hav. revert s. induction Hav as [|ait av Ha _ IH]; intros s Hs; [done|].
  simpl. apply IH. apply best_bit_inv; [done|apply Hs|done].
Qed.

Lemma walk_rec_cands (P : nat → Prop) (x : NumericVector) (ev : D) (i : nat) (w : walk) :
  P i →
  Forall (λ c, P (it c)) (w_mins w) ∧ Forall (λ c, P (it c)) (w_maxs w) →
  Forall (λ c, P (it c)) (w_mins (walk_rec x ev i w)) ∧
  Forall (λ c, P (it c)) (w_maxs (walk_rec x ev i w)).
Proof.
  intros Hi [Hmin Hmax]. unfold walk_rec. simpl.
  split; destruct (dlt _ _); try done; apply Forall_app; split; try done;
    by apply Forall_singleton.
Qed.

Lemma back_walk_cands (P : nat → Prop) (x : NumericVector) (cur : node)
  (rest : list node) (w : walk) :
  Forall (λ u, P (idx u)) rest →
  Forall (λ c, P (it c)) (w_mins w) ∧ Forall (λ c, P (it c)) (w_maxs w) →
  Forall (λ c, P (it c)) (w_mins (back_walk x cur rest w)) ∧
  Forall (λ c, P (it c)) (w_maxs (back_walk x cur rest w)).
Proof.
  intros Hrest. revert cur w.
  induction Hrest as [|u rest Hu _ IH]; intros cur w Hw; [done|].
  simpl. apply IH. by apply walk_rec_cands.
Qed.

Lemma forth_walk_cands (P : nat → Prop) (x : NumericVector)
  (rest : list node) (w : walk) :
  Forall (λ u, P (idx u)) rest →
  Forall (λ c, P (it c)) (w_mins w) ∧ Forall (λ c, P (it c)) (w_maxs w) →
  Forall (λ c, P (it c)) (w_mins (forth_walk x rest w)) ∧
  Forall (λ c, P (it c)) (w_maxs (forth_walk x rest w)).
Proof.
  intros Hrest. revert w.
  induction Hrest as [|u rest Hu _ IH]; intros w Hw; [done|].
  simpl. apply IH. by apply walk_rec_cands.
Qed.
Ltac norm_app :=
  repeat first [rewrite <- app_assoc | rewrite <- app_comm_cons]; simpl.

Lemma prepr_length (x : NumericVector) (links : DoublyLinkedList) (c : list node) :
  prepr x links c → length c ≤ length x.
Proof.
  intros (_ & _ & Hs & Hlt & _). rewrite <- (length_fmap idx).
  apply sorted_length; [done|]. by apply Forall_fmap.
Qed.

Lemma prepr_elem_lt (x : NumericVector) (links : DoublyLinkedList) (c : list node)
  (i : nat) :
  prepr x links c → i ∈ idx <$> c → i < length x.
Proof.
  intros (_ & _ & _ & Hlt & _) (nd & -> & Hnd)%list_elem_of_fmap.
  rewrite Forall_forall in Hlt. by apply Hlt.
Qed.

Lemma chain_split3 (c : list node) (a v b : nat) :
  StronglySorted lt (idx <$> c) →
  a ∈ idx <$> c → v ∈ idx <$> c → b ∈ idx <$> c → a < v → v < b →
  ∃ pre na m1 nv m2 nb post,
    c = pre ++ na :: m1 ++ nv :: m2 ++ nb :: post ∧
    idx na = a ∧ idx nv = v ∧ idx nb = b.
Proof.
  intros Hs Ha Hv Hb Hav Hvb.
  destruct (chain_split2 c a v Hs Ha Hv Hav) as (pre & na & m1 & nv & post1 & -> & <- & <-).
  assert (idx <$> pre ++ na :: m1 ++ nv :: post1
          = idx <$> (pre ++ na :: m1) ++ nv :: post1) as E
    by (by rewrite <- app_assoc).
  rewrite E in Hs, Hb.
  destruct (sorted_split _ _ _ Hs) as (Fpre & _).
  rewrite fmap_app, fmap_cons in Hb.
  apply elem_of_app in Hb as [Hb|Hb].
  { apply list_elem_of_fmap in Hb as (nd & -> & Hnd).
    rewrite Forall_forall in Fpre. specialize (Fpre _ Hnd). lia. }
  apply elem_of_cons in Hb as [->|Hb]; [lia|].
  destruct (chain_split post1 b Hb) as (m2 & nb & post & -> & <-).
  by exists pre, na, m1, nv, m2, nb, post.
Qed.

Lemma Merge2GoodInt_sim (fuel : nat) (x : NumericVector) (p : D)
  (links : DoublyLinkedList) (c : list node) (a v b : nat) :
  repr x links c →
  a ∈ idx <$> c → v ∈ idx <$> c → b ∈ idx <$> c → a ≤ v → v ≤ b →
  outcome (length x < fuel) (Merge2GoodInt fuel x p links a v b)
    (λ links', repr x links' (merge2 x p c a v b)).
Proof.
  intros Hr Ha Hv Hb Hav Hvb. unfold Merge2GoodInt, merge2.
  destruct (decide (a = v ∨ v = b)) as [|Hne]; [done|].
  pose proof Hr as [Hp _]. pose proof Hp as (_ & _ & Hs & _).
  destruct (chain_split3 c a v b Hs Ha Hv Hb) as
    (pre & na & m1 & nv & m2 & nb & post & -> & <- & <- & <-); [lia..|].
  pose proof (prepr_length _ _ _ Hp) as Hlen.
  rewrite !length_app in Hlen. simpl in Hlen.
  rewrite !length_app in Hlen. simpl in Hlen.
  rewrite !length_app in Hlen. simpl in Hlen.
  rewrite rd_xval by (eapply prepr_elem_lt; done). simpl.
  unfold best_joint. rewrite (seg_sorted pre na m1 nv (m2 ++ nb :: post) Hs).
  assert (seg (idx nv) (idx nb) (pre ++ na :: m1 ++ nv :: m2 ++ nb :: post)
          = nv :: m2 ++ [nb]) as ->.
  { replace (pre ++ na :: m1 ++ nv :: m2 ++ nb :: post)
      with ((pre ++ na :: m1) ++ nv :: m2 ++ nb :: post)
      by (by rewrite <- app_assoc).
    apply seg_sorted. by rewrite <- app_assoc. }
  rewrite reverse_cons, reverse_app, reverse_singleton. simpl.
  fold (walk0 x (idx nv)).
  set (PA := λ i, i ∈ idx <$> na :: m1).
  set (PB := λ i, i ∈ idx <$> m2 ++ [nb]).
  assert (∀ i, PA i → i < length x) as HPA.
  { intros i (nd & -> & Hnd)%list_elem_of_fmap. eapply prepr_elem_lt; [done|].
    apply list_elem_of_fmap_2.
    change (na :: m1 ++ nv :: m2 ++ nb :: post)
      with ((na :: m1) ++ nv :: m2 ++ nb :: post).
    apply elem_of_app; right. apply elem_of_app; by left. }
  assert (∀ i, PB i → i < length x) as HPB.
  { intros i (nd & -> & Hnd)%list_elem_of_fmap. eapply prepr_elem_lt; [done|].
    apply list_elem_of_fmap_2.
    replace (pre ++ na :: m1 ++ nv :: m2 ++ nb :: post)
      with ((pre ++ na :: m1 ++ [nv]) ++ (m2 ++ [nb]) ++ post)
      by (by norm_app).
    apply elem_of_app; right. apply elem_of_app; by left. }
  assert (Forall (λ u, PA (idx u)) (reverse m1 ++ [na])) as HFA.
  { apply Forall_forall. intros u Hu. apply list_elem_of_fmap_2.
    rewrite elem_of_app, elem_of_reverse, list_elem_of_singleton in Hu.
    rewrite elem_of_cons. tauto. }
  assert (Forall (λ u, PB (idx u)) (m2 ++ [nb])) as HFB.
  { apply Forall_forall. intros u Hu. by apply list_elem_of_fmap_2. }
  (* the walk back *)
  pose proof (walk_back_sim fuel x links pre (reverse m1 ++ [na]) nv
                (m2 ++ nb :: post) (walk0 x (idx nv))) as Hwb.
  rewrite last_snoc, reverse_app, reverse_involutive in Hwb. simpl in Hwb.
  apply outcome_bind.
  eapply outcome_mono;
    [by apply Hwb|rewrite length_app, length_reverse; simpl; lia|].
  intros wa ->.
  (* the walk forth *)
  pose proof (walk_forth_sim fuel x links (pre ++ na :: m1) nv (m2 ++ [nb]) post
                (walk0 x (idx nv))) as Hwf.
  rewrite last_snoc in Hwf. simpl in Hwf.
  apply outcome_bind.
  eapply outcome_mono;
    [apply Hwf; [by norm_app|done]|rewrite length_app; simpl; lia|].
  intros wb ->.
  fold (walk0 x (idx nv)).
  destruct (back_walk_cands PA x nv (reverse m1 ++ [na]) (walk0 x (idx nv)))
    as [HAmin HAmax]; [done|done|].
  destruct (forth_walk_cands PB x (m2 ++ [nb]) (walk0 x (idx nv)))
    as [HBmin HBmax]; [done|done|].
  set (wa := back_walk x nv (reverse m1 ++ [na]) (walk0 x (idx nv))) in *.
  set (wb := forth_walk x (m2 ++ [nb]) (walk0 x (idx nv))) in *.
  (* the two searches *)
  set (s0 := mk_search dzero dzero None (w_maxs wb)).
  assert (search_inv PA PB s0) as Hs0 by (by split).
  destruct (scan_ait_sim x p (w_mins wa) s0) as [-> _].
  { eapply Forall_impl; [exact HAmin|]. simpl. auto. }
  { split; [|done]. eapply Forall_impl; [exact HBmax|]. simpl. auto. }
  simpl.
  pose proof (best_ait_inv PA PB x p _ _ HAmin Hs0) as Hs1.
  set (s1 := best_ait x p (w_mins wa) s0) in *.
  set (s1' := mk_search (maxbalance s1) (takefjoin s1) (tjoin s1) (w_mins wb)).
  assert (search_inv PA PB s1') as Hs1' by (split; [done|apply Hs1]).
  destruct (scan_ait_sim x p (w_maxs wa) s1') as [-> _].
  { eapply Forall_impl; [exact HAmax|]. simpl. auto. }
  { split; simpl.
    - eapply Forall_impl; [exact HBmin|]. simpl. auto.
    - destruct Hs1 as [_ Hj]. destruct (tjoin s1) as [[ta tb]|]; [|done].
      destruct Hj. auto. }
  simpl.
  pose proof (best_ait_inv PA PB x p _ _ HAmax Hs1') as [_ Hs2].
  set (s2 := best_ait x p (w_maxs wa) s1') in *.
  destruct (dlt dzero (maxbalance s2)) eqn:Hpos; [|done].
  destruct (tjoin s2) as [[ta tb]|]; [|simpl; congruence].
  destruct Hs2 as [Hta Htb].
  (* the joint: erase the nodes between its ends *)
  unfold PA in Hta. unfold PB in Htb. pose proof Hta as Hta'.
  destruct (chain_split _ _ Hta') as (A1 & l & A2 & EA & El).
  destruct (chain_split _ _ Htb) as (B1 & r & B2 & EB & Er).
  assert (pre ++ na :: m1 ++ nv :: m2 ++ nb :: post
          = (pre ++ A1) ++ l :: (A2 ++ nv :: B1) ++ r :: (B2 ++ post)) as Ec.
  { change (na :: m1 ++ nv :: m2 ++ nb :: post)
      with ((na :: m1) ++ nv :: m2 ++ nb :: post).
    replace (m2 ++ nb :: post) with ((m2 ++ [nb]) ++ post)
      by (by rewrite <- app_assoc).
    rewrite EA, EB. by rewrite <- !app_assoc. }
  rewrite Ec in *. rewrite <- El, <- Er.
  destruct (repr_excise x links _ _ _ _ _ (takefjoin s2) Hr)
    as (l1 & l2 & l3 & E1 & E2 & E3 & Hr3).
  rewrite E1. simpl. rewrite E2. simpl. rewrite E3. simpl.
  by rewrite excise_sorted.
Qed.
(** ** What a merge does to the chain *)

Lemma best_joint_inv (x : NumericVector) (p : D)
  (pre : list node) (na : node) (m1 : list node) (nv : node) (m2 : list node)
  (nb : node) (post : list node) :
  StronglySorted lt (idx <$> (pre ++ na :: m1 ++ nv :: m2 ++ nb :: post)) →
  search_inv (λ i, i ∈ idx <$> na :: m1) (λ i, i ∈ idx <$> m2 ++ [nb])
    (best_joint x p (pre ++ na :: m1 ++ nv :: m2 ++ nb :: post)
       (idx na) (idx nv) (idx nb)).
Proof.
  intros Hs. unfold best_joint.
  rewrite (seg_sorted pre na m1 nv (m2 ++ nb :: post) Hs).
  assert (seg (idx nv) (idx nb) (pre ++ na :: m1 ++ nv :: m2 ++ nb :: post)
          = nv :: m2 ++ [nb]) as ->.
  { replace (pre ++ na :: m1 ++ nv :: m2 ++ nb :: post)
      with ((pre ++ na :: m1) ++ nv :: m2 ++ nb :: post) by (by norm_app).
    apply seg_sorted. by norm_app. }
  rewrite reverse_cons, reverse_app, reverse_singleton. simpl.
  set (PA := λ i, i ∈ idx <$> na :: m1).
  set (PB := λ i, i ∈ idx <$> m2 ++ [nb]).
  assert (Forall (λ u, PA (idx u)) (reverse m1 ++ [na])) as HFA.
  { apply Forall_forall. intros u Hu. apply list_elem_of_fmap_2.
    rewrite elem_of_app, elem_of_reverse, list_elem_of_singleton in Hu.
    rewrite elem_of_cons. tauto. }
  assert (Forall (λ u, PB (idx u)) (m2 ++ [nb])) as HFB.
  { apply Forall_forall. intros u Hu. by apply list_elem_of_fmap_2. }
  destruct (back_walk_cands PA x nv (reverse m1 ++ [na]) (walk0 x (idx nv)))
    as [HAmin HAmax]; [done|done|].
  destruct (forth_walk_cands PB x (m2 ++ [nb]) (walk0 x (idx nv)))
    as [HBmin HBmax]; [done|done|].
  apply best_ait_inv; [done|].
  split; simpl; [done|].
  eapply (best_ait_inv PA PB); [done|]. by split.
Qed.

Lemma merge2_cases (x : NumericVector) (p : D) (c : list node) (a v b : nat) :
  StronglySorted lt (idx <$> c) →
  a ∈ idx <$> c → v ∈ idx <$> c → b ∈ idx <$> c → a < v → v < b →
  merge2 x p c a v b = c ∨
  ∃ pre l mid r post (s : search),
    c = pre ++ l :: mid ++ r :: post ∧
    a ≤ idx l ∧ idx l < v ∧ v < idx r ∧ idx r ≤ b ∧
    s = best_joint x p c a v b ∧ dlt dzero (maxbalance s) = true ∧
    (∃ ta tb, tjoin s = Some (ta, tb) ∧ it ta = idx l ∧ it tb = idx r) ∧
    merge2 x p c a v b = pre ++ l :: mk_node (idx r) (takefjoin s) :: post.
Proof.
  intros Hs Ha Hv Hb Hav Hvb. unfold merge2.
  rewrite decide_False by lia.
  destruct (chain_split3 c a v b Hs Ha Hv Hb) as
    (pre & na & m1 & nv & m2 & nb & post & -> & <- & <- & <-); [lia..|].
  pose proof (best_joint_inv x p _ _ _ _ _ _ _ Hs) as [_ Hj].
  set (s := best_joint x p _ _ _ _) in *.
  destruct (dlt dzero (maxbalance s)) eqn:Hpos; [|by left].
  destruct (tjoin s) as [[ta tb]|] eqn:Etj; [|by left].
  destruct Hj as [Hta Htb].
  destruct (chain_split _ _ Hta) as (A1 & l & A2 & EA & El).
  destruct (chain_split _ _ Htb) as (B1 & r & B2 & EB & Er).
  assert (pre ++ na :: m1 ++ nv :: m2 ++ nb :: post
          = (pre ++ A1) ++ l :: (A2 ++ nv :: B1) ++ r :: (B2 ++ post)) as Ec.
  { change (na :: m1 ++ nv :: m2 ++ nb :: post)
      with ((na :: m1) ++ nv :: m2 ++ nb :: post).
    replace (m2 ++ nb :: post) with ((m2 ++ [nb]) ++ post) by (by norm_app).
    rewrite EA, EB. by norm_app. }
  right. exists (pre ++ A1), l, (A2 ++ nv :: B1), r, (B2 ++ post), s.
  (* where the ends of the joint lie *)
  assert (idx na ≤ idx l ∧ idx l < idx nv ∧ idx nv < idx r ∧ idx r ≤ idx nb)
    as (? & ? & ? & ?).
  { destruct (sorted_split _ _ _ Hs) as (_ & F1 & _ & S1).
    apply Forall_app in F1 as [F1 [? _]%Forall_cons].
    destruct (sorted_split _ _ _ S1) as (F2 & F3 & _ & S3).
    apply Forall_app in F3 as [F3 [? _]%Forall_cons].
    destruct (sorted_split _ _ _ S3) as (F4 & _).
    rewrite Forall_forall in F1, F2, F3, F4.
    assert (l ∈ na :: m1) as Hl by (rewrite EA; apply elem_of_app; right; left).
    assert (r ∈ m2 ++ [nb]) as Hr' by (rewrite EB; apply elem_of_app; right; left).
    apply elem_of_cons in Hl as [->|Hl];
      apply elem_of_app in Hr' as [Hr'|Hr'%list_elem_of_singleton];
      try subst r;
      repeat match goal with
        | Hm : ?u ∈ m1 |- _ => pose proof (F1 _ Hm); pose proof (F2 _ Hm); clear Hm
        | Hm : ?u ∈ m2 |- _ => pose proof (F3 _ Hm); pose proof (F4 _ Hm); clear Hm
        end; lia. }
  split_and!; try done; try lia.
  - by exists ta, tb.
  - rewrite <- El, <- Er, Ec. apply excise_sorted. by rewrite <- Ec.
Qed.
Lemma sorted_sublist {A} (R : relation A) (l1 l2 : list A) :
  l1 `sublist_of` l2 → StronglySorted R l2 → StronglySorted R l1.
Proof.
  induction 1 as [|a l1 l2 Hsub IH|a l1 l2 Hsub IH]; intros Hs; [done|..];
    apply StronglySorted_cons in Hs as [HF Hs]; [|auto].
  apply StronglySorted_cons. split; [|auto].
  apply Forall_forall. intros y Hy. rewrite Forall_forall in HF.
  apply HF. by eapply elem_of_sublist.
Qed.

Lemma merge2_sublist (x : NumericVector) (p : D) (c : list node) (a v b : nat) :
  StronglySorted lt (idx <$> c) →
  a ∈ idx <$> c → v ∈ idx <$> c → b ∈ idx <$> c → a ≤ v → v ≤ b →
  idx <$> merge2 x p c a v b `sublist_of` idx <$> c.
Proof.
  intros Hs Ha Hv Hb Hav Hvb.
  destruct (decide (a = v ∨ v = b)) as [Heq|Hne].
  { unfold merge2. by rewrite decide_True. }
  destruct (merge2_cases x p c a v b Hs Ha Hv Hb) as
    [->|(pre & l & mid & r & post & s & -> & _ & _ & _ & _ & _ & _ & _ & ->)];
    [lia|lia|done|].
  rewrite !fmap_app, !fmap_cons, !fmap_app, !fmap_cons. simpl.
  apply sublist_app; [done|]. apply sublist_skip.
  apply sublist_inserts_l. done.
Qed.

Lemma merge2_keeps (x : NumericVector) (p : D) (c : list node) (a v b i : nat) :
  StronglySorted lt (idx <$> c) →
  a ∈ idx <$> c → v ∈ idx <$> c → b ∈ idx <$> c → a ≤ v → v ≤ b →
  i ∈ idx <$> c → i ≤ a ∨ b ≤ i → i ∈ idx <$> merge2 x p c a v b.
Proof.
  intros Hs Ha Hv Hb Hav Hvb Hi Hab.
  destruct (decide (a = v ∨ v = b)) as [Heq|Hne].
  { unfold merge2. by rewrite decide_True. }
  destruct (merge2_cases x p c a v b Hs Ha Hv Hb) as
    [->|(pre & l & mid & r & post & s & -> & ? & ? & ? & ? & _ & _ & _ & ->)];
    [lia|lia|done|].
  destruct (sorted_split _ _ _ Hs) as (_ & F1 & _ & S1).
  destruct (sorted_split _ _ _ S1) as (F2 & _).
  apply Forall_app in F1 as [F1 _].
  rewrite Forall_forall in F1, F2.
  apply list_elem_of_fmap in Hi as (nd & -> & Hnd).
  rewrite !elem_of_app, !elem_of_cons, !elem_of_app, !elem_of_cons in Hnd.
  destruct Hnd as [?|[->|[Hm|[->|?]]]].
  - apply list_elem_of_fmap_2. apply elem_of_app. by left.
  - apply list_elem_of_fmap_2. apply elem_of_app. right. left.
  - pose proof (F1 _ Hm). pose proof (F2 _ Hm). lia.
  - rewrite fmap_app, !fmap_cons. simpl.
    apply elem_of_app. right. right. left.
  - apply list_elem_of_fmap_2. apply elem_of_app. right. by do 2 right.
Qed.

(** The boundary list: indices of chain nodes, in order. *)
Definition bounds_ok (c : list node) (il : list nat) : Prop :=
  Forall (λ i, i ∈ idx <$> c) il ∧ StronglySorted le il.

Lemma pass_cons3 (x : NumericVector) (p : D) (c : list node) (a v b : nat)
  (rest : list nat) :
  pass x p c (a :: v :: b :: rest)
    = let '(c', tl') := pass x p (merge2 x p c a v b) (b :: rest) in (c', a :: tl').
Proof. done. Qed.

Lemma pass_spec (x : NumericVector) (p : D) (il : list nat) (c : list node) :
  StronglySorted lt (idx <$> c) → bounds_ok c il →
  StronglySorted lt (idx <$> (pass x p c il).1) ∧
  bounds_ok (pass x p c il).1 (pass x p c il).2 ∧
  (∀ i, i ∈ idx <$> c → Forall (le i) il → i ∈ idx <$> (pass x p c il).1) ∧
  (pass x p c il).2 `sublist_of` il ∧
  (2 < length il → length (pass x p c il).2 < length il) ∧
  idx <$> (pass x p c il).1 `sublist_of` idx <$> c ∧
  head (pass x p c il).2 = head il ∧
  last (pass x p c il).2 = last il.
Proof.
  remember (length il) as n eqn:Hn. revert il c Hn.
  induction n as [n IH] using lt_wf_ind. intros il c -> Hs [Hin Hle].
  destruct il as [|a [|v [|b rest]]]; try (simpl; split_and!; try done; lia).
  rewrite pass_cons3.
  apply Forall_cons in Hin as [Ha [Hv [Hb Hin]%Forall_cons]%Forall_cons].
  apply StronglySorted_cons in Hle as [Fa Hle].
  apply StronglySorted_cons in Hle as [Fv Hle].
  pose proof Fa as [Hav [Hab Fa']%Forall_cons]%Forall_cons.
  pose proof Fv as [Hvb Fv']%Forall_cons.
  pose proof Hle as [Fb _]%StronglySorted_cons.
  set (c1 := merge2 x p c a v b).
  assert (StronglySorted lt (idx <$> c1)) as Hs1.
  { eapply sorted_sublist; [|exact Hs]. by apply merge2_sublist. }
  assert (bounds_ok c1 (b :: rest)) as Hb1.
  { split; [|done]. apply Forall_cons. split.
    - apply merge2_keeps; try done. by right.
    - apply Forall_forall. intros i Hi. rewrite Forall_forall in Hin, Fb.
      apply merge2_keeps; try done; [by apply Hin|]. right. by apply Fb. }
  destruct (IH (length (b :: rest)) ltac:(simpl; lia) (b :: rest) c1 eq_refl Hs1 Hb1)
    as (Hs' & [Hin' Hle'] & Hkeep & Hsub & _ & Hsubc & Hhd & Hlast).
  fold c1. destruct (pass x p c1 (b :: rest)) as [c' tl'] eqn:Ep.
  cbn [fst snd] in *.
  split_and!.
  - done.
  - split.
    + apply Forall_cons. split; [|done].
      apply Hkeep; [apply merge2_keeps; try done; by left|].
      apply Forall_cons. split; [lia|done].
    + apply StronglySorted_cons. split; [|done].
      apply Forall_forall. intros i Hi.
      assert (i ∈ b :: rest) as Hi' by (by eapply elem_of_sublist).
      rewrite Forall_forall in Fa. apply Fa. by right.
  - intros i Hi Hall. apply Hkeep.
    + apply merge2_keeps; try done. left.
      by apply Forall_cons in Hall as [? _].
    + by apply Forall_cons in Hall as [_ [_ ?]%Forall_cons].
  - apply sublist_skip. by apply sublist_cons.
  - intros _. apply sublist_length in Hsub. simpl in *. lia.
  - etrans; [exact Hsubc|]. by apply merge2_sublist.
  - done.
  - destruct tl' as [|t tl']; [done|].
    rewrite last_cons_cons, Hlast. done.
Qed.
Lemma merge2_bounds (x : NumericVector) (p : D) (c : list node) (a v b : nat)
  (rest : list nat) :
  StronglySorted lt (idx <$> c) → bounds_ok c (a :: v :: b :: rest) →
  a ∈ idx <$> c ∧ v ∈ idx <$> c ∧ b ∈ idx <$> c ∧ a ≤ v ∧ v ≤ b ∧
  StronglySorted lt (idx <$> merge2 x p c a v b) ∧
  bounds_ok (merge2 x p c a v b) (b :: rest).
Proof.
  intros Hs [Hin Hle].
  apply Forall_cons in Hin as [Ha [Hv [Hb Hin]%Forall_cons]%Forall_cons].
  apply StronglySorted_cons in Hle as [Fa Hle].
  apply StronglySorted_cons in Hle as [Fv Hle].
  pose proof Fa as [Hav [Hab Fa']%Forall_cons]%Forall_cons.
  pose proof Fv as [Hvb Fv']%Forall_cons.
  pose proof Hle as [Fb _]%StronglySorted_cons.
  split_and!; try done.
  - eapply sorted_sublist; [|exact Hs]. by apply merge2_sublist.
  - split; [|done]. apply Forall_cons. split.
    + apply merge2_keeps; try done. by right.
    + apply Forall_forall. intros i Hi. rewrite Forall_forall in Hin, Fb.
      apply merge2_keeps; try done; [by apply Hin|]. right. by apply Fb.
Qed.

Lemma merge_pass_cons3 (fuel : nat) (x : NumericVector) (p : D)
  (links : DoublyLinkedList) (a v b : nat) (rest : list nat) :
  merge_pass fuel x p links (a :: v :: b :: rest)
    = links ← Merge2GoodInt fuel x p links a v b;
      '(links, tl') ← merge_pass fuel x p links (b :: rest);
      Ok (links, a :: tl').
Proof. done. Qed.

Lemma merge_pass_sim (fuel : nat) (x : NumericVector) (p : D) (il : list nat)
  (links : DoublyLinkedList) (c : list node) :
  repr x links c → bounds_ok c il →
  outcome (length x < fuel) (merge_pass fuel x p links il)
    (λ r, r.2 = (pass x p c il).2 ∧ repr x r.1 (pass x p c il).1).
Proof.
  remember (length il) as n eqn:Hn. revert il links c Hn.
  induction n as [n IH] using lt_wf_ind. intros il links c -> Hr Hb.
  destruct il as [|a [|v [|b rest]]]; try done.
  rewrite merge_pass_cons3, pass_cons3.
  pose proof Hr as [(_ & _ & Hs & _) _].
  destruct (merge2_bounds x p c a v b rest Hs Hb) as (? & ? & ? & ? & ? & Hs1 & Hb1).
  apply outcome_bind.
  eapply outcome_mono; [by apply (Merge2GoodInt_sim fuel x p links c a v b)|done|].
  intros links1 Hr1. apply outcome_bind.
  eapply outcome_mono;
    [by apply (IH (length (b :: rest)) ltac:(simpl; lia) (b :: rest) links1 _ eq_refl Hr1)
    |done|].
  intros [links2 tl'] [E Hr2].
  destruct (pass x p (merge2 x p c a v b) (b :: rest)) as [c' tl'']. simpl in *.
  by subst.
Qed.

Lemma rounds_enough (x : NumericVector) (p : D) (k k' : nat) (il : list nat)
  (c : list node) :
  StronglySorted lt (idx <$> c) → bounds_ok c il →
  length il ≤ k → length il ≤ k' → rounds k x p c il = rounds k' x p c il.
Proof.
  revert k' il c. induction k as [|k IH]; intros k' il c Hs Hb Hk Hk'.
  { destruct il; [|simpl in Hk; lia]. by destruct k'. }
  destruct k' as [|k'].
  { destruct il; [|simpl in Hk'; lia]. done. }
  simpl. case_decide as Hlen; [|done].
  destruct (pass_spec x p il c Hs Hb) as (Hs' & Hb' & _ & _ & Hlt & _).
  specialize (Hlt Hlen).
  destruct (pass x p c il) as [c' il']. simpl in *.
  apply IH; [done|done|lia|lia].
Qed.

Lemma merge_rounds_sim (f fuel : nat) (x : NumericVector) (p : D) (il : list nat)
  (links : DoublyLinkedList) (c : list node) :
  repr x links c → bounds_ok c il →
  outcome (length il < f ∧ length x < fuel) (merge_rounds f fuel x p links il)
    (λ links', repr x links' (rounds (length il) x p c il)).
Proof.
  revert il links c. induction f as [|f IH]; intros il links c Hr Hb; simpl; [lia|].
  pose proof Hr as [(_ & _ & Hs & _) _].
  destruct (decide (2 < length il)) as [Hlen|Hlen].
  - destruct (pass_spec x p il c Hs Hb) as (Hs' & Hb' & _ & _ & Hlt & _).
    specialize (Hlt Hlen).
    apply outcome_bind.
    eapply outcome_mono; [by apply (merge_pass_sim fuel x p il links c)|tauto|].
    intros [links1 il1] [E Hr1]. simpl in *. subst il1.
    eapply outcome_mono; [by apply (IH _ links1 _ Hr1)|lia|].
    intros links2 Hr2.
    destruct (length il) as [|m] eqn:Em; [lia|]. simpl.
    rewrite decide_True by lia.
    destruct (pass x p c il) as [c' il']. simpl in *.
    by rewrite (rounds_enough x p m (length il')) by (done || lia).
  - simpl. destruct (length il) as [|m] eqn:Em; simpl; [done|].
    by rewrite decide_False by lia.
Qed.
(** ** Walking the whole chain *)

Lemma repr_cursor (x : NumericVector) (links : DoublyLinkedList)
  (pre : list node) (nd : node) (rest : list node) :
  repr x links (pre ++ nd :: rest) →
  idx nd < length x ∧ get_pvdiff links (idx nd) = Ok (wt nd) ∧
  get_next links (idx nd) = Ok (cursor x rest).
Proof.
  intros Hr. pose proof Hr as [Hp _]. destruct rest as [|nd' rest].
  - chain_facts Hp. destruct (repr_last _ _ _ _ Hr) as [_ ?]. done.
  - chain_facts Hp. done.
Qed.

Lemma collect_sim (fuel : nat) (x : NumericVector) (links : DoublyLinkedList)
  (LSI : nat) (pre rest : list node) (count : nat) (acc : list nat) :
  repr x links (pre ++ rest) →
  outcome (length rest < fuel)
    (collect fuel (length x) LSI links (cursor x rest) count acc)
    (λ il, il = acc ++ boundaries LSI rest count).
Proof.
  revert fuel pre count acc.
  induction rest as [|nd rest IH]; intros fuel pre count acc Hr.
  - destruct fuel; simpl; [lia|]. rewrite decide_False by lia.
    simpl. by rewrite app_nil_r.
  - destruct fuel; simpl; [lia|].
    destruct (repr_cursor _ _ _ _ _ Hr) as (Hlt & _ & Hn).
    rewrite decide_True by done. rewrite Hn. simpl.
    eapply outcome_mono; [apply (IH fuel (pre ++ [nd])); by norm_app|lia|].
    intros il ->. simpl. by destruct (decide _); norm_app.
Qed.

Lemma accumulate_sim (fuel : nat) (x : NumericVector) (links : DoublyLinkedList)
  (pre rest : list node) (pvalue : D) :
  repr x links (pre ++ rest) →
  outcome (length rest < fuel)
    (accumulate fuel (length x) links (cursor x rest) pvalue)
    (λ v, v = foldl (λ acc nd, dadd acc (wt nd)) pvalue rest).
Proof.
  revert fuel pre pvalue.
  induction rest as [|nd rest IH]; intros fuel pre pvalue Hr.
  - destruct fuel; simpl; [lia|]. by rewrite decide_False by lia.
  - destruct fuel; simpl; [lia|].
    destruct (repr_cursor _ _ _ _ _ Hr) as (Hlt & Hw & Hn).
    rewrite decide_True by done. rewrite Hw. simpl. rewrite Hn. simpl.
    eapply outcome_mono; [apply (IH fuel (pre ++ [nd])); by norm_app|lia|done].
Qed.

Lemma boundaries_sublist (LSI : nat) (c : list node) (count : nat) :
  boundaries LSI c count `sublist_of` idx <$> c.
Proof.
  revert count. induction c as [|nd c IH]; intros count; [done|].
  simpl. destruct (decide _); simpl.
  - by apply sublist_skip.
  - by apply sublist_cons.
Qed.

Lemma boundaries_ok (x : NumericVector) (links : DoublyLinkedList) (LSI : nat)
  (c : list node) :
  repr x links c → bounds_ok c (boundaries LSI c 0 ++ [length x - 1]).
Proof.
  intros [(_ & _ & Hs & _) Hlast].
  pose proof (boundaries_sublist LSI c 0) as Hsub.
  assert (length x - 1 ∈ idx <$> c) as Hl.
  { apply last_Some in Hlast as [l' ->]. apply elem_of_app. right. left. }
  assert (∀ i, i ∈ idx <$> c → i ≤ length x - 1) as Hmax.
  { intros i Hi. apply last_Some in Hlast as [l' E]. rewrite E in Hs, Hi.
    apply StronglySorted_app in Hs as (Hx & _).
    apply elem_of_app in Hi as [Hi|Hi%list_elem_of_singleton]; [|lia].
    specialize (Hx i (length x - 1) Hi ltac:(left)). lia. }
  split.
  - apply Forall_app. split; [|by apply Forall_singleton].
    apply Forall_forall. intros i Hi. by eapply elem_of_sublist.
  - apply StronglySorted_app. split_and!.
    + intros i j Hi ->%list_elem_of_singleton.
      apply Hmax. by eapply elem_of_sublist.
    + eapply sorted_sublist in Hs; [|exact Hsub].
      clear -Hs. induction Hs as [|a l _ IH Ha]; constructor; [done|].
      eapply Forall_impl; [exact Ha|]. simpl. lia.
    + repeat constructor.
Qed.

Lemma MergeIntervalsRecursively_sim (fuel : nat) (x : NumericVector) (p : D)
  (LSI : nat) (links : DoublyLinkedList) (c : list node) :
  repr x links c →
  outcome (length x + 1 < fuel) (MergeIntervalsRecursively fuel x links p LSI)
    (λ links', repr x links' (merged_chain x p LSI c)).
Proof.
  intros Hr. unfold MergeIntervalsRecursively, merged_chain.
  pose proof Hr as [Hp _]. pose proof (prepr_length _ _ _ Hp) as Hlen.
  pose proof Hp as (_ & [post ->] & _).
  apply outcome_bind.
  eapply outcome_mono; [apply (collect_sim fuel x links LSI [] (mk_node 0 dzero :: post) 0 []); done|lia|].
  intros il ->. simpl "++".
  pose proof (boundaries_ok x links LSI _ Hr) as Hb. simpl in Hb.
  eapply outcome_mono; [by apply merge_rounds_sim| |done].
  intros Hf. split; [|lia].
  rewrite length_app. simpl.
  pose proof (sublist_length _ _ (boundaries_sublist LSI post (0 + 1))) as Hl.
  rewrite length_fmap in Hl. destruct (decide _); simpl in *; lia.
Qed.

Lemma res_bind_Ok {A B} (a : A) (f : A → res B) : (Ok a ≫= f) = f a.
Proof. done. Qed.

Lemma pvar_sim (fuel : nat) (x : NumericVector) (p : D) :
  3 ≤ length x →
  outcome (3 * length x < fuel) (pvar fuel x p)
    (λ v, v = chain_sum (final_chain x p)).
Proof.
  intros Hn. unfold pvar. rewrite decide_False by lia.
  destruct (DetectLocalExtrema_sim x p
              (replicate (length x) (mk_pointdata 0 0 dzero)))
    as (links1 & -> & Hr1); [lia|by rewrite length_replicate| |].
  { apply Forall_replicate. split; simpl; lia. }
  rewrite res_bind_Ok. apply outcome_bind.
  pose proof Hr1 as [Hp1 _]. pose proof (prepr_length _ _ _ Hp1).
  eapply outcome_mono; [by apply CheckShortIntervals_sim|lia|].
  intros links2 Hr2. apply outcome_bind.
  eapply outcome_mono;
    [apply (MergeIntervalsRecursively_sim fuel x p 4 links2 _ Hr2)|lia|].
  intros links3 Hr3. fold (final_chain x p) in Hr3.
  pose proof Hr3 as [Hp3 _]. pose proof (prepr_length _ _ _ Hp3).
  pose proof Hp3 as (_ & [post E] & _).
  pose proof (accumulate_sim fuel x links3 [] (final_chain x p) dzero Hr3) as Ha.
  rewrite E in Ha at 2. simpl in Ha.
  eapply outcome_mono; [exact Ha|lia|done].
Qed.

(** * The loops, with the state they end in

    The scan of [CheckShortIntervals], the merging loop of
    [MergeIntervalsRecursively] and the closing walk of [pvar] once more,
    each returning, beside its result, the loop variables at the point where
    it leaves: the window of the scan, the boundary list, the index of the
    walk. *)

(** [csi_extend], with the window at the early [return] ([inl]): [int_end]
    has just been assigned and the running sum is not updated. *)
Definition csi_extend_end (n : nat) (links : DoublyLinkedList) (w : window)
  : res (window + window) :=
  e ← get_next links (int_end w);
  if decide (e = n) then Ok (inl (mk_window (int_begin w) e (csum w)))
  else d ← get_pvdiff links e;
       Ok (inr (mk_window (int_begin w) e (dadd (csum w) d))).

Fixpoint csi_open_end (dcount : nat) (n : nat) (links : DoublyLinkedList) (w : window)
  : res (window + window) :=
  match dcount with
  | 0 => Ok (inr w)
  | S k =>
      r ← csi_extend_end n links w;
      match r with
      | inl we => Ok (inl we)
      | inr w' => csi_open_end k n links w'
      end
  end.

Fixpoint csi_backtrack_end (dcount : nat) (n : nat) (links : DoublyLinkedList)
  (w : window) : res (window + window) :=
  match dcount with
  | 0 => Ok (inr w)
  | S k =>
      if decide (0 < int_begin w) then
        d ← get_pvdiff links (int_begin w);
        b ← get_prev links (int_begin w);
        csi_backtrack_end k n links (mk_window b (int_end w) (dadd (csum w) d))
      else
        r ← csi_extend_end n links w;
        match r with
        | inl we => Ok (inl we)
        | inr w' => csi_backtrack_end k n links w'
        end
  end.

Definition csi_step_end (x : NumericVector) (p : D) (links : DoublyLinkedList)
  (w : window) : res (DoublyLinkedList * (window + window)) :=
  let n := length x in
  xb ← rd x (int_begin w);
  xe ← rd x (int_end w);
  let fjoinval := pvar_diff (dsub xb xe) p in
  if dle fjoinval (csum w) then
    e ← get_next links (int_end w);
    if decide (e = n) then Ok (links, inl (mk_window (int_begin w) e (csum w)))
    else
      b ← get_next links (int_begin w);
      db ← get_pvdiff links b;
      de ← get_pvdiff links e;
      Ok (links, inr (mk_window b e (dadd (dsub (csum w) db) de)))
  else
    links ← set_next links (int_begin w) (int_end w);
    links ← set_prev links (int_end w) (int_begin w);
    links ← set_pvdiff links (int_end w) fjoinval;
    r ← csi_backtrack_end 3 n links (mk_window (int_end w) (int_end w) dzero);
    Ok (links, r).

Fixpoint csi_loop_end (fuel : nat) (x : NumericVector) (p : D)
  (links : DoublyLinkedList) (w : window) : res (DoublyLinkedList * window) :=
  match fuel with
  | 0 => OutOfFuel
  | S f =>
      '(links', r) ← csi_step_end x p links w;
      match r with
      | inl we => Ok (links', we)
      | inr w' => csi_loop_end f x p links' w'
      end
  end.

Definition CheckShortIntervals_end (fuel : nat) (x : NumericVector)
  (links : DoublyLinkedList) (p : D) : res (DoublyLinkedList * window) :=
  r ← csi_open_end 3 (length x) links (mk_window 0 0 dzero);
  match r with
  | inl we => Ok (links, we)
  | inr w => csi_loop_end fuel x p links w
  end.

(** [while (IterList.size() > 2)], with the list it leaves. *)
Fixpoint merge_rounds_end (fuel : nat) (fuel2 : nat) (x : NumericVector) (p : D)
  (links : DoublyLinkedList) (il : list nat)
  : res (DoublyLinkedList * list nat) :=
  match fuel with
  | 0 => OutOfFuel
  | S f =>
      if decide (2 < length il) then
        '(links, il') ← merge_pass fuel2 x p links il;
        merge_rounds_end f fuel2 x p links il'
      else Ok (links, il)
  end.

(** [while (i < x.size())], with the index it leaves. *)
Fixpoint accumulate_end (fuel : nat) (n : nat) (links : DoublyLinkedList)
  (i : nat) (pvalue : D) : res (nat * D) :=
  match fuel with
  | 0 => OutOfFuel
  | S f =>
      if decide (i < n) then
        d ← get_pvdiff links i;
        nx ← get_next links i;
        accumulate_end f n links nx (dadd pvalue d)
      else Ok (i, pvalue)
  end.

(** What the loop goes on with. *)
Definition continuing (r : window + window) : option window :=
  match r with inl _ => None | inr w => Some w end.

(** ** The loops are the same loops *)

Lemma csi_extend_end_same (n : nat) (links : DoublyLinkedList) (w : window) :
  csi_extend n links w = continuing <$> csi_extend_end n links w.
Proof.
  unfold csi_extend, csi_extend_end.
  destruct (get_next links (int_end w)) as [e| | |]; simpl; try done.
  case_decide; [done|].
  by destruct (get_pvdiff links e).
Qed.

Lemma csi_open_end_same (dcount n : nat) (links : DoublyLinkedList) (w : window) :
  csi_open dcount n links w = continuing <$> csi_open_end dcount n links w.
Proof.
  revert w. induction dcount as [|k IH]; intros w; [done|].
  cbn [csi_open csi_open_end]. rewrite csi_extend_end_same.
  destruct (csi_extend_end n links w) as [[we|w']| | |]; simpl; try done.
  all: apply IH.
Qed.

Lemma csi_backtrack_end_same (dcount n : nat) (links : DoublyLinkedList)
  (w : window) :
  csi_backtrack dcount n links w = continuing <$> csi_backtrack_end dcount n links w.
Proof.
  revert w. induction dcount as [|k IH]; intros w; [done|].
  cbn [csi_backtrack csi_backtrack_end]. case_decide.
  - destruct (get_pvdiff links (int_begin w)) as [d| | |]; simpl; try done.
    destruct (get_prev links (int_begin w)) as [b| | |]; simpl; try done.
    all: apply IH.
  - rewrite csi_extend_end_same.
    destruct (csi_extend_end n links w) as [[we|w']| | |]; simpl; try done.
    all: apply IH.
Qed.

Lemma csi_step_end_same (x : NumericVector) (p : D) (links : DoublyLinkedList)
  (w : window) :
  csi_step x p links w
  = (λ r, (r.1, continuing r.2)) <$> csi_step_end x p links w.
Proof.
  unfold csi_step, csi_step_end.
  destruct (rd x (int_begin w)) as [xb| | |]; cbn -[csi_backtrack csi_backtrack_end]; try done.
  destruct (rd x (int_end w)) as [xe| | |]; cbn -[csi_backtrack csi_backtrack_end]; try done.
  destruct (dle _ _).
  - destruct (get_next links (int_end w)) as [e| | |]; cbn -[csi_backtrack csi_backtrack_end]; try done.
    case_decide; [done|].
    destruct (get_next links (int_begin w)) as [b| | |]; cbn -[csi_backtrack csi_backtrack_end]; try done.
    destruct (get_pvdiff links b) as [db| | |]; cbn -[csi_backtrack csi_backtrack_end]; try done.
    by destruct (get_pvdiff links e).
  - destruct (set_next links _ _) as [l1| | |];
      cbn -[csi_backtrack csi_backtrack_end]; try done.
    destruct (set_prev l1 _ _) as [l2| | |];
      cbn -[csi_backtrack csi_backtrack_end]; try done.
    destruct (set_pvdiff l2 _ _) as [l3| | |];
      cbn -[csi_backtrack csi_backtrack_end]; try done.
    rewrite csi_backtrack_end_same.
    by destruct (csi_backtrack_end 3 (length x) l3 _).
Qed.

Lemma csi_loop_end_same (fuel : nat) (x : NumericVector) (p : D)
  (links : DoublyLinkedList) (w : window) :
  csi_loop fuel x p links w = fst <$> csi_loop_end fuel x p links w.
Proof.
  revert links w. induction fuel as [|f IH]; intros links w; [done|].
  cbn [csi_loop csi_loop_end]. rewrite csi_step_end_same.
  destruct (csi_step_end x p links w) as [[l' [we|w']]| | |]; simpl; try done.
  all: apply IH.
Qed.

Lemma CheckShortIntervals_end_same (fuel : nat) (x : NumericVector)
  (links : DoublyLinkedList) (p : D) :
  CheckShortIntervals fuel x links p = fst <$> CheckShortIntervals_end fuel x links p.
Proof.
  unfold CheckShortIntervals, CheckShortIntervals_end.
  rewrite csi_open_end_same.
  destruct (csi_open_end 3 (length x) links _) as [[we|w']| | |]; simpl; try done.
  all: apply csi_loop_end_same.
Qed.

Lemma merge_rounds_end_same (f fuel : nat) (x : NumericVector) (p : D)
  (links : DoublyLinkedList) (il : list nat) :
  merge_rounds f fuel x p links il = fst <$> merge_rounds_end f fuel x p links il.
Proof.
  revert links il. induction f as [|f IH]; intros links il; [done|].
  cbn [merge_rounds merge_rounds_end]. case_decide; [|done].
  destruct (merge_pass fuel x p links il) as [[l' il']| | |]; simpl; try done.
  all: apply IH.
Qed.

Lemma accumulate_end_same (fuel n : nat) (links : DoublyLinkedList) (i : nat)
  (pvalue : D) :
  accumulate fuel n links i pvalue = snd <$> accumulate_end fuel n links i pvalue.
Proof.
  revert i pvalue. induction fuel as [|f IH]; intros i pvalue; [done|].
  cbn [accumulate accumulate_end]. case_decide; [|done].
  destruct (get_pvdiff links i) as [d| | |]; simpl; try done.
  destruct (get_next links i) as [nx| | |]; simpl; try done.
  all: apply IH.
Qed.

Lemma fmap_Ok_inv {A B} (f : A → B) (r : res A) (b : B) :
  f <$> r = Ok b → ∃ a, r = Ok a ∧ f a = b.
Proof. destruct r; simpl; [|done..]. intros [= <-]. eauto. Qed.

(** ** Where the scan leaves *)

Lemma csi_extend_end_sentinel (n : nat) (links : DoublyLinkedList) (w we : window) :
  csi_extend_end n links w = Ok (inl we) → int_end we = n.
Proof.
  unfold csi_extend_end.
  destruct (get_next links (int_end w)) as [e| | |]; simpl; try done.
  case_decide; [by intros [= <-]|].
  by destruct (get_pvdiff links e).
Qed.

Lemma csi_open_end_sentinel (dcount n : nat) (links : DoublyLinkedList)
  (w we : window) :
  csi_open_end dcount n links w = Ok (inl we) → int_end we = n.
Proof.
  revert w. induction dcount as [|k IH]; intros w; [done|].
  cbn [csi_open_end].
  destruct (csi_extend_end n links w) as [[we'|w']| | |] eqn:Ex; simpl; try done.
  - intros [= <-]. by eapply csi_extend_end_sentinel.
  - apply IH.
Qed.

Lemma csi_backtrack_end_sentinel (dcount n : nat) (links : DoublyLinkedList)
  (w we : window) :
  csi_backtrack_end dcount n links w = Ok (inl we) → int_end we = n.
Proof.
  revert w. induction dcount as [|k IH]; intros w; [done|].
  cbn [csi_backtrack_end]. case_decide.
  - destruct (get_pvdiff links (int_begin w)) as [d| | |]; simpl; try done.
    destruct (get_prev links (int_begin w)) as [b| | |]; simpl; try done.
    all: apply IH.
  - destruct (csi_extend_end n links w) as [[we'|w']| | |] eqn:Ex; simpl; try done.
    + intros [= <-]. by eapply csi_extend_end_sentinel.
    + apply IH.
Qed.

Lemma csi_step_end_sentinel (x : NumericVector) (p : D)
  (links links' : DoublyLinkedList) (w we : window) :
  csi_step_end x p links w = Ok (links', inl we) → int_end we = length x.
Proof.
  unfold csi_step_end.
  destruct (rd x (int_begin w)) as [xb| | |]; cbn -[csi_backtrack csi_backtrack_end]; try done.
  destruct (rd x (int_end w)) as [xe| | |]; cbn -[csi_backtrack csi_backtrack_end]; try done.
  destruct (dle _ _).
  - destruct (get_next links (int_end w)) as [e| | |]; cbn -[csi_backtrack csi_backtrack_end]; try done.
    case_decide; [by intros [= <- <-]|].
    destruct (get_next links (int_begin w)) as [b| | |]; cbn -[csi_backtrack csi_backtrack_end]; try done.
    destruct (get_pvdiff links b) as [db| | |]; cbn -[csi_backtrack csi_backtrack_end]; try done.
    by destruct (get_pvdiff links e).
  - destruct (set_next links _ _) as [l1| | |];
      cbn -[csi_backtrack csi_backtrack_end]; try done.
    destruct (set_prev l1 _ _) as [l2| | |];
      cbn -[csi_backtrack csi_backtrack_end]; try done.
    destruct (set_pvdiff l2 _ _) as [l3| | |];
      cbn -[csi_backtrack csi_backtrack_end]; try done.
    destruct (csi_backtrack_end 3 (length x) l3 _) as [r| | |] eqn:Eb;
      cbn -[csi_backtrack csi_backtrack_end]; try done.
    intros [= <- ->]. by eapply csi_backtrack_end_sentinel.
Qed.

Lemma csi_loop_end_sentinel (fuel : nat) (x : NumericVector) (p : D)
  (links links' : DoublyLinkedList) (w we : window) :
  csi_loop_end fuel x p links w = Ok (links', we) → int_end we = length x.
Proof.
  revert links w. induction fuel as [|f IH]; intros links w; [done|].
  cbn [csi_loop_end].
  destruct (csi_step_end x p links w) as [[l1 [we'|w']]| | |] eqn:Es;
    simpl; try done.
  - intros [= <- <-]. by eapply csi_step_end_sentinel.
  - apply IH.
Qed.

(** The scan leaves with its forward boundary at the sentinel. *)
Lemma CheckShortIntervals_end_sentinel (fuel : nat) (x : NumericVector)
  (links links' : DoublyLinkedList) (p : D) (we : window) :
  CheckShortIntervals_end fuel x links p = Ok (links', we) →
  int_end we = length x.
Proof.
  unfold CheckShortIntervals_end.
  destruct (csi_open_end 3 (length x) links _) as [[we'|w']| | |] eqn:Eo;
    simpl; try done.
  - intros [= <- <-]. by eapply csi_open_end_sentinel.
  - apply csi_loop_end_sentinel.
Qed.

(** ** Where the merging loop leaves *)

Lemma pass_nonempty (x : NumericVector) (p : D) (c : list node) (il : list nat) :
  il ≠ [] → (pass x p c il).2 ≠ [].
Proof.
  destruct il as [|a [|v [|b rest]]]; try done. intros _.
  rewrite pass_cons3. by destruct (pass _ _ _ _).
Qed.

Lemma merge_rounds_end_sim (f fuel : nat) (x : NumericVector) (p : D)
  (il : list nat) (links : DoublyLinkedList) (c : list node) :
  repr x links c → bounds_ok c il → 2 ≤ length il →
  outcome (length il < f ∧ length x < fuel) (merge_rounds_end f fuel x p links il)
    (λ r, length r.2 = 2 ∧ head r.2 = head il ∧ last r.2 = last il).
Proof.
  revert il links c. induction f as [|f IH]; intros il links c Hr Hb Hlen2;
    simpl; [lia|].
  pose proof Hr as [(_ & _ & Hs & _) _].
  destruct (decide (2 < length il)) as [Hlen|Hlen]; [|simpl; split; [lia|done]].
  destruct (pass_spec x p il c Hs Hb) as (Hs' & Hb' & _ & _ & Hlt & _ & Hh & Hl).
  specialize (Hlt Hlen).
  apply outcome_bind.
  eapply outcome_mono; [by apply (merge_pass_sim fuel x p il links c)|tauto|].
  intros [links1 il1] [Eil Hr1]. simpl in *. subst il1.
  assert (2 ≤ length (pass x p c il).2) as Hge.
  { destruct il as [|a [|v [|b rest]]]; simpl in Hlen; try lia.
    rewrite pass_cons3.
    pose proof (pass_nonempty x p (merge2 x p c a v b) (b :: rest) ltac:(done)) as Hne.
    destruct (pass x p (merge2 x p c a v b) (b :: rest)) as [c' tl'] eqn:Ep.
    simpl in *. destruct tl' as [|t tl']; [done|simpl; lia]. }
  eapply outcome_mono; [by apply (IH _ links1 _ Hr1)|lia|].
  intros [links2 il2] (? & ? & ?). simpl in *. split_and!; congruence.
Qed.

(** ** Where the closing walk leaves *)

Lemma accumulate_end_sim (fuel : nat) (x : NumericVector) (links : DoublyLinkedList)
  (pre rest : list node) (pvalue : D) :
  repr x links (pre ++ rest) →
  outcome (length rest < fuel)
    (accumulate_end fuel (length x) links (cursor x rest) pvalue)
    (λ r, r = (length x, foldl (λ acc nd, dadd acc (wt nd)) pvalue rest)).
Proof.
  revert fuel pre pvalue.
  induction rest as [|nd rest IH]; intros fuel pre pvalue Hr.
  - destruct fuel; simpl; [lia|]. by rewrite decide_False by lia.
  - destruct fuel; simpl; [lia|].
    destruct (repr_cursor _ _ _ _ _ Hr) as (Hlt & Hw & Hn).
    rewrite decide_True by done. rewrite Hw. simpl. rewrite Hn. simpl.
    eapply outcome_mono; [apply (IH fuel (pre ++ [nd])); by norm_app|lia|done].
Qed.

(** * The value computed *)

Section Exact.
Context {E : ExactOps D}.

(** ** Comparisons and the power, on the reals *)

Lemma dlt_false (a b : D) : dlt a b = false ↔ (val b <= val a)%R.
Proof.
  pose proof (val_lt a b) as Hlt. destruct (dlt a b).
  - split; [done|]. intros ?. assert (val a < val b)%R by tauto. lra.
  - split; [|done]. intros _. destruct (Rle_or_lt (val b) (val a)); [done|].
    assert (false = true) by tauto. done.
Qed.

Lemma dle_false (a b : D) : dle a b = false ↔ (val b < val a)%R.
Proof.
  pose proof (val_le a b) as Hle. destruct (dle a b).
  - split; [done|]. intros ?. assert (val a <= val b)%R by tauto. lra.
  - split; [|done]. intros _. destruct (Rle_or_lt (val a) (val b)); [|done].
    assert (false = true) by tauto. done.
Qed.

Lemma val_fjoin (x : NumericVector) {p : D} (P : PowerLaw p) (i j : nat) :
  val (fjoin x p i j) = jump x P i j.
Proof.
  unfold fjoin, pvar_diff, jump, xr.
  rewrite (phi_pow P); rewrite val_abs, val_sub; [done|]. apply Rabs_pos.
Qed.

Lemma phi_nonneg {p : D} (P : PowerLaw p) (t : R) : (0 <= t)%R → (0 <= phi P t)%R.
Proof. intros Ht. rewrite <- (phi_0 P). apply (phi_mono P); lra. Qed.

(** Splitting a step never pays. *)
Lemma phi_super {p : D} (P : PowerLaw p) (s c : R) :
  (0 <= s)%R → (0 <= c)%R → (phi P s + phi P c <= phi P (s + c))%R.
Proof.
  intros Hs Hc. pose proof (phi_convex P 0 s c ltac:(lra) Hs Hc) as Hk.
  rewrite Rplus_0_l, (phi_0 P) in Hk. lra.
Qed.

(** The same step is worth more further out. *)
Lemma phi_shift {p : D} (P : PowerLaw p) (a b c d : R) :
  (0 <= a)%R → (a <= c)%R → (a <= b)%R → (d = c + (b - a))%R →
  (phi P b - phi P a <= phi P d - phi P c)%R.
Proof.
  intros Ha Hac Hab ->.
  pose proof (phi_convex P a c (b - a) Ha Hac ltac:(lra)) as Hk.
  by replace (a + (b - a))%R with b in Hk by lra.
Qed.

Lemma jump_nonneg (x : NumericVector) {p : D} (P : PowerLaw p) (i j : nat) :
  (0 <= jump x P i j)%R.
Proof. apply phi_nonneg, Rabs_pos. Qed.

Lemma jump_sym (x : NumericVector) {p : D} (P : PowerLaw p) (i j : nat) :
  jump x P i j = jump x P j i.
Proof. unfold jump. by rewrite Rabs_minus_sym. Qed.

Lemma jump_self (x : NumericVector) {p : D} (P : PowerLaw p) (i : nat) :
  jump x P i i = 0%R.
Proof. unfold jump. rewrite Rminus_diag, Rabs_R0. apply phi_0. Qed.

Lemma jump_up (x : NumericVector) {p : D} (P : PowerLaw p) (i j : nat) :
  (xr x i <= xr x j)%R → jump x P i j = phi P (xr x j - xr x i).
Proof. intros Hle. unfold jump. rewrite Rabs_left1 by lra. f_equal. lra. Qed.

Lemma jump_down (x : NumericVector) {p : D} (P : PowerLaw p) (i j : nat) :
  (xr x j <= xr x i)%R → jump x P i j = phi P (xr x i - xr x j).
Proof. intros Hle. unfold jump. by rewrite Rabs_right by lra. Qed.

Lemma jump_mono (x : NumericVector) {p : D} (P : PowerLaw p) (i j k l : nat) :
  (Rabs (xr x i - xr x j) <= Rabs (xr x k - xr x l))%R →
  (jump x P i j <= jump x P k l)%R.
Proof. intros Hle. apply (phi_mono P); [apply Rabs_pos|done]. Qed.

(** A larger jump spans a larger distance. *)
Lemma jump_lt_inv (x : NumericVector) {p : D} (P : PowerLaw p) (i j k l : nat) :
  (jump x P i j < jump x P k l)%R →
  (Rabs (xr x i - xr x j) < Rabs (xr x k - xr x l))%R.
Proof.
  intros Hlt.
  destruct (Rle_or_lt (Rabs (xr x k - xr x l)) (Rabs (xr x i - xr x j))) as [Hle|];
    [|done].
  apply (jump_mono x P) in Hle. lra.
Qed.

(** Along a monotone triple the direct jump is at least the two steps. *)
Lemma jump_add (x : NumericVector) {p : D} (P : PowerLaw p) (i j k : nat) :
  (xr x i <= xr x j <= xr x k)%R ∨ (xr x k <= xr x j <= xr x i)%R →
  (jump x P i j + jump x P j k <= jump x P i k)%R.
Proof.
  intros [[? ?]|[? ?]].
  - rewrite !jump_up by lra.
    replace (xr x k - xr x i)%R with ((xr x j - xr x i) + (xr x k - xr x j))%R by lra.
    apply phi_super; lra.
  - rewrite !jump_down by lra.
    replace (xr x i - xr x k)%R with ((xr x i - xr x j) + (xr x j - xr x k))%R by lra.
    apply phi_super; lra.
Qed.

Lemma psum_nonneg (x : NumericVector) {p : D} (P : PowerLaw p) (s : list nat) :
  (0 <= psum x P s)%R.
Proof.
  induction s as [|i [|j s] IH]; simpl in *; try lra.
  pose proof (jump_nonneg x P i j). lra.
Qed.

Lemma psum_cons2 (x : NumericVector) {p : D} (P : PowerLaw p) (i j : nat)
  (s : list nat) :
  psum x P (i :: j :: s) = (jump x P i j + psum x P (j :: s))%R.
Proof. done. Qed.

Lemma psum_app (x : NumericVector) {p : D} (P : PowerLaw p) (s1 : list nat)
  (a : nat) (s2 : list nat) :
  psum x P (s1 ++ a :: s2) = (psum x P (s1 ++ [a]) + psum x P (a :: s2))%R.
Proof.
  induction s1 as [|i [|j s1] IH].
  - simpl. lra.
  - simpl. destruct s2; lra.
  - rewrite <- !app_comm_cons in *. rewrite !psum_cons2, IH. lra.
Qed.

(** ** The inequalities behind the algorithm *)

Lemma jump_pos (x : NumericVector) {p : D} (P : PowerLaw p) (i j : nat) :
  xr x i ≠ xr x j → (0 < jump x P i j)%R.
Proof.
  intros Hne. apply (phi_pos P). apply Rabs_pos_lt. lra.
Qed.

(** Of two crossing jumps and two nested ones over the same four values, the
    nested ones sum to more. *)
Lemma jump_quad (x : NumericVector) {p : D} (P : PowerLaw p) (a b c d : nat) :
  (xr x a <= xr x b ∧ xr x b <= xr x c ∧ xr x c <= xr x d)%R ∨
  (xr x d <= xr x c ∧ xr x c <= xr x b ∧ xr x b <= xr x a)%R →
  (jump x P a c + jump x P b d <= jump x P a d + jump x P b c)%R.
Proof.
  intros [(? & ? & ?)|(? & ? & ?)].
  - rewrite !jump_up by lra.
    pose proof (phi_shift P (xr x c - xr x b) (xr x c - xr x a)
                  (xr x d - xr x b) (xr x d - xr x a)). lra.
  - rewrite !jump_down by lra.
    pose proof (phi_shift P (xr x b - xr x c) (xr x a - xr x c)
                  (xr x b - xr x d) (xr x a - xr x d)). lra.
Qed.

(** A detour through a value that is not between the two ends costs
    nothing. *)
Lemma jump_via (x : NumericVector) {p : D} (P : PowerLaw p) (i u j : nat) :
  (xr x u <= xr x i ∧ xr x u <= xr x j)%R ∨
  (xr x i <= xr x u ∧ xr x j <= xr x u)%R →
  (jump x P i j <= jump x P i u + jump x P u j)%R.
Proof.
  intros Hu.
  pose proof (jump_nonneg x P i u). pose proof (jump_nonneg x P u j).
  destruct (Rle_or_lt (xr x i) (xr x j)).
  - destruct Hu as [[? ?]|[? ?]].
    + enough (jump x P i j <= jump x P u j)%R by lra.
      apply jump_mono. rewrite !Rabs_left1 by lra. lra.
    + enough (jump x P i j <= jump x P i u)%R by lra.
      apply jump_mono. rewrite !Rabs_left1 by lra. lra.
  - destruct Hu as [[? ?]|[? ?]].
    + enough (jump x P i j <= jump x P i u)%R by lra.
      apply jump_mono. rewrite !Rabs_right by lra. lra.
    + enough (jump x P i j <= jump x P u j)%R by lra.
      apply jump_mono. rewrite !Rabs_right by lra. lra.
Qed.

(** What lies under a tight edge lies between its ends. *)
Lemma tight_between (x : NumericVector) {p : D} (P : PowerLaw p) (u m w : nat) :
  tight x P u w → u ≤ m → m ≤ w → between x u m w.
Proof.
  intros Ht Hum Hmw.
  assert (path u w [u; m; w]) as Hp.
  { split; [|done]. repeat constructor; lia. }
  apply Ht in Hp. simpl in Hp.
  pose proof (jump_nonneg x P u m). pose proof (jump_nonneg x P m w).
  unfold between.
  destruct (Rle_or_lt (xr x u) (xr x w)).
  - destruct (Rle_or_lt (xr x u) (xr x m)); [destruct (Rle_or_lt (xr x m) (xr x w))|].
    + lra.
    + assert (jump x P u w <= jump x P u m)%R.
      { apply jump_mono. rewrite !Rabs_left1 by lra. lra. }
      assert (0 < jump x P m w)%R by (apply jump_pos; lra). lra.
    + assert (jump x P u w <= jump x P m w)%R.
      { apply jump_mono. rewrite !Rabs_left1 by lra. lra. }
      assert (0 < jump x P u m)%R by (apply jump_pos; lra). lra.
  - destruct (Rle_or_lt (xr x m) (xr x u)); [destruct (Rle_or_lt (xr x w) (xr x m))|].
    + lra.
    + assert (jump x P u w <= jump x P u m)%R.
      { apply jump_mono. rewrite !Rabs_right by lra. lra. }
      assert (0 < jump x P m w)%R by (apply jump_pos; lra). lra.
    + assert (jump x P u w <= jump x P m w)%R.
      { apply jump_mono. rewrite !Rabs_right by lra. lra. }
      assert (0 < jump x P u m)%R by (apply jump_pos; lra). lra.
Qed.

(** The heart of the matter: a piece of a sequence that runs under an edge
    [u - w] can be replaced by nothing, by [u], by [w] or by [u - w],
    whichever is best, as soon as the piece completed with [u] and [w] sums
    to no more than the edge. [al] and [be] are the elements around the
    piece, [m1] and [mk] its ends and [T] its sum. *)
Lemma under_edge (x : NumericVector) {p : D} (P : PowerLaw p)
  (al u m1 mk w be : nat) (T : R) :
  between x u m1 w → between x u mk w →
  (jump x P u m1 + T + jump x P mk w <= jump x P u w)%R →
  (jump x P al m1 + T + jump x P mk be <= jump x P al be)%R ∨
  (jump x P al m1 + T + jump x P mk be <= jump x P al u + jump x P u be)%R ∨
  (jump x P al m1 + T + jump x P mk be <= jump x P al w + jump x P w be)%R ∨
  (jump x P al m1 + T + jump x P mk be
     <= jump x P al u + jump x P u w + jump x P w be)%R.
Proof.
  intros B1 Bk Ht. unfold between in *.
  destruct (Rle_or_lt (xr x u) (xr x w)) as [Huw|Huw].
  - assert (xr x u <= xr x m1 <= xr x w ∧ xr x u <= xr x mk <= xr x w)%R
      as [[? ?] [? ?]] by lra.
    destruct (Rle_or_lt (xr x al) (xr x u)); destruct (Rle_or_lt (xr x w) (xr x be)).
    + left.
      pose proof (jump_quad x P al u m1 w ltac:(left; lra)).
      pose proof (jump_quad x P al mk w be ltac:(left; lra)). lra.
    + right. right. left.
      pose proof (jump_quad x P al u m1 w ltac:(left; lra)).
      pose proof (jump_via x P mk w be ltac:(right; lra)). lra.
    + right. left.
      pose proof (jump_via x P al u m1 ltac:(left; lra)).
      pose proof (jump_quad x P u mk w be ltac:(left; lra)). lra.
    + right. right. right.
      pose proof (jump_via x P al u m1 ltac:(left; lra)).
      pose proof (jump_via x P mk w be ltac:(right; lra)). lra.
  - assert (xr x w <= xr x m1 <= xr x u ∧ xr x w <= xr x mk <= xr x u)%R
      as [[? ?] [? ?]] by lra.
    destruct (Rle_or_lt (xr x u) (xr x al)); destruct (Rle_or_lt (xr x be) (xr x w)).
    + left.
      pose proof (jump_quad x P al u m1 w ltac:(right; lra)).
      pose proof (jump_quad x P al mk w be ltac:(right; lra)). lra.
    + right. right. left.
      pose proof (jump_quad x P al u m1 w ltac:(right; lra)).
      pose proof (jump_via x P mk w be ltac:(left; lra)). lra.
    + right. left.
      pose proof (jump_via x P al u m1 ltac:(right; lra)).
      pose proof (jump_quad x P u mk w be ltac:(right; lra)). lra.
    + right. right. right.
      pose proof (jump_via x P al u m1 ltac:(right; lra)).
      pose proof (jump_via x P mk w be ltac:(left; lra)). lra.
Qed.

(** ** Sequences that avoid what lies under a tight edge *)

Lemma sorted_cut (s : list nat) (k : nat) :
  StronglySorted le s →
  ∃ A B, s = A ++ B ∧ Forall (λ e, e ≤ k) A ∧ Forall (λ e, k < e) B.
Proof.
  induction 1 as [|e s Hs IH He].
  { exists [], []. by repeat constructor. }
  destruct (decide (e ≤ k)) as [Hle|Hgt].
  - destruct IH as (A & B & -> & HA & HB).
    exists (e :: A), B. split_and!; [done| |done]. by constructor.
  - exists [], (e :: s). split_and!; [done|constructor|].
    constructor; [lia|]. eapply Forall_impl; [exact He|]. simpl. lia.
Qed.

Lemma psum_mid (x : NumericVector) {p : D} (P : PowerLaw p)
  (A : list nat) (al : nat) (X : list nat) (be : nat) (B : list nat) :
  psum x P ((A ++ [al]) ++ X ++ be :: B)
    = (psum x P (A ++ [al]) + psum x P (al :: X ++ [be]) + psum x P (be :: B))%R.
Proof.
  rewrite <- app_assoc. simpl. rewrite (psum_app x P A al (X ++ be :: B)).
  rewrite (app_comm_cons X), (psum_app x P (al :: X) be B). simpl. lra.
Qed.

Lemma psum_snoc (x : NumericVector) {p : D} (P : PowerLaw p)
  (M : list nat) (be mk : nat) :
  last M = Some mk → psum x P (M ++ [be]) = (psum x P M + jump x P mk be)%R.
Proof.
  intros [M' ->]%last_Some.
  rewrite <- app_assoc. simpl. rewrite (psum_app x P M' mk [be]). simpl. lra.
Qed.

Lemma psum_cons (x : NumericVector) {p : D} (P : PowerLaw p)
  (al : nat) (M : list nat) (m1 : nat) :
  head M = Some m1 → psum x P (al :: M) = (jump x P al m1 + psum x P M)%R.
Proof. destruct M; [done|]. by intros [= ->]. Qed.

Lemma psum_wrap (x : NumericVector) {p : D} (P : PowerLaw p)
  (al : nat) (M : list nat) (be m1 mk : nat) :
  head M = Some m1 → last M = Some mk →
  psum x P (al :: M ++ [be])
    = (jump x P al m1 + psum x P M + jump x P mk be)%R.
Proof.
  intros Hh Hl. rewrite (psum_cons x P al (M ++ [be]) m1).
  - rewrite (psum_snoc x P M be mk Hl). lra.
  - by destruct M.
Qed.

Lemma path_nonempty (a b : nat) (s : list nat) :
  path a b s → ∃ s', s = a :: s'.
Proof. intros (_ & Hh & _). destruct s; [done|]. injection Hh as ->. eauto. Qed.

Lemma path_range (a b : nat) (s : list nat) :
  path a b s → Forall (λ e, a ≤ e ∧ e ≤ b) s.
Proof.
  intros (Hs & Hh & Hl). apply Forall_forall. intros e He. split.
  - destruct s as [|a' s]; [done|]. injection Hh as ->.
    apply StronglySorted_cons in Hs as [Ha _]. rewrite Forall_forall in Ha.
    apply elem_of_cons in He as [->|He]; [done|]. by apply Ha.
  - apply last_Some in Hl as [s' ->].
    apply StronglySorted_app in Hs as (Hx & _ & _).
    apply elem_of_app in He as [He|He%list_elem_of_singleton]; [|lia].
    apply Hx; [done|left].
Qed.

(** A sequence can be made to avoid what lies strictly under a tight edge
    without losing anything, at the price of passing through the ends of the
    edge. *)
Lemma redundancy (x : NumericVector) {p : D} (P : PowerLaw p)
  (u w a b : nat) (s : list nat) :
  u < w → tight x P u w → path a b s → a ≤ u → w ≤ b →
  ∃ s', path a b s' ∧ (psum x P s <= psum x P s')%R ∧
        Forall (λ e, e ∈ s ∨ e = u ∨ e = w) s' ∧
        Forall (λ e, ¬ (u < e ∧ e < w)) s'.
Proof.
  intros Huw Ht Hp Hau Hwb. pose proof Hp as (Hs & Hh & Hl).
  destruct (sorted_cut s u Hs) as (A & R & -> & HA & HR).
  pose proof Hs as (HxAR & HsA & HsR)%StronglySorted_app.
  destruct (sorted_cut R (w - 1) HsR) as (M & B & -> & HM & HB).
  pose proof HsR as (HxMB & HsM & HsB)%StronglySorted_app.
  apply Forall_app in HR as [HuM HuB].
  destruct (decide (M = [])) as [->|HMne].
  { exists (A ++ [] ++ B). split_and!; [done|lra| |].
    - apply Forall_forall. intros e He. by left.
    - simpl. apply Forall_app. split.
      + eapply Forall_impl; [exact HA|]. simpl. lia.
      + eapply Forall_impl; [exact HB|]. simpl. lia. }
  destruct (last A) as [al|] eqn:ElA; cycle 1.
  { apply last_None in ElA as ->. simpl in Hh.
    destruct M as [|m1 M']; [done|]. injection Hh as ->.
    apply Forall_cons in HuM as [? _]. lia. }
  apply last_Some in ElA as [A' ->].
  destruct B as [|be B'].
  { rewrite app_nil_r, last_app in Hl.
    destruct (last M) as [mk|] eqn:ElM; [|by apply last_None in ElM].
    injection Hl as ->. apply last_Some in ElM as [M' ->].
    apply Forall_app in HM as [_ [? _]%Forall_cons]. lia. }
  destruct (head M) as [m1|] eqn:EhM; [|by destruct M].
  destruct (last M) as [mk|] eqn:ElM; [|by apply last_None in ElM].
  assert (m1 ∈ M) as Hm1 by (destruct M; [done|]; injection EhM as ->; left).
  assert (mk ∈ M) as Hmk.
  { apply last_Some in ElM as [M' ->]. apply elem_of_app. right. left. }
  rewrite Forall_forall in HuM, HM.
  pose proof (HuM _ Hm1). pose proof (HuM _ Hmk).
  pose proof (HM _ Hm1). pose proof (HM _ Hmk).
  assert (path u w (u :: M ++ [w])) as Hpuw.
  { split_and!; [|done|by rewrite app_comm_cons, last_snoc].
    constructor.
    - apply StronglySorted_app. split_and!; [|done|repeat constructor].
      intros e1 e2 He1 ->%list_elem_of_singleton. specialize (HM _ He1). simpl in HM. lia.
    - apply Forall_app. split; [|repeat constructor; lia].
      apply Forall_forall. intros e He. specialize (HuM _ He). simpl in HuM. lia. }
  apply Ht in Hpuw. rewrite (psum_wrap x P u M w m1 mk EhM ElM) in Hpuw.
  pose proof (tight_between x P u m1 w Ht ltac:(lia) ltac:(lia)) as B1.
  pose proof (tight_between x P u mk w Ht ltac:(lia) ltac:(lia)) as Bk.
  rewrite (psum_mid x P A' al M be B'), (psum_wrap x P al M be m1 mk EhM ElM).
  rewrite Forall_forall in HA, HB.
  assert (al ≤ u) as Halu by (apply HA, elem_of_app; right; left).
  assert (w ≤ be) as Hwbe by (specialize (HB be ltac:(left)); simpl in HB; lia).
  assert (∀ X, StronglySorted le X → Forall (λ e, e = u ∨ e = w) X →
     path a b ((A' ++ [al]) ++ X ++ be :: B') ∧
     Forall (λ e, e ∈ (A' ++ [al]) ++ M ++ be :: B' ∨ e = u ∨ e = w)
       ((A' ++ [al]) ++ X ++ be :: B') ∧
     Forall (λ e, ¬ (u < e ∧ e < w)) ((A' ++ [al]) ++ X ++ be :: B')) as HX.
  { intros X HsX HXuw. rewrite Forall_forall in HXuw. split_and!.
    - split_and!.
      + apply StronglySorted_app. split_and!; [|done|].
        * intros e1 e2 He1 [He2|He2]%elem_of_app.
          -- specialize (HA _ He1). simpl in HA.
             destruct (HXuw _ He2); lia.
          -- specialize (HA _ He1). specialize (HB _ He2). simpl in *. lia.
        * apply StronglySorted_app. split_and!; [|done|done].
          intros e1 e2 He1 He2. specialize (HB _ He2). simpl in HB.
          destruct (HXuw _ He1); lia.
      + rewrite <- Hh. rewrite <- !app_assoc. by destruct A'.
      + rewrite <- Hl. by rewrite !app_assoc, !last_app_cons.
    - apply Forall_forall. intros e [He|[He|He]%elem_of_app]%elem_of_app.
      + left. apply elem_of_app. by left.
      + right. by apply HXuw.
      + left. apply elem_of_app. right. apply elem_of_app. by right.
    - apply Forall_forall. intros e [He|[He|He]%elem_of_app]%elem_of_app.
      + specialize (HA _ He). simpl in HA. lia.
      + destruct (HXuw _ He); lia.
      + specialize (HB _ He). simpl in HB. lia. }
  destruct (under_edge x P al u m1 mk w be (psum x P M) B1 Bk Hpuw)
    as [Hc|[Hc|[Hc|Hc]]].
  - exists ((A' ++ [al]) ++ [] ++ be :: B').
    destruct (HX []) as (? & ? & ?); [constructor|constructor|].
    split_and!; [done| |done|done].
    rewrite (psum_mid x P A' al [] be B'). simpl. lra.
  - exists ((A' ++ [al]) ++ [u] ++ be :: B').
    destruct (HX [u]) as (? & ? & ?);
      [repeat constructor|constructor; [by left|constructor]|].
    split_and!; [done| |done|done].
    rewrite (psum_mid x P A' al [u] be B'). simpl. lra.
  - exists ((A' ++ [al]) ++ [w] ++ be :: B').
    destruct (HX [w]) as (? & ? & ?);
      [repeat constructor|constructor; [by right|constructor]|].
    split_and!; [done| |done|done].
    rewrite (psum_mid x P A' al [w] be B'). simpl. lra.
  - exists ((A' ++ [al]) ++ [u; w] ++ be :: B').
    destruct (HX [u; w]) as (? & ? & ?);
      [repeat constructor; lia
      |constructor; [by left|constructor; [by right|constructor]]|].
    split_and!; [done| |done|done].
    rewrite (psum_mid x P A' al [u; w] be B'). simpl. lra.
Qed.

(** With every edge of a chain tight, a sequence spanning the chain can be
    brought onto the nodes of the chain without losing anything. *)
Lemma reduce_chain (x : NumericVector) {p : D} (P : PowerLaw p)
  (c : list nat) (a b : nat) (s : list nat) :
  StronglySorted lt c → all_adj (tight x P) c → path a b s →
  Forall (λ e, a ≤ e ∧ e ≤ b) c →
  ∃ s', path a b s' ∧ (psum x P s <= psum x P s')%R ∧
        Forall (λ e, e ∈ s ∨ e ∈ c) s' ∧
        Forall (λ e, ∀ u w, head c = Some u → last c = Some w →
                      u < e → e < w → e ∈ c) s'.
Proof.
  intros Hc Ht Hp Hr. induction c as [|u [|w c'] IH].
  - exists s. split_and!; [done|lra| |]; apply Forall_forall; [by left|done].
  - exists s. split_and!; [done|lra| |]; apply Forall_forall; [by left|].
    intros e _ u' w' Hu' Hw'. injection Hu' as <-. injection Hw' as <-. lia.
  - destruct Ht as [Huw Ht].
    apply StronglySorted_cons in Hc as [Hu Hc].
    apply Forall_cons in Hr as [Hru Hr].
    destruct (IH Hc Ht Hr) as (s1 & Hp1 & Hle1 & Hin1 & Hun1).
    pose proof Hu as [Hultw _]%Forall_cons.
    pose proof Hr as [Hrw _]%Forall_cons.
    destruct (redundancy x P u w a b s1 Hultw Huw Hp1 ltac:(lia) ltac:(lia))
      as (s2 & Hp2 & Hle2 & Hin2 & Hun2).
    exists s2. split_and!; [done|lra| |].
    + rewrite Forall_forall in Hin1, Hin2. apply Forall_forall. intros e He.
      destruct (Hin2 _ He) as [He1|[ -> | -> ]].
      * destruct (Hin1 _ He1) as [?|?]; [by left|right; by right].
      * right. left.
      * right. right. left.
    + rewrite Forall_forall in Hin2, Hun1, Hun2. apply Forall_forall.
      intros e He u' w' Hu' Hlast Hlt1 Hlt2. injection Hu' as <-.
      rewrite last_cons_cons in Hlast.
      pose proof (Hun2 _ He) as Hnot.
      destruct (Hin2 _ He) as [He1|[ -> | -> ]]; [|lia|right; left].
      destruct (decide (e = w)) as [->|Hne]; [right; left|].
      right. apply (Hun1 _ He1 w w'); [done|done|lia|done].
Qed.

(** Repetitions in a sequence add nothing. *)
Lemma dedup_path (x : NumericVector) {p : D} (P : PowerLaw p) (s : list nat) :
  StronglySorted le s →
  ∃ s', StronglySorted lt s' ∧ (∀ e, e ∈ s' ↔ e ∈ s) ∧
        psum x P s' = psum x P s ∧ head s' = head s ∧ last s' = last s.
Proof.
  induction 1 as [|e s Hs IH He].
  { exists []. split_and!; try done. constructor. }
  destruct IH as (s' & Hs' & Hin & Hsum & Hhd & Hlast).
  destruct s as [|h s1].
  { exists [e]. split_and!; try done. repeat constructor. }
  destruct (decide (e = h)) as [->|Hne].
  - exists s'. split_and!; [done| | |done|done].
    + intros e. rewrite Hin. split; [by right|].
      intros [ -> |?]%elem_of_cons; [left|done].
    + rewrite Hsum, psum_cons2, jump_self. lra.
  - pose proof He as [Heh _]%Forall_cons.
    apply StronglySorted_cons in Hs as [Hh _].
    exists (e :: s'). split_and!.
    + constructor; [done|]. apply Forall_forall. intros e' He'.
      apply Hin in He'. rewrite Forall_forall in Hh.
      apply elem_of_cons in He' as [->|He']; [lia|]. specialize (Hh _ He'). lia.
    + intros e'. rewrite !(elem_of_cons _ e' e), Hin. done.
    + rewrite (psum_cons x P e s' h) by done. rewrite Hsum, psum_cons2. done.
    + done.
    + destruct s' as [|h' s'']; [done|]. by rewrite !last_cons_cons.
Qed.

Lemma sorted_sub (s c : list nat) :
  StronglySorted lt s → StronglySorted lt c → (∀ e, e ∈ s → e ∈ c) →
  s `sublist_of` c.
Proof.
  intros Hs Hc. revert s Hs. induction c as [|u c' IH]; intros s Hs Hin.
  { destruct s as [|e s]; [done|]. specialize (Hin e ltac:(left)).
    by apply elem_of_nil in Hin. }
  apply StronglySorted_cons in Hc as [Hu Hc]. rewrite Forall_forall in Hu.
  destruct s as [|e s1]; [apply sublist_nil_l|].
  pose proof Hs as [He Hs1]%StronglySorted_cons. rewrite Forall_forall in He.
  destruct (decide (e = u)) as [->|Hne].
  - apply sublist_skip. apply (IH Hc); [done|].
    intros e' He'. specialize (He _ He'). simpl in He.
    specialize (Hin e' ltac:(by right)).
    apply elem_of_cons in Hin as [->|?]; [lia|done].
  - assert (e ∈ c') as Hec.
    { specialize (Hin e ltac:(left)). by apply elem_of_cons in Hin as [?|?]. }
    apply sublist_cons. apply (IH Hc); [done|].
    intros e' He'. pose proof (Hin _ He') as Hin'.
    apply elem_of_cons in Hin' as [->|?]; [|done].
    specialize (Hu _ Hec). simpl in Hu.
    apply elem_of_cons in He' as [->|He']; [lia|].
    specialize (He _ He'). simpl in He. lia.
Qed.

(** With every edge tight, the sequences made of the nodes of the chain are
    the only ones that need to be looked at. *)
Lemma bound_by_sublists (x : NumericVector) {p : D} (P : PowerLaw p)
  (c : list nat) (K : R) :
  StronglySorted lt c → all_adj (tight x P) c →
  (∀ s, s `sublist_of` c → head s = head c → last s = last c →
        (psum x P s <= K)%R) →
  ∀ a b s, head c = Some a → last c = Some b → path a b s → (psum x P s <= K)%R.
Proof.
  intros Hc Ht Hsub a b s Hh Hl Hp.
  assert (Forall (λ e, a ≤ e ∧ e ≤ b) c) as Hr.
  { apply (path_range a b c). split_and!; [|done|done].
    clear -Hc. induction Hc as [|e c _ IH He]; constructor; [done|].
    eapply Forall_impl; [exact He|]. simpl. lia. }
  destruct (reduce_chain x P c a b s Hc Ht Hp Hr) as (s1 & Hp1 & Hle1 & _ & Hun1).
  pose proof Hp1 as (Hs1 & Hh1 & Hl1).
  destruct (dedup_path x P s1 Hs1) as (s2 & Hs2 & Hin2 & Hsum2 & Hh2 & Hl2).
  rewrite <- Hsum2 in Hle1. etrans; [exact Hle1|].
  apply Hsub; [|congruence|congruence].
  apply sorted_sub; [done|done|].
  intros e He%Hin2. rewrite Forall_forall in Hun1.
  pose proof (path_range a b s1 Hp1) as Hr1. rewrite Forall_forall in Hr1.
  specialize (Hr1 _ He). simpl in Hr1.
  destruct (decide (e = a)) as [->|Hna].
  { destruct c; [done|]. injection Hh as ->. left. }
  destruct (decide (e = b)) as [->|Hnb].
  { apply last_Some in Hl as [c' ->]. apply elem_of_app. right. left. }
  apply (Hun1 _ He a b); [done|done|lia|lia].
Qed.

Lemma opt_by_sublists (x : NumericVector) {p : D} (P : PowerLaw p) (c : list nat) :
  StronglySorted lt c → all_adj (tight x P) c →
  (∀ s, s `sublist_of` c → head s = head c → last s = last c →
        (psum x P s <= psum x P c)%R) →
  opt x P c.
Proof. intros Hc Ht Hsub a b s. by apply bound_by_sublists. Qed.

Lemma sublists_complete {A} (s c : list A) :
  s `sublist_of` c → s ∈ sublists c.
Proof.
  induction 1 as [|a s c _ IH|a s c _ IH]; simpl.
  - left.
  - apply elem_of_app. left. by apply list_elem_of_fmap_2.
  - apply elem_of_app. by right.
Qed.

(** ** The chain of local extrema *)

Lemma pvar_diff_swap (a b p : D) : pvar_diff (dsub a b) p = pvar_diff (dsub b a) p.
Proof.
  unfold pvar_diff. f_equal. apply val_inj.
  rewrite !val_abs, !val_sub. apply Rabs_minus_sym.
Qed.

Lemma fjoin_sym (x : NumericVector) (p : D) (i j : nat) :
  fjoin x p i j = fjoin x p j i.
Proof. apply pvar_diff_swap. Qed.

Lemma mono_up_refl (x : NumericVector) (i : nat) : mono_up x i i.
Proof. intros k k' ? ? ?. replace k' with k by lia. lra. Qed.

Lemma mono_down_refl (x : NumericVector) (i : nat) : mono_down x i i.
Proof. intros k k' ? ? ?. replace k' with k by lia. lra. Qed.

Lemma mono_up_step (x : NumericVector) (l i : nat) :
  l ≤ i → mono_up x l i → (xr x i <= xr x (i + 1))%R → mono_up x l (i + 1).
Proof.
  intros Hli Hm Hle k k' ? ? ?.
  destruct (decide (k' ≤ i)); [by apply Hm|].
  replace k' with (i + 1) by lia.
  destruct (decide (k ≤ i)).
  - etrans; [apply (Hm k i); lia|done].
  - replace k with (i + 1) by lia. lra.
Qed.

Lemma mono_down_step (x : NumericVector) (l i : nat) :
  l ≤ i → mono_down x l i → (xr x (i + 1) <= xr x i)%R → mono_down x l (i + 1).
Proof.
  intros Hli Hm Hle k k' ? ? ?.
  destruct (decide (k' ≤ i)); [by apply Hm|].
  replace k' with (i + 1) by lia.
  destruct (decide (k ≤ i)).
  - etrans; [done|apply (Hm k i); lia].
  - replace k with (i + 1) by lia. lra.
Qed.

Lemma extrema_inv (x : NumericVector) (p : D) (k : nat) :
  ∀ (i l : nat) (direction : Z) (wl : D),
    i + k = length x → l ≤ i → run_ok x l i direction →
    let R := extrema p i (drop i x) (xval x l) direction in
    all_adj (λ u w, wt w = fjoin x p (idx u) (idx w)) (mk_node l wl :: R) ∧
    all_adj (mono_seg x) (l :: (idx <$> R)) ∧
    all_adj3 (peak x) (l :: (idx <$> R)) ∧
    (∀ r rest, R = r :: rest →
       (direction = 1%Z → (xr x l < xr x (idx r))%R) ∧
       (direction = (-1)%Z → (xr x (idx r) < xr x l)%R)).
Proof.
  induction k as [|k IH]; intros i l direction wl Hk Hli Hrun R; subst R.
  { rewrite drop_ge by lia. done. }
  rewrite extrema_step by lia. unfold extremum_test.
  assert (mono_up x i i ∧ mono_down x i i) as [Hui Hdi]
    by (split; [apply mono_up_refl|apply mono_down_refl]).
  destruct (decide (i + 1 ≠ length x)) as [Hj|Hj]; cycle 1.
  { (* the last point *)
    rewrite (drop_ge x (i + 1)) by lia. simpl. split_and!; try done.
    - exact (fjoin_sym x p i l).
    - destruct Hrun as [(_ & ? & _)|[(_ & ? & _)|(_ & ? & _)]];
        [by left|by left|by right].
    - intros r rest [= <- _]. simpl.
      destruct Hrun as [(-> & _)|[(-> & _ & ?)|(-> & _ & ?)]]; split; done. }
  assert (xr x l <= xr x i ∨ direction = (-1)%Z)%R as Hup.
  { destruct Hrun as [(_ & Hm & _)|[(_ & Hm & _)|(? & _)]]; [left|left|by right];
      apply Hm; lia. }
  assert (xr x i <= xr x l ∨ direction = 1%Z)%R as Hdown.
  { destruct Hrun as [(_ & _ & Hm)|[(? & _)|(_ & Hm & _)]]; [left|by right|left];
      apply Hm; lia. }
  destruct (dlt (xval x i) (xval x (i + 1))) eqn:Hlt;
    [|destruct (dlt (xval x (i + 1)) (xval x i)) eqn:Hgt].
  - (* rising *)
    apply val_lt in Hlt. fold (xr x i) (xr x (i + 1)) in Hlt.
    destruct Hrun as [(-> & Hu & Hd)|[(-> & Hu & Hlt')|(-> & Hd & Hlt')]];
      cbn [Z.eqb Pos.eqb].
    + destruct (IH (i + 1) l 1%Z wl) as (Hw & Hm & Hp & Hf); [lia|lia| |done].
      right. left. split_and!; [done| |].
      * apply mono_up_step; [done|done|lra].
      * pose proof (Hu l i ltac:(lia) ltac:(lia) ltac:(lia)). lra.
    + apply (IH (i + 1) l 1%Z wl); [lia|lia|]. right. left. split_and!; [done| |].
      * apply mono_up_step; [done|done|lra].
      * lra.
    + destruct (IH (i + 1) i 1%Z (pvar_diff (dsub (xval x i) (xval x l)) p))
        as (Hw & Hm & Hp & Hf); [lia|lia| |].
      { right. left. split_and!; [done| |lra]. apply mono_up_step; [done|done|lra]. }
      split_and!.
      * split; [exact (fjoin_sym x p i l)|done].
      * split; [by right|done].
      * rewrite fmap_cons.
        destruct (extrema p (i + 1) _ _ _) as [|r rest] eqn:ER; [done|].
        split; [|done]. right. split; [done|].
        by apply (Hf r rest).
      * intros r rest [= <- _]. simpl. split; [done|]. intros _. done.
  - (* falling *)
    apply val_lt in Hgt. fold (xr x i) (xr x (i + 1)) in Hgt.
    destruct Hrun as [(-> & Hu & Hd)|[(-> & Hu & Hlt')|(-> & Hd & Hlt')]];
      cbn [Z.eqb Pos.eqb].
    + destruct (IH (i + 1) l (-1)%Z wl) as (Hw & Hm & Hp & Hf); [lia|lia| |done].
      right. right. split_and!; [done| |].
      * apply mono_down_step; [done|done|lra].
      * pose proof (Hd l i ltac:(lia) ltac:(lia) ltac:(lia)). lra.
    + destruct (IH (i + 1) i (-1)%Z (pvar_diff (dsub (xval x i) (xval x l)) p))
        as (Hw & Hm & Hp & Hf); [lia|lia| |].
      { right. right. split_and!; [done| |lra]. apply mono_down_step; [done|done|lra]. }
      split_and!.
      * split; [exact (fjoin_sym x p i l)|done].
      * split; [by left|done].
      * rewrite fmap_cons.
        destruct (extrema p (i + 1) _ _ _) as [|r rest] eqn:ER; [done|].
        split; [|done]. left. split; [done|].
        by apply (Hf r rest).
      * intros r rest [= <- _]. simpl. split; [|done]. intros _. done.
    + apply (IH (i + 1) l (-1)%Z wl); [lia|lia|]. right. right. split_and!; [done| |].
      * apply mono_down_step; [done|done|lra].
      * lra.
  - (* level *)
    apply dlt_false in Hlt, Hgt. fold (xr x i) (xr x (i + 1)) in Hlt, Hgt.
    apply (IH (i + 1) l direction wl); [lia|lia|].
    destruct Hrun as [(-> & Hu & Hd)|[(-> & Hu & Hlt')|(-> & Hd & Hlt')]].
    + left. split_and!; [done| |].
      * apply mono_up_step; [done|done|lra].
      * apply mono_down_step; [done|done|lra].
    + right. left. split_and!; [done| |lra]. apply mono_up_step; [done|done|lra].
    + right. right. split_and!; [done| |lra]. apply mono_down_step; [done|done|lra].
Qed.

Lemma all_adj_impl {A} (Q Q' : A → A → Prop) (c : list A) :
  (∀ u w, Q u w → Q' u w) → all_adj Q c → all_adj Q' c.
Proof.
  intros HQ. induction c as [|u [|w c] IH]; [done|done|].
  intros [? ?]. split; [by apply HQ|by apply IH].
Qed.

(** Between the ends of a monotone run nothing beats the direct jump. *)
Lemma mono_psum (x : NumericVector) {p : D} (P : PowerLaw p) (u w : nat)
  (s : list nat) (a b : nat) :
  mono_seg x u w → path a b s → u ≤ a → b ≤ w →
  (psum x P s <= jump x P a b)%R.
Proof.
  intros Hm (Hs & Hh & Hl). revert a Hh.
  induction Hs as [|e s Hs IH He]; intros a Hh Hua Hbw; [done|].
  injection Hh as ->. destruct s as [|h s].
  { injection Hl as ->. simpl. rewrite jump_self. lra. }
  rewrite last_cons_cons in Hl. rewrite psum_cons2.
  pose proof He as [Hah _]%Forall_cons.
  specialize (IH Hl h eq_refl ltac:(lia) Hbw).
  assert (h ≤ b) as Hhb.
  { pose proof (path_range h b (h :: s) ltac:(done)) as [? _]%Forall_cons. lia. }
  etrans; [|apply (jump_add x P a h b)]; [lra|].
  destruct Hm as [Hm|Hm]; [left|right];
    split; apply Hm; lia.
Qed.

Lemma mono_tight (x : NumericVector) {p : D} (P : PowerLaw p) (u w : nat) :
  mono_seg x u w → tight x P u w.
Proof. intros Hm s Hp. by apply (mono_psum x P u w). Qed.

(** The chain of local extrema: exact weights, tight edges, and a strict
    turn at every inner node. *)
Lemma extrema_chain_inv (x : NumericVector) {p : D} (P : PowerLaw p) :
  exact_wts x p (extrema_chain x p) ∧
  all_adj (tight x P) (idx <$> extrema_chain x p) ∧
  all_adj3 (peak x) (idx <$> extrema_chain x p).
Proof.
  unfold extrema_chain.
  destruct (extrema_inv x p (length x) 0 0 0%Z dzero) as (Hw & Hm & Hp & _);
    [done|done| |].
  { left. split_and!; [done|apply mono_up_refl|apply mono_down_refl]. }
  rewrite drop_0 in Hw, Hm, Hp. split_and!.
  - split; [|done]. by intros nd [= <-].
  - rewrite fmap_cons. eapply all_adj_impl; [|exact Hm].
    intros u w. apply mono_tight.
  - done.
Qed.

(** ** The scan of three-edge windows *)

Lemma all_adj_app {A} (Q : A → A → Prop) (l1 : list A) (a : A) (l2 : list A) :
  all_adj Q (l1 ++ a :: l2) ↔ all_adj Q (l1 ++ [a]) ∧ all_adj Q (a :: l2).
Proof.
  induction l1 as [|u [|v l1] IH]; simpl in *; [tauto|tauto|].
  rewrite IH. tauto.
Qed.

Lemma all_adj3_app {A} (Q : A → A → A → Prop) (l1 : list A) (a b : A) (l2 : list A) :
  all_adj3 Q (l1 ++ a :: b :: l2)
  ↔ all_adj3 Q (l1 ++ [a; b]) ∧ all_adj3 Q (a :: b :: l2).
Proof.
  induction l1 as [|u [|v [|w l1]] IH]; simpl in *; [tauto|tauto|tauto|].
  rewrite IH. tauto.
Qed.

Lemma all_adj3_last {A} (Q : A → A → A → Prop) (l1 : list A) (a b b' : A) :
  all_adj3 Q (l1 ++ [a; b]) → (∀ l, Q l a b → Q l a b') →
  all_adj3 Q (l1 ++ [a; b']).
Proof.
  intros Hq Hch. induction l1 as [|u [|v [|w l1]] IH]; simpl in *; [done| | |].
  - split; [|done]. apply Hch. tauto.
  - split; [tauto|]. split; [|done]. apply Hch. tauto.
  - split; [tauto|]. apply IH. tauto.
Qed.

Lemma all_adj4_prefix {A} (Q : A → A → A → A → Prop) (l1 l2 : list A) :
  all_adj4 Q (l1 ++ l2) → all_adj4 Q l1.
Proof.
  induction l1 as [|b [|m1 [|m2 [|e l1]]] IH]; simpl; try done.
  intros [? ?]. split; [done|]. by apply IH.
Qed.

Lemma all_adj4_snoc {A} (Q : A → A → A → A → Prop) (l : list A) (b m1 m2 e : A) :
  all_adj4 Q (l ++ [b; m1; m2]) → Q b m1 m2 e →
  all_adj4 Q (l ++ [b; m1; m2; e]).
Proof.
  intros Hq He. induction l as [|u [|v [|w [|y l]]] IH]; simpl in *; tauto.
Qed.

(** When the jump across a window beats its three edges, the values at its
    four nodes are in order, the inner two swapped. *)
Lemma join_order (x : NumericVector) {p : D} (P : PowerLaw p) (b m1 m2 e : nat) :
  peak x b m1 m2 → peak x m1 m2 e → ¬ window_ok x P b m1 m2 e →
  (xr x b < xr x m2 ∧ xr x m2 < xr x m1 ∧ xr x m1 < xr x e)%R ∨
  (xr x e < xr x m1 ∧ xr x m1 < xr x m2 ∧ xr x m2 < xr x b)%R.
Proof.
  intros P1 P2 Hw. unfold window_ok in Hw. apply Rnot_le_lt in Hw.
  pose proof (jump_nonneg x P b m1). pose proof (jump_nonneg x P m1 m2).
  pose proof (jump_nonneg x P m2 e).
  pose proof (jump_lt_inv x P b m1 b e ltac:(lra)) as Hj1.
  pose proof (jump_lt_inv x P m1 m2 b e ltac:(lra)) as Hj2.
  pose proof (jump_lt_inv x P m2 e b e ltac:(lra)) as Hj3.
  unfold peak in *. unfold Rabs in *.
  repeat destruct (Rcase_abs _); lra.
Qed.

(** The edge that replaces such a window is tight. *)
Lemma join_tight (x : NumericVector) {p : D} (P : PowerLaw p) (b m1 m2 e : nat) :
  b < m1 → m1 < m2 → m2 < e →
  tight x P b m1 → tight x P m1 m2 → tight x P m2 e →
  peak x b m1 m2 → peak x m1 m2 e → ¬ window_ok x P b m1 m2 e →
  tight x P b e.
Proof.
  intros ? ? ? T1 T2 T3 P1 P2 Hw s Hp.
  pose proof (join_order x P b m1 m2 e P1 P2 Hw) as Ho.
  unfold window_ok in Hw. apply Rnot_le_lt in Hw.
  apply (bound_by_sublists x P [b; m1; m2; e] (jump x P b e)) with (a := b) (b := e);
    [repeat constructor; lia|simpl; tauto| |done|done|done].
  intros s' Hs' Hh Hl. apply sublists_complete in Hs'. simpl in Hs'.
  pose proof (jump_add x P b m1 e). pose proof (jump_add x P b m2 e).
  repeat (apply elem_of_cons in Hs' as [->|Hs']);
    try (by apply elem_of_nil in Hs'); simpl in Hh, Hl;
    try (injection Hh as ?); try (injection Hl as ?); try lia; try done;
    simpl; lra.
Qed.

Lemma all_adj_head {A} (Q : A → A → Prop) (e e' : A) (r : list A) :
  all_adj Q (e :: r) → (∀ w, Q e w → Q e' w) → all_adj Q (e' :: r).
Proof. destruct r as [|r1 r]; [done|]. simpl. intros [? ?] Hq. auto. Qed.

(** Removing the inner nodes of a window that the direct jump beats keeps
    the chain well formed and turning. *)
Lemma excise_window_ok (x : NumericVector) {p : D} (P : PowerLaw p)
  (L : list node) (b m1 m2 e : node) (r : list node) :
  chain_ok x P (L ++ b :: m1 :: m2 :: e :: r) →
  all_adj3 (peak x) (idx <$> (L ++ b :: m1 :: m2 :: e :: r)) →
  ¬ window_ok x P (idx b) (idx m1) (idx m2) (idx e) →
  chain_ok x P (L ++ b :: mk_node (idx e) (fjoin x p (idx b) (idx e)) :: r) ∧
  all_adj3 (peak x)
    (idx <$> (L ++ b :: mk_node (idx e) (fjoin x p (idx b) (idx e)) :: r)).
Proof.
  intros ((Hhd & Hw) & Hs & Ht) Hp Hnw.
  rewrite fmap_app, !fmap_cons in Hs, Ht, Hp.
  apply all_adj_app in Hw as [HwL Hw]. apply all_adj_app in Ht as [HtL Ht].
  apply all_adj3_app in Hp as [HpL Hp].
  destruct Hw as (W1 & W2 & W3 & Hw). destruct Ht as (T1 & T2 & T3 & Ht).
  destruct Hp as (P1 & P2 & Hp).
  pose proof Hs as (_ & _ & Hs')%StronglySorted_app.
  apply StronglySorted_cons in Hs' as [[? _]%Forall_cons Hs'].
  apply StronglySorted_cons in Hs' as [[? _]%Forall_cons Hs'].
  apply StronglySorted_cons in Hs' as [[? _]%Forall_cons Hs'].
  pose proof (join_order x P _ _ _ _ P1 P2 Hnw) as Ho.
  split; [split_and!|].
  - split.
    + intros nd Hnd. apply Hhd. by destruct L.
    + apply all_adj_app. split; [done|]. split; [done|].
      eapply all_adj_head; [exact Hw|]. done.
  - rewrite fmap_app, !fmap_cons. simpl.
    eapply sorted_sublist; [|exact Hs].
    apply sublist_app; [done|]. apply sublist_skip.
    by apply sublist_cons, sublist_cons.
  - rewrite fmap_app, !fmap_cons. simpl.
    apply all_adj_app. split; [done|]. split; [|done].
    by apply (join_tight x P _ (idx m1) (idx m2)).
  - rewrite fmap_app, !fmap_cons. simpl.
    apply all_adj3_app. split.
    + eapply all_adj3_last; [exact HpL|].
      intros l. unfold peak. lra.
    + destruct (idx <$> r) as [|r1 rr]; [done|].
      destruct Hp as [Hp1 Hp]. split; [|done].
      revert Hp1. unfold peak. lra.
Qed.

(** The test of the scan is the test of the window. *)
Lemma window_test (x : NumericVector) {p : D} (P : PowerLaw p)
  (L : list node) (b m1 m2 e : node) (r : list node) (s : D) :
  exact_wts x p (L ++ b :: m1 :: m2 :: e :: r) →
  val s = (val (wt m1) + val (wt m2) + val (wt e))%R →
  dle (fjoin x p (idx b) (idx e)) s = true
  ↔ window_ok x P (idx b) (idx m1) (idx m2) (idx e).
Proof.
  intros (_ & Hw) Hsum. apply all_adj_app in Hw as [_ (W1 & W2 & W3 & _)].
  rewrite val_le, Hsum, W1, W2, W3, !(val_fjoin x P). done.
Qed.

Lemma all_adj4_short {A} (Q : A → A → A → A → Prop) (c : list A) :
  length c ≤ 3 → all_adj4 Q c.
Proof. destruct c as [|b [|m1 [|m2 [|e c]]]]; simpl; [done..|lia]. Qed.

Lemma z_backtrack_short (l : list node) (b e' : node) (r c : list node) :
  z_backtrack l b e' r = inl c → length c ≤ 3.
Proof.
  destruct l as [|l1 [|l2 l']]; destruct r as [|r1 [|r2 r']]; simpl;
    intros; simplify_eq/=; lia.
Qed.

Lemma z_backtrack_window (Q : nat → nat → nat → nat → Prop)
  (l : list node) (b e' : node) (r : list node) (z' : zipper) :
  z_backtrack l b e' r = inr z' →
  val (zsum z') = (val (wt (zm1 z')) + val (wt (zm2 z')) + val (wt (ze z')))%R ∧
  (all_adj4 Q (idx <$> (reverse l ++ [b])) →
   all_adj4 Q (idx <$> (reverse (zl z') ++ [zb z'; zm1 z'; zm2 z']))).
Proof.
  destruct l as [|l1 [|l2 l']]; [destruct r as [|r1 [|r2 r']]|destruct r as [|r1 r']|];
    simpl; intros Hz; simplify_eq/=; try (split; [rewrite !val_add, val_zero; lra|done]).
  split; [rewrite !val_add, val_zero; lra|].
  by rewrite !reverse_cons, <- !app_assoc.
Qed.

(** One iteration of the scan keeps what the scan knows. *)
Lemma z_step_ok (x : NumericVector) {p : D} (P : PowerLaw p) (z : zipper) :
  z_ok x P z →
  match z_step x p z with
  | inl c => scanned x P c
  | inr z' => z_ok x P z'
  end.
Proof.
  destruct z as [l b m1 m2 e r s]. unfold z_ok, z_chain, z_step. cbn [zl zb zm1 zm2 ze zr zsum].
  intros (Hc & Hp & H4 & Hsum).
  pose proof (window_test x P (reverse l) b m1 m2 e r s (proj1 Hc) Hsum) as Htest.
  destruct (dle (fjoin x p (idx b) (idx e)) s) eqn:Ed.
  - assert (window_ok x P (idx b) (idx m1) (idx m2) (idx e)) as Hwin by tauto.
    assert (all_adj4 (window_ok x P) (idx <$> reverse l ++ [b; m1; m2; e])) as H4'.
    { rewrite fmap_app in *. by apply all_adj4_snoc. }
    destruct r as [|e' r'].
    + done.
    + unfold z_ok, z_chain. cbn [zl zb zm1 zm2 ze zr zsum].
      rewrite reverse_cons, <- !app_assoc. simpl.
      split_and!; [done|done|done|].
      rewrite val_add, val_sub, Hsum. lra.
  - assert (¬ window_ok x P (idx b) (idx m1) (idx m2) (idx e)) as Hwin.
    { intros Hw%Htest. congruence. }
    destruct (excise_window_ok x P (reverse l) b m1 m2 e r Hc Hp Hwin) as [Hc' Hp'].
    set (e' := mk_node (idx e) (fjoin x p (idx b) (idx e))) in *.
    pose proof (z_backtrack_chain l b e' r) as Ec.
    destruct (z_backtrack l b e' r) as [c|z'] eqn:Eb; simpl in Ec.
    + rewrite Ec. split_and!; [done|done|].
      apply all_adj4_short. rewrite length_fmap, <- Ec.
      by eapply z_backtrack_short.
    + unfold z_ok. unfold z_chain in Ec. rewrite Ec.
      destruct (z_backtrack_window (window_ok x P) l b e' r z' Eb) as [Hs' H4'].
      split_and!; [done|done| |done].
      apply H4'. rewrite fmap_app in *.
      apply (all_adj4_prefix _ _ [idx m1; idx m2]).
      by rewrite <- app_assoc.
Qed.

(** Hence the chain the scan leaves. *)
Lemma z_loop_ok (x : NumericVector) {p : D} (P : PowerLaw p) (fuel : nat)
  (z : zipper) (c : list node) :
  z_ok x P z → z_loop fuel x p z = Some c → scanned x P c.
Proof.
  revert z. induction fuel as [|f IH]; intros z Hz; [done|]. simpl.
  pose proof (z_step_ok x P z Hz) as Hstep.
  destruct (z_step x p z) as [c'|z']; [by intros [= <-]|].
  by apply IH.
Qed.

Lemma short_chain_ok (x : NumericVector) {p : D} (P : PowerLaw p) (c : list node) :
  chain_ok x P c → all_adj3 (peak x) (idx <$> c) →
  scanned x P (short_chain x p c).
Proof.
  intros Hc Hp. unfold short_chain.
  destruct c as [|b [|m1 [|m2 [|e r]]]]; simpl z_open; cbv iota;
    try (split_and!; [done|done|done]).
  set (z := mk_zipper _ _ _ _ _ _ _).
  assert (z_ok x P z) as Hz.
  { split_and!; [done|done|done|]. simpl. rewrite !val_add, val_zero. lra. }
  destruct (z_loop_terminates (S (z_measure z)) x p z ltac:(lia)) as [c' Ec].
  rewrite Ec. simpl. by apply (z_loop_ok x P (S (z_measure z)) z).
Qed.

(** ** Joining two optimal intervals *)

Lemma sorted_lt_le (s : list nat) : StronglySorted lt s → StronglySorted le s.
Proof.
  induction 1 as [|e s _ IH He]; constructor; [done|].
  eapply Forall_impl; [exact He|]. simpl. lia.
Qed.

Lemma sorted_glue (s1 : list nat) (i : nat) (s2 : list nat) :
  StronglySorted lt (s1 ++ [i]) → StronglySorted lt (i :: s2) →
  StronglySorted lt (s1 ++ i :: s2).
Proof.
  intros (Hx & H1 & _)%StronglySorted_app [Hi H2]%StronglySorted_cons.
  apply StronglySorted_app. split_and!; [|done|by constructor].
  intros e1 e2 He1 He2. specialize (Hx e1 i He1 ltac:(left)).
  apply elem_of_cons in He2 as [->|He2]; [done|].
  rewrite Forall_forall in Hi. specialize (Hi _ He2). lia.
Qed.

Lemma psum_app_cons (x : NumericVector) {p : D} (P : PowerLaw p)
  (u : nat) (s1 : list nat) (a : nat) (s2 : list nat) :
  psum x P (u :: s1 ++ a :: s2)
    = (psum x P (u :: s1 ++ [a]) + psum x P (a :: s2))%R.
Proof. apply (psum_app x P (u :: s1) a s2). Qed.

(** Whatever does not span the middle node [v] of two optimal intervals
    loses to the chain; what jumps over [v], from [i] to [j], can win by the
    balance of that jump at most. *)
Lemma bridge (x : NumericVector) {p : D} (P : PowerLaw p)
  (LA : list nat) (v : nat) (LB : list nat) (M : R) :
  StronglySorted lt (LA ++ v :: LB) → all_adj (tight x P) (LA ++ v :: LB) →
  opt x P (LA ++ [v]) → opt x P (v :: LB) → (0 <= M)%R →
  (∀ A1 i A2 B1 j B2, LA = A1 ++ i :: A2 → LB = B1 ++ j :: B2 →
     (jump x P i j
        <= psum x P (i :: A2 ++ [v]) + psum x P (v :: B1 ++ [j]) + M)%R) →
  ∀ a b s, head LA = Some a → last LB = Some b → path a b s →
    (psum x P s <= psum x P (LA ++ v :: LB) + M)%R.
Proof.
  intros Hs Ht HoA HoB HM Hbal a b s Ha Hb Hp.
  pose proof Hs as (Hx & HsA & HsB)%StronglySorted_app.
  pose proof HsB as [HvB HsB']%StronglySorted_cons. rewrite Forall_forall in HvB.
  assert (head (LA ++ v :: LB) = Some a) as Hh by (by destruct LA).
  assert (last (LA ++ v :: LB) = Some b) as Hl.
  { rewrite last_app_cons. destruct LB; [done|]. by rewrite last_cons_cons. }
  assert (a ∈ LA) as HaLA by (destruct LA; [done|]; injection Ha as ->; left).
  assert (b ∈ LB) as HbLB.
  { apply last_Some in Hb as [? ->]. apply elem_of_app. right. left. }
  pose proof (Hx a v HaLA ltac:(left)) as Hav. pose proof (HvB b HbLB) as Hvb.
  apply (bound_by_sublists x P (LA ++ v :: LB) _ Hs Ht) with (a := a) (b := b);
    [|done|done|done].
  clear s Hp. intros s Hsub Hhs Hls. rewrite Hh in Hhs. rewrite Hl in Hls.
  pose proof (sorted_sublist _ _ _ Hsub Hs) as Hss.
  apply sublist_app_r in Hsub as (k1 & k2 & -> & Hk1 & Hk2).
  assert (∀ e, e ∈ k1 → e < v) as Hk1v.
  { intros e He. apply (Hx e v); [by eapply elem_of_sublist|left]. }
  destruct (last k1) as [i|] eqn:Ei; cycle 1.
  { apply last_None in Ei as ->. simpl in Hhs.
    assert (a ∈ v :: LB) as Ha'.
    { eapply elem_of_sublist; [|exact Hk2]. destruct k2; [done|].
      injection Hhs as ->. left. }
    apply elem_of_cons in Ha' as [->|Ha']; [lia|]. specialize (HvB _ Ha'). lia. }
  apply last_Some in Ei as [k1' ->].
  assert (head (k1' ++ [i]) = Some a) as Hhk1.
  { rewrite <- app_assoc in Hhs. by destruct k1'. }
  assert (i ∈ LA) as HiLA.
  { eapply elem_of_sublist; [|exact Hk1]. apply elem_of_app. right. left. }
  apply list_elem_of_split in HiLA as (A1 & A2 & ->).
  assert (StronglySorted lt (k1' ++ [i])) as Hsk1.
  { by apply StronglySorted_app in Hss as (_ & ? & _). }
  assert (StronglySorted lt (i :: A2 ++ [v])) as HsiA.
  { eapply sorted_sublist; [|exact Hs].
    rewrite <- app_assoc. apply sublist_inserts_l. simpl. apply sublist_skip.
    apply sublist_app; [done|]. apply sublist_skip, sublist_nil_l. }
  (* the left part up to [i] loses to the chain up to [i] *)
  assert (psum x P (k1' ++ [i]) <= psum x P (A1 ++ [i]))%R as HleA.
  { assert (path a v (k1' ++ i :: A2 ++ [v])) as Hpa.
    { split_and!.
      - apply sorted_lt_le. by apply sorted_glue.
      - rewrite <- Hhk1. by destruct k1'.
      - by rewrite app_comm_cons, app_assoc, last_snoc. }
    apply (HoA a v) in Hpa; [|by destruct A1|by rewrite last_snoc].
    rewrite <- (app_assoc A1), <- app_comm_cons in Hpa.
    rewrite (psum_app x P k1' i (A2 ++ [v])), (psum_app x P A1 i (A2 ++ [v])) in Hpa.
    lra. }
  apply sublist_cons_r in Hk2 as [Hk2|(k2' & -> & Hk2')].
  - (* the sequence jumps over [v], from [i] to [j] *)
    destruct k2 as [|j k2'].
    { rewrite app_nil_r, last_snoc in Hls. injection Hls as ->.
      specialize (Hk1v b ltac:(apply elem_of_app; right; left)). lia. }
    assert (j ∈ LB) as HjLB by (eapply elem_of_sublist; [|exact Hk2]; left).
    apply list_elem_of_split in HjLB as (B1 & B2 & ->).
    assert (StronglySorted lt (v :: B1 ++ [j])) as HsvB.
    { eapply sorted_sublist; [|exact HsB]. apply sublist_skip.
      apply sublist_app; [done|]. apply sublist_skip, sublist_nil_l. }
    assert (StronglySorted lt (j :: k2')) as Hsk2.
    { by apply StronglySorted_app in Hss as (_ & _ & ?). }
    rewrite last_app_cons in Hls.
    assert (psum x P (j :: k2') <= psum x P (j :: B2))%R as HleB.
    { assert (path v b (v :: B1 ++ j :: k2')) as Hpb.
      { split_and!; [|done|by rewrite app_comm_cons, last_app_cons].
        apply sorted_lt_le. by apply (sorted_glue (v :: B1)). }
      apply (HoB v b) in Hpb; [|done|].
      - rewrite (psum_app_cons x P v B1 j k2'), (psum_app_cons x P v B1 j B2) in Hpb.
        lra.
      - rewrite last_app_cons in Hb. by rewrite app_comm_cons, last_app_cons. }
    rewrite <- !app_assoc. simpl.
    rewrite (psum_app x P k1' i (j :: k2')), psum_cons2.
    rewrite (psum_app x P A1 i (A2 ++ v :: B1 ++ j :: B2)).
    rewrite (psum_app_cons x P i A2 v (B1 ++ j :: B2)).
    rewrite (psum_app_cons x P v B1 j B2).
    pose proof (Hbal A1 i A2 B1 j B2 eq_refl eq_refl). lra.
  - (* the sequence passes through [v] *)
    rewrite last_app_cons in Hls.
    assert (path a v ((k1' ++ [i]) ++ [v])) as Hpa.
    { split_and!; [|by rewrite <- Hhk1; destruct k1'|by rewrite last_snoc].
      apply sorted_lt_le. eapply sorted_sublist; [|exact Hss].
      apply sublist_app; [done|]. apply sublist_skip, sublist_nil_l. }
    assert (path v b (v :: k2')) as Hpb.
    { split_and!; [|done|done]. apply sorted_lt_le.
      by apply StronglySorted_app in Hss as (_ & _ & ?). }
    apply (HoA a v) in Hpa; [|by destruct A1|by rewrite last_snoc].
    apply (HoB v b) in Hpb; [|done|].
    + rewrite (psum_app x P (k1' ++ [i]) v k2').
      rewrite (psum_app x P (A1 ++ i :: A2) v LB). lra.
    + destruct LB; [done|]. by rewrite last_cons_cons.
Qed.

(** ** The candidates of a walk *)

Lemma walk_over_cons (x : NumericVector) (t : pvtemppoint D)
  (vs : list (pvtemppoint D)) (w : walk) :
  walk_over x (t :: vs) w = walk_over x vs (walk_rec x (ev t) (it t) w).
Proof. done. Qed.

Lemma back_walk_visits (x : NumericVector) (cur : node) (rest : list node) (w : walk) :
  back_walk x cur rest w = walk_over x (back_visits cur rest (w_ev w)) w.
Proof.
  revert cur w. induction rest as [|u rest IH]; intros cur w; [done|].
  cbn [back_walk back_visits]. by rewrite walk_over_cons, IH.
Qed.

Lemma forth_walk_visits (x : NumericVector) (rest : list node) (w : walk) :
  forth_walk x rest w = walk_over x (forth_visits rest (w_ev w)) w.
Proof.
  revert w. induction rest as [|u rest IH]; intros w; [done|].
  cbn [forth_walk forth_visits]. by rewrite walk_over_cons, IH.
Qed.

Lemma walk_over_mins (x : NumericVector) (vs : list (pvtemppoint D)) (w : walk) :
  w_mins (walk_over x vs w) = w_mins w ++ records x dlt (w_min w) vs.
Proof.
  revert w. induction vs as [|[i e] vs IH]; intros w.
  { simpl. by rewrite app_nil_r. }
  rewrite walk_over_cons, IH. unfold walk_rec. cbn [w_mins w_min records it ev].
  destruct (dlt (xval x i) (w_min w)); [|done]. by rewrite <- app_assoc.
Qed.

Lemma walk_over_maxs (x : NumericVector) (vs : list (pvtemppoint D)) (w : walk) :
  w_maxs (walk_over x vs w) = w_maxs w ++ records x (λ a b, dlt b a) (w_max w) vs.
Proof.
  revert w. induction vs as [|[i e] vs IH]; intros w.
  { simpl. by rewrite app_nil_r. }
  rewrite walk_over_cons, IH. unfold walk_rec. cbn [w_maxs w_max records it ev].
  destruct (dlt (w_max w) (xval x i)); [|done]. by rewrite <- app_assoc.
Qed.

(** The records, for an order [less] that compares the keys [k]: they are
    visited points below the start, each below the one before, and every
    visited point is either not below the start or not below a record made
    no later. *)
Lemma records_inv (x : NumericVector) (less : D → D → bool) (k : D → R)
  (vs : list (pvtemppoint D)) :
  (∀ a b, less a b = true ↔ (k a < k b)%R) →
  StronglySorted (λ t t', (val (ev t) <= val (ev t'))%R) vs →
  ∀ cur,
    (∀ t, t ∈ records x less cur vs → t ∈ vs ∧ (k (xval x (it t)) < k cur)%R) ∧
    StronglySorted (λ t t', (k (xval x (it t')) < k (xval x (it t)))%R)
      (records x less cur vs) ∧
    (∀ t, t ∈ vs →
       (k cur <= k (xval x (it t)))%R ∨
       ∃ t', t' ∈ records x less cur vs ∧
             (k (xval x (it t')) <= k (xval x (it t)))%R ∧
             (val (ev t') <= val (ev t))%R).
Proof.
  intros Hless. induction 1 as [|t vs Hs IH Ht]; intros cur; simpl.
  { split_and!; [|constructor|]; intros t Ht; by apply elem_of_nil in Ht. }
  rewrite Forall_forall in Ht.
  destruct (less (xval x (it t)) cur) eqn:El.
  - apply Hless in El.
    destruct (IH (xval x (it t))) as (H1 & H2 & H3). split_and!.
    + intros t' [->|Ht']%elem_of_cons; [split; [left|done]|].
      destruct (H1 _ Ht'). split; [by right|lra].
    + constructor; [done|]. apply Forall_forall. intros t' Ht'. by apply H1.
    + intros u [->|Hu]%elem_of_cons.
      * right. exists t. split_and!; [left|lra|lra].
      * destruct (H3 _ Hu) as [Hle|(t' & Ht' & ? & ?)].
        -- right. exists t. split_and!; [left|done|by apply Ht].
        -- right. exists t'. split_and!; [by right|done|done].
  - assert (k cur <= k (xval x (it t)))%R as Hge.
    { destruct (Rle_or_lt (k cur) (k (xval x (it t)))) as [|Hlt]; [done|].
      apply Hless in Hlt. congruence. }
    destruct (IH cur) as (H1 & H2 & H3). split_and!.
    + intros t' Ht'. destruct (H1 _ Ht'). split; [by right|done].
    + done.
    + intros u [->|Hu]%elem_of_cons; [by left|]. by apply H3.
Qed.

(** ** The search for the best joint *)

Lemma val_balance (x : NumericVector) {p : D} (P : PowerLaw p)
  (ait bit : pvtemppoint D) :
  val (dsub (dsub (fjoin x p (it ait) (it bit)) (ev bit)) (ev ait))
    = bal x P ait bit.
Proof. unfold bal. by rewrite !val_sub, (val_fjoin x P). Qed.

(** The inner loop, started at [sbit]: it sees every right point from there
    on, and the points before are beaten by the one it starts at; so it
    ends with a balance that beats the whole right vector, and hands on a
    starting point with the same property for the left points to come. *)
Lemma best_bit_max (x : NumericVector) {p : D} (P : PowerLaw p)
  (Pj : pvtemppoint D → pvtemppoint D → Prop)
  (Ra Rb : relation (pvtemppoint D))
  (ait : pvtemppoint D) (later : list (pvtemppoint D)) :
  (∀ a a' r r', Ra a a' → Rb r r' →
     (bal x P a' r + bal x P a r' <= bal x P a' r' + bal x P a r)%R) →
  StronglySorted Ra (ait :: later) →
  ∀ cur sk mid s,
    StronglySorted Rb (sk ++ mid ++ cur) →
    (∀ r, r ∈ cur → Pj ait r) →
    sv_ok x P Pj s → sbit s = mid ++ cur →
    (∀ r, r ∈ mid → (bal x P ait r <= val (maxbalance s))%R) →
    skipdom x P (ait :: later) sk (sbit s) →
    sv_ok x P Pj (best_bit x p ait cur s) ∧
    (val (maxbalance s) <= val (maxbalance (best_bit x p ait cur s)))%R ∧
    ∃ sk', sk ++ mid ++ cur = sk' ++ sbit (best_bit x p ait cur s) ∧
           skipdom x P (ait :: later) sk' (sbit (best_bit x p ait cur s)) ∧
           ∀ r, r ∈ sk ++ mid ++ cur →
                (bal x P ait r <= val (maxbalance (best_bit x p ait cur s)))%R.
Proof.
  intros HSM HsA. pose proof HsA as [Hlater _]%StronglySorted_cons.
  rewrite Forall_forall in Hlater.
  induction cur as [|bit rest IH]; intros sk mid s HsB HPj Hsv Hsb Hmid Hskip.
  - simpl. rewrite app_nil_r in *. split_and!; [done|lra|].
    exists sk. rewrite Hsb. split_and!; [done|by rewrite <- Hsb|].
    intros r [Hr|Hr]%elem_of_app; [|by apply Hmid].
    destruct Hskip as [->|(h & tl & Eh & Hdom)]; [by apply elem_of_nil in Hr|].
    etrans; [apply (Hdom ait ltac:(left) r Hr)|].
    apply Hmid. rewrite <- Hsb, Eh. left.
  - cbn [best_bit].
    pose proof (val_balance x P ait bit) as Hbal.
    set (balance := dsub (dsub (fjoin x p (it ait) (it bit)) (ev bit)) (ev ait)) in *.
    assert (sk ++ mid ++ bit :: rest = (sk ++ mid) ++ [bit] ++ rest) as Eassoc
      by (by rewrite <- !app_assoc).
    destruct (dlt (maxbalance s) balance) eqn:Hup.
    + apply val_lt in Hup. rewrite Hbal in Hup.
      set (s1 := mk_search balance (fjoin x p (it ait) (it bit)) (Some (ait, bit))
                   (bit :: rest)).
      destruct Hsv as [Hpos Hsv].
      destruct (IH (sk ++ mid) [bit] s1) as (Hsv' & Hle' & sk' & Eq' & Hskip' & Hall').
      * by rewrite <- Eassoc.
      * intros r Hr. apply HPj. by right.
      * split; simpl; [lra|]. split_and!; [apply HPj; left|done|done].
      * done.
      * intros r ->%list_elem_of_singleton. simpl. lra.
      * right. exists bit, rest. split; [done|].
        assert (∀ r, r ∈ sk ++ mid → (bal x P ait r <= bal x P ait bit)%R) as Hait.
        { intros r [Hr|Hr]%elem_of_app.
          - destruct Hskip as [->|(h & tl & Eh & Hdom)];
              [by apply elem_of_nil in Hr|].
            etrans; [apply (Hdom ait ltac:(left) r Hr)|].
            rewrite Hsb in Eh. destruct mid as [|m mid'].
            + injection Eh as <- _. lra.
            + injection Eh as <- _. specialize (Hmid m ltac:(left)). lra.
          - specialize (Hmid r Hr). lra. }
        intros a' [->|Ha']%elem_of_cons r Hr; [by apply Hait|].
        assert (Rb r bit) as Hrb.
        { rewrite Eassoc in HsB. apply StronglySorted_app in HsB as (Hx & _ & _).
          apply Hx; [done|left]. }
        pose proof (HSM ait a' r bit (Hlater _ Ha') Hrb).
        specialize (Hait r Hr). lra.
      * split_and!; [done|simpl in Hle'; lra|].
        exists sk'. rewrite Eassoc. split_and!; [done|done|done].
    + apply dlt_false in Hup. rewrite Hbal in Hup.
      destruct (IH sk (mid ++ [bit]) s) as (Hsv' & Hle' & sk' & Eq' & Hskip' & Hall').
      * by rewrite <- app_assoc.
      * intros r Hr. apply HPj. by right.
      * done.
      * by rewrite <- app_assoc.
      * intros r [Hr| ->%list_elem_of_singleton]%elem_of_app; [by apply Hmid|done].
      * done.
      * rewrite <- !app_assoc in Eq', Hall'. simpl in Eq', Hall'.
        split_and!; [done|done|]. by exists sk'.
Qed.

(** The outer loop: when it is done the balance beats every pair. *)
Lemma best_ait_max (x : NumericVector) {p : D} (P : PowerLaw p)
  (Pj : pvtemppoint D → pvtemppoint D → Prop)
  (Ra Rb : relation (pvtemppoint D)) (bv : list (pvtemppoint D)) :
  (∀ a a' r r', Ra a a' → Rb r r' →
     (bal x P a' r + bal x P a r' <= bal x P a' r' + bal x P a r)%R) →
  StronglySorted Rb bv →
  ∀ av sk s,
    StronglySorted Ra av →
    (∀ a r, a ∈ av → r ∈ bv → Pj a r) →
    sv_ok x P Pj s → bv = sk ++ sbit s → skipdom x P av sk (sbit s) →
    sv_ok x P Pj (best_ait x p av s) ∧
    (val (maxbalance s) <= val (maxbalance (best_ait x p av s)))%R ∧
    ∀ a r, a ∈ av → r ∈ bv →
      (bal x P a r <= val (maxbalance (best_ait x p av s)))%R.
Proof.
  intros HSM HsB. induction av as [|ait later IH]; intros sk s HsA HPj Hsv Ebv Hskip.
  { simpl. split_and!; [done|lra|]. intros a r Ha. by apply elem_of_nil in Ha. }
  cbn [best_ait].
  destruct (best_bit_max x P Pj Ra Rb ait later HSM HsA (sbit s) sk [] s)
    as (Hsv1 & Hle1 & sk1 & Eq1 & Hskip1 & Hall1).
  - simpl. by rewrite <- Ebv.
  - intros r Hr. apply HPj; [left|]. rewrite Ebv. apply elem_of_app. by right.
  - done.
  - done.
  - intros r Hr. by apply elem_of_nil in Hr.
  - done.
  - simpl in Eq1, Hall1. rewrite <- Ebv in Eq1, Hall1.
    set (s1 := best_bit x p ait (sbit s) s) in *.
    pose proof HsA as [_ HsA']%StronglySorted_cons.
    destruct (IH sk1 s1) as (Hsv2 & Hle2 & Hall2); [done| |done|done| |].
    + intros a r Ha Hr. apply HPj; [by right|done].
    + destruct Hskip1 as [->|(h & tl & Eh & Hdom)]; [by left|].
      right. exists h, tl. split; [done|]. intros a' Ha'. apply Hdom. by right.
    + split_and!; [done|lra|].
      intros a r [->|Ha]%elem_of_cons Hr; [|by apply Hall2].
      specialize (Hall1 r Hr). lra.
Qed.

(** ** Parts of an optimal interval *)

Lemma opt_prefix (x : NumericVector) {p : D} (P : PowerLaw p)
  (A1 : list nat) (i : nat) (A2 : list nat) :
  StronglySorted lt (A1 ++ i :: A2) → opt x P (A1 ++ i :: A2) →
  opt x P (A1 ++ [i]).
Proof.
  intros Hs Ho a b s Ha Hb (Hss & Hhs & Hls).
  rewrite last_snoc in Hb. injection Hb as <-.
  apply last_Some in Hls as [s' ->].
  pose proof Hs as (_ & _ & [Hi _]%StronglySorted_cons)%StronglySorted_app.
  rewrite Forall_forall in Hi.
  destruct (last (i :: A2)) as [b|] eqn:Elast; [|by apply last_None in Elast].
  assert (path a b (s' ++ i :: A2)) as Hp.
  { split_and!.
    - apply StronglySorted_app in Hss as (Hx & ? & _).
      apply StronglySorted_app. split_and!; [|done|].
      + intros e1 e2 He1 [ ->|He2]%elem_of_cons.
        * apply Hx; [done|left].
        * specialize (Hx e1 i He1 ltac:(left)). specialize (Hi _ He2). lia.
      + apply sorted_lt_le.
        by apply StronglySorted_app in Hs as (_ & _ & ?).
    - rewrite <- Hhs. by destruct s'.
    - by rewrite last_app_cons. }
  apply (Ho a b) in Hp; [| |by rewrite last_app_cons].
  - rewrite (psum_app x P s' i A2), (psum_app x P A1 i A2) in Hp. lra.
  - rewrite <- Ha. by destruct A1.
Qed.

Lemma opt_suffix (x : NumericVector) {p : D} (P : PowerLaw p)
  (A1 : list nat) (i : nat) (A2 : list nat) :
  StronglySorted lt (A1 ++ i :: A2) → opt x P (A1 ++ i :: A2) →
  opt x P (i :: A2).
Proof.
  intros Hs Ho a b s Ha Hb (Hss & Hhs & Hls).
  injection Ha as <-.
  destruct s as [|i' s']; [done|]. injection Hhs as ->.
  pose proof Hs as (Hx & HsA & _)%StronglySorted_app.
  pose proof Hss as [Hi _]%StronglySorted_cons. rewrite Forall_forall in Hi.
  destruct (head (A1 ++ i :: s')) as [a|] eqn:Ehead; [|by destruct A1].
  assert (path a b (A1 ++ i :: s')) as Hp.
  { split_and!; [|done|by rewrite last_app_cons].
    apply StronglySorted_app. split_and!; [|by apply sorted_lt_le|done].
    intros e1 e2 He1 [ ->|He2]%elem_of_cons.
    - specialize (Hx e1 i He1 ltac:(left)). lia.
    - specialize (Hx e1 i He1 ltac:(left)). specialize (Hi _ He2). lia. }
  apply (Ho a b) in Hp; [| |by rewrite last_app_cons].
  - rewrite (psum_app x P A1 i s'), (psum_app x P A1 i A2) in Hp. lra.
  - rewrite <- Ehead. by destruct A1.
Qed.

(** Inside an optimal interval the chain beats the direct jump. *)
Lemma opt_jump (x : NumericVector) {p : D} (P : PowerLaw p) (i : nat)
  (A : list nat) (j : nat) :
  StronglySorted lt (i :: A ++ [j]) → opt x P (i :: A ++ [j]) →
  (jump x P i j <= psum x P (i :: A ++ [j]))%R.
Proof.
  intros Hs Ho.
  assert (path i j [i; j]) as Hp.
  { split_and!; [|done|done]. apply StronglySorted_cons in Hs as [Hi _].
    apply Forall_app in Hi as [_ [? _]%Forall_cons].
    repeat constructor. lia. }
  apply (Ho i j) in Hp; [|done|by rewrite app_comm_cons, last_snoc].
  change (psum x P [i; j]) with (jump x P i j + 0)%R in Hp. lra.
Qed.

(** ** The points a walk visits *)

Lemma forth_visits_spec (x : NumericVector) {p : D} (P : PowerLaw p)
  (rest : list node) :
  ∀ (prev : node) (ev0 : D),
    all_adj (λ u w, wt w = fjoin x p (idx u) (idx w)) (prev :: rest) →
    (∀ t, t ∈ forth_visits rest ev0 →
       ∃ B1 u B2, rest = B1 ++ u :: B2 ∧ it t = idx u ∧
         val (ev t) = (val ev0 + psum x P (idx <$> prev :: B1 ++ [u]))%R) ∧
    (∀ B1 u B2, rest = B1 ++ u :: B2 →
       ∃ t, t ∈ forth_visits rest ev0 ∧ it t = idx u ∧
         val (ev t) = (val ev0 + psum x P (idx <$> prev :: B1 ++ [u]))%R) ∧
    StronglySorted (λ t t', (val (ev t) <= val (ev t'))%R) (forth_visits rest ev0) ∧
    Forall (λ t, (val ev0 <= val (ev t))%R) (forth_visits rest ev0).
Proof.
  induction rest as [|u0 rest IH]; intros prev ev0 Hw.
  { split_and!; [|intros [|??] ?? ?; done|constructor|constructor].
    intros t Ht. by apply elem_of_nil in Ht. }
  destruct Hw as [Hw0 Hw]. cbn [forth_visits].
  set (ev1 := dadd ev0 (wt u0)).
  assert (val ev1 = val ev0 + jump x P (idx prev) (idx u0))%R as Hev1.
  { unfold ev1. by rewrite val_add, Hw0, (val_fjoin x P). }
  pose proof (jump_nonneg x P (idx prev) (idx u0)) as Hnn.
  destruct (IH u0 ev1 Hw) as (H1 & H2 & H3 & H4).
  split_and!.
  - intros t [ ->|Ht]%elem_of_cons.
    + exists [], u0, rest. split_and!; [done|done|]. simpl. lra.
    + destruct (H1 t Ht) as (B1 & u & B2 & -> & Hit & Hev).
      exists (u0 :: B1), u, B2. split_and!; [done|done|].
      rewrite Hev, Hev1. simpl "++". rewrite !fmap_cons, psum_cons2. lra.
  - intros [|u0' B1] u B2 Eq; simplify_eq/=.
    + eexists. split; [left|]. split; [done|]. simpl. lra.
    + destruct (H2 B1 u B2 eq_refl) as (t & Ht & Hit & Hev).
      exists t. split_and!; [by right|done|].
      rewrite Hev, Hev1. lra.
  - constructor; [done|]. eapply Forall_impl; [exact H4|]. simpl. intros; lra.
  - constructor; [simpl; lra|]. eapply Forall_impl; [exact H4|]. simpl. intros; lra.
Qed.

Lemma back_visits_spec (x : NumericVector) {p : D} (P : PowerLaw p)
  (rest : list node) :
  ∀ (cur : node) (ev0 : D),
    all_adj (λ u w, wt w = fjoin x p (idx u) (idx w)) (reverse rest ++ [cur]) →
    (∀ t, t ∈ back_visits cur rest ev0 →
       ∃ R1 u R2, rest = R1 ++ u :: R2 ∧ it t = idx u ∧
         val (ev t) = (val ev0 + psum x P (idx <$> u :: reverse R1 ++ [cur]))%R) ∧
    (∀ R1 u R2, rest = R1 ++ u :: R2 →
       ∃ t, t ∈ back_visits cur rest ev0 ∧ it t = idx u ∧
         val (ev t) = (val ev0 + psum x P (idx <$> u :: reverse R1 ++ [cur]))%R) ∧
    StronglySorted (λ t t', (val (ev t) <= val (ev t'))%R) (back_visits cur rest ev0) ∧
    Forall (λ t, (val ev0 <= val (ev t))%R) (back_visits cur rest ev0).
Proof.
  induction rest as [|u0 rest IH]; intros cur ev0 Hw.
  { split_and!; [|intros [|??] ?? ?; done|constructor|constructor].
    intros t Ht. by apply elem_of_nil in Ht. }
  rewrite reverse_cons, <- app_assoc in Hw. simpl in Hw.
  apply all_adj_app in Hw as [Hw [Hw0 _]]. cbn [back_visits].
  set (ev1 := dadd ev0 (wt cur)).
  assert (val ev1 = val ev0 + jump x P (idx u0) (idx cur))%R as Hev1.
  { unfold ev1. by rewrite val_add, Hw0, (val_fjoin x P). }
  pose proof (jump_nonneg x P (idx u0) (idx cur)) as Hnn.
  destruct (IH u0 ev1 Hw) as (H1 & H2 & H3 & H4).
  assert (∀ R1 u, psum x P (idx <$> u :: reverse (u0 :: R1) ++ [cur])
            = psum x P (idx <$> u :: reverse R1 ++ [u0])
              + jump x P (idx u0) (idx cur))%R as Hsum.
  { intros R1 u.
    replace (u :: reverse (u0 :: R1) ++ [cur])
      with ((u :: reverse R1 ++ [u0]) ++ [cur])
      by (by rewrite reverse_cons).
    rewrite (fmap_app idx _ [cur]).
    apply (psum_snoc x P _ (idx cur) (idx u0)).
    by rewrite fmap_last, app_comm_cons, last_snoc. }
  split_and!.
  - intros t [ ->|Ht]%elem_of_cons.
    + exists [], u0, rest. split_and!; [done|done|]. simpl. lra.
    + destruct (H1 t Ht) as (R1 & u & R2 & -> & Hit & Hev).
      exists (u0 :: R1), u, R2. split_and!; [done|done|].
      rewrite Hev, Hev1, Hsum. lra.
  - intros [|u0' R1] u R2 Eq; simplify_eq/=.
    + eexists. split; [left|]. split; [done|]. simpl. lra.
    + destruct (H2 R1 u R2 eq_refl) as (t & Ht & Hit & Hev).
      exists t. split_and!; [by right|done|].
      rewrite Hev, Hev1, Hsum. lra.
  - constructor; [done|]. eapply Forall_impl; [exact H4|]. simpl. intros; lra.
  - constructor; [simpl; lra|]. eapply Forall_impl; [exact H4|]. simpl. intros; lra.
Qed.

Lemma sorted_with {A} (R R' : relation A) (l : list A) :
  StronglySorted R l →
  (∀ a a', a ∈ l → a' ∈ l → R a a' → R' a a') →
  StronglySorted R' l.
Proof.
  induction 1 as [|a l Hs IH Ha]; intros HR; constructor.
  - apply IH. intros b b' Hb Hb'. apply HR; by right.
  - rewrite Forall_forall in *. intros b Hb. apply HR; [left|by right|by apply Ha].
Qed.

(** The two searches of [Merge2GoodInt], over the records of two walks from
    [v]: the balance they end with beats every pair of visited points, as
    soon as no visited point on its own beats the chain back to [v]. *)
Lemma search_value (x : NumericVector) {p : D} (P : PowerLaw p) (v : nat)
  (Avis Bvis : list (pvtemppoint D)) :
  StronglySorted (λ t t', (val (ev t) <= val (ev t'))%R) Avis →
  StronglySorted (λ t t', (val (ev t) <= val (ev t'))%R) Bvis →
  (∀ t, t ∈ Avis → (jump x P (it t) v <= val (ev t))%R) →
  (∀ t, t ∈ Bvis → (jump x P v (it t) <= val (ev t))%R) →
  let mins_a := records x dlt (xval x v) Avis in
  let maxs_a := records x (λ a b, dlt b a) (xval x v) Avis in
  let mins_b := records x dlt (xval x v) Bvis in
  let maxs_b := records x (λ a b, dlt b a) (xval x v) Bvis in
  let s1 := best_ait x p mins_a (mk_search dzero dzero None maxs_b) in
  let s2 := best_ait x p maxs_a
              (mk_search (maxbalance s1) (takefjoin s1) (tjoin s1) mins_b) in
  sv_ok x P (λ ta tb, ta ∈ Avis ∧ tb ∈ Bvis) s2 ∧
  ∀ ta tb, ta ∈ Avis → tb ∈ Bvis → (bal x P ta tb <= val (maxbalance s2))%R.
Proof.
  intros HsA HsB HUa HUb mins_a maxs_a mins_b maxs_b s1 s2.
  set (Pj := λ ta tb : pvtemppoint D, ta ∈ Avis ∧ tb ∈ Bvis).
  assert (∀ a b, dlt a b = true ↔ (val a < val b)%R) as Hlt by apply val_lt.
  assert (∀ a b, (λ a b, dlt b a) a b = true ↔ (- val a < - val b)%R) as Hgt.
  { intros a b. simpl. rewrite val_lt. split; lra. }
  destruct (records_inv x dlt val Avis Hlt HsA (xval x v)) as (A1 & A2 & A3).
  destruct (records_inv x _ (λ d, (- val d)%R) Avis Hgt HsA (xval x v)) as (A1' & A2' & A3').
  destruct (records_inv x dlt val Bvis Hlt HsB (xval x v)) as (B1 & B2 & B3).
  destruct (records_inv x _ (λ d, (- val d)%R) Bvis Hgt HsB (xval x v)) as (B1' & B2' & B3').
  fold mins_a in A1, A2, A3. fold maxs_a in A1', A2', A3'.
  fold mins_b in B1, B2, B3. fold maxs_b in B1', B2', B3'.
  fold (xr x v) in *.
  (* the first search: minima on the left, maxima on the right *)
  destruct (best_ait_max x P Pj
              (λ a a', (xr x (it a') <= xr x (it a) ∧ xr x (it a) <= xr x v)%R)
              (λ r r', (xr x v <= xr x (it r) ∧ xr x (it r) <= xr x (it r'))%R)
              maxs_b) with (av := mins_a) (sk := @nil (pvtemppoint D))
              (s := mk_search dzero dzero None maxs_b)
    as (Hsv1 & Hle1 & Hall1).
  { intros a a' r r' [? ?] [? ?]. unfold bal.
    pose proof (jump_quad x P (it a') (it a) (it r) (it r') ltac:(left; lra)). lra. }
  { eapply sorted_with; [exact B2'|]. intros r r' Hr Hr' Hlt'.
    destruct (B1' _ Hr) as [_ ?]. unfold xr in *. lra. }
  { eapply sorted_with; [exact A2|]. intros a a' Ha Ha' Hlt'.
    destruct (A1 _ Ha) as [_ ?]. unfold xr in *. lra. }
  { intros a r Ha Hr. split; [by apply A1|by apply B1']. }
  { split; simpl; rewrite val_zero; [lra|done]. }
  { done. }
  { by left. }
  fold s1 in Hsv1, Hle1, Hall1.
  (* the second search: maxima on the left, minima on the right *)
  destruct (best_ait_max x P Pj
              (λ a a', (xr x v <= xr x (it a) ∧ xr x (it a) <= xr x (it a'))%R)
              (λ r r', (xr x (it r') <= xr x (it r) ∧ xr x (it r) <= xr x v)%R)
              mins_b) with (av := maxs_a) (sk := @nil (pvtemppoint D))
              (s := mk_search (maxbalance s1) (takefjoin s1) (tjoin s1) mins_b)
    as (Hsv2 & Hle2 & Hall2).
  { intros a a' r r' [? ?] [? ?]. unfold bal.
    pose proof (jump_quad x P (it a') (it a) (it r) (it r') ltac:(right; lra)). lra. }
  { eapply sorted_with; [exact B2|]. intros r r' Hr Hr' Hlt'.
    destruct (B1 _ Hr) as [_ ?]. unfold xr in *. lra. }
  { eapply sorted_with; [exact A2'|]. intros a a' Ha Ha' Hlt'.
    destruct (A1' _ Ha) as [_ ?]. unfold xr in *. lra. }
  { intros a r Ha Hr. split; [by apply A1'|by apply B1]. }
  { exact Hsv1. }
  { done. }
  { by left. }
  fold s2 in Hsv2, Hle2, Hall2. simpl in Hle2.
  split; [done|].
  (* every pair is covered *)
  intros ta tb Hta Htb.
  pose proof (HUa _ Hta) as Ua. pose proof (HUb _ Htb) as Ub.
  assert (0 <= val (ev ta) ∧ 0 <= val (ev tb))%R as [Hea Heb].
  { pose proof (jump_nonneg x P (it ta) v). pose proof (jump_nonneg x P v (it tb)). lra. }
  destruct Hsv2 as [Hpos2 _]. unfold bal.
  destruct (Rle_or_lt (xr x (it ta)) (xr x (it tb))) as [Hab|Hab].
  - destruct (A3 _ Hta) as [Hca|(ta' & Hta' & Hxa & Heva)].
    { assert (jump x P (it ta) (it tb) <= jump x P v (it tb))%R.
      { apply jump_mono. unfold xr in *. rewrite !Rabs_left1 by lra. lra. }
      lra. }
    destruct (B3' _ Htb) as [Hcb|(tb' & Htb' & Hxb & Hevb)].
    { assert (jump x P (it ta) (it tb) <= jump x P (it ta) v)%R.
      { apply jump_mono. unfold xr in *. rewrite !Rabs_left1 by lra. lra. }
      lra. }
    assert (jump x P (it ta) (it tb) <= jump x P (it ta') (it tb'))%R.
    { apply jump_mono. unfold xr in *. rewrite !Rabs_left1 by lra. lra. }
    specialize (Hall1 ta' tb' Hta' Htb'). unfold bal in Hall1. lra.
  - destruct (A3' _ Hta) as [Hca|(ta' & Hta' & Hxa & Heva)].
    { assert (jump x P (it ta) (it tb) <= jump x P v (it tb))%R.
      { apply jump_mono. unfold xr in *. rewrite !Rabs_right by lra. lra. }
      lra. }
    destruct (B3 _ Htb) as [Hcb|(tb' & Htb' & Hxb & Hevb)].
    { assert (jump x P (it ta) (it tb) <= jump x P (it ta) v)%R.
      { apply jump_mono. unfold xr in *. rewrite !Rabs_right by lra. lra. }
      lra. }
    assert (jump x P (it ta) (it tb) <= jump x P (it ta') (it tb'))%R.
    { apply jump_mono. unfold xr in *. rewrite !Rabs_right by lra. lra. }
    specialize (Hall2 ta' tb' Hta' Htb'). unfold bal in Hall2. lra.
Qed.

(** ** What a merge achieves *)

Lemma all_adj_prefix {A} (Q : A → A → Prop) (l1 l2 : list A) :
  all_adj Q (l1 ++ l2) → all_adj Q l1.
Proof.
  induction l1 as [|u [|w l1] IH]; simpl; try done.
  intros [? ?]. split; [done|]. by apply IH.
Qed.

Lemma all_adj_suffix {A} (Q : A → A → Prop) (l1 l2 : list A) :
  all_adj Q (l1 ++ l2) → all_adj Q l2.
Proof.
  induction l1 as [|u [|w l1] IH]; simpl; try done.
  - destruct l2; [done|]. by intros [_ ?].
  - intros [_ ?]. by apply IH.
Qed.

Lemma best_joint_records (x : NumericVector) (p : D)
  (pre : list node) (na : node) (m1 : list node) (nv : node) (m2 : list node)
  (nb : node) (post : list node) :
  StronglySorted lt (idx <$> (pre ++ na :: m1 ++ nv :: m2 ++ nb :: post)) →
  best_joint x p (pre ++ na :: m1 ++ nv :: m2 ++ nb :: post)
    (idx na) (idx nv) (idx nb)
  = joint_search x p (idx nv)
      (back_visits nv (reverse (na :: m1)) dzero)
      (forth_visits (m2 ++ [nb]) dzero).
Proof.
  intros Hs. unfold best_joint.
  rewrite (seg_sorted pre na m1 nv (m2 ++ nb :: post) Hs).
  assert (seg (idx nv) (idx nb) (pre ++ na :: m1 ++ nv :: m2 ++ nb :: post)
          = nv :: m2 ++ [nb]) as ->.
  { replace (pre ++ na :: m1 ++ nv :: m2 ++ nb :: post)
      with ((pre ++ na :: m1) ++ nv :: m2 ++ nb :: post) by (by norm_app).
    apply seg_sorted. by norm_app. }
  rewrite app_comm_cons, reverse_app, reverse_singleton.
  cbn [app tail]. rewrite back_walk_visits, forth_walk_visits.
  rewrite !walk_over_mins, !walk_over_maxs. done.
Qed.

Lemma back_visits_chain (x : NumericVector) {p : D} (P : PowerLaw p)
  (LA : list node) (nv : node) :
  all_adj (λ u w, wt w = fjoin x p (idx u) (idx w)) (LA ++ [nv]) →
  (∀ t, t ∈ back_visits nv (reverse LA) dzero →
     ∃ A1 l A2, LA = A1 ++ l :: A2 ∧ it t = idx l ∧
       val (ev t) = psum x P (idx <$> l :: A2 ++ [nv])) ∧
  (∀ A1 l A2, LA = A1 ++ l :: A2 →
     ∃ t, t ∈ back_visits nv (reverse LA) dzero ∧ it t = idx l ∧
       val (ev t) = psum x P (idx <$> l :: A2 ++ [nv])) ∧
  StronglySorted (λ t t', (val (ev t) <= val (ev t'))%R)
    (back_visits nv (reverse LA) dzero).
Proof.
  intros Hw.
  destruct (back_visits_spec x P (reverse LA) nv dzero) as (H1 & H2 & H3 & _).
  { by rewrite reverse_involutive. }
  split_and!; [| |done].
  - intros t Ht. destruct (H1 t Ht) as (R1 & u & R2 & Eq & Hit & Hev).
    exists (reverse R2), u, (reverse R1). split_and!; [|done|].
    + rewrite <- (reverse_involutive LA), Eq.
      by rewrite reverse_app, reverse_cons, <- app_assoc.
    + rewrite Hev, val_zero. lra.
  - intros A1 l A2 ->.
    destruct (H2 (reverse A2) l (reverse A1)) as (t & Ht & Hit & Hev).
    { by rewrite reverse_app, reverse_cons, <- app_assoc. }
    exists t. split_and!; [done|done|].
    rewrite Hev, val_zero, reverse_involutive. lra.
Qed.

(** The search of a merge ends with the largest balance of any jump over
    [v]. *)
Lemma joint_balance (x : NumericVector) {p : D} (P : PowerLaw p)
  (LA : list node) (nv : node) (LB : list node) :
  StronglySorted lt (idx <$> LA ++ nv :: LB) →
  all_adj (λ u w, wt w = fjoin x p (idx u) (idx w)) (LA ++ nv :: LB) →
  opt x P (idx <$> LA ++ [nv]) → opt x P (idx <$> nv :: LB) →
  let Avis := back_visits nv (reverse LA) dzero in
  let Bvis := forth_visits LB dzero in
  let s := joint_search x p (idx nv) Avis Bvis in
  sv_ok x P (λ ta tb, ta ∈ Avis ∧ tb ∈ Bvis) s ∧
  (∀ A1 i A2 B1 j B2,
     idx <$> LA = A1 ++ i :: A2 → idx <$> LB = B1 ++ j :: B2 →
     (jump x P i j
        <= psum x P (i :: A2 ++ [idx nv]) + psum x P (idx nv :: B1 ++ [j])
           + val (maxbalance s))%R).
Proof.
  intros Hs Hw HoA HoB Avis Bvis s.
  assert (all_adj (λ u w, wt w = fjoin x p (idx u) (idx w)) (LA ++ [nv])) as HwA.
  { apply (all_adj_prefix _ _ LB). by rewrite <- app_assoc. }
  assert (all_adj (λ u w, wt w = fjoin x p (idx u) (idx w)) (nv :: LB)) as HwB.
  { by apply all_adj_suffix in Hw. }
  destruct (back_visits_chain x P LA nv HwA) as (HA1 & HA2 & HA3).
  destruct (forth_visits_spec x P LB nv dzero HwB) as (HB1 & HB2 & HB3 & _).
  fold Avis in HA1, HA2, HA3. fold Bvis in HB1, HB2, HB3.
  assert (StronglySorted lt (idx <$> LA ++ [nv])) as HsA.
  { eapply sorted_sublist; [|exact Hs]. rewrite !fmap_app.
    apply sublist_app; [done|]. simpl. apply sublist_skip, sublist_nil_l. }
  assert (StronglySorted lt (idx <$> nv :: LB)) as HsB.
  { rewrite fmap_app in Hs. by apply StronglySorted_app in Hs as (_ & _ & ?). }
  assert (sv_ok x P (λ ta tb, ta ∈ Avis ∧ tb ∈ Bvis) s ∧
          ∀ ta tb, ta ∈ Avis → tb ∈ Bvis →
            (bal x P ta tb <= val (maxbalance s))%R) as [Hsv Hall];
    [apply (search_value x P (idx nv) Avis Bvis HA3 HB3)|].
  - intros t Ht. destruct (HA1 t Ht) as (A1 & l & A2 & -> & -> & ->).
    assert (idx <$> (A1 ++ l :: A2) ++ [nv]
            = (idx <$> A1) ++ idx l :: (idx <$> A2) ++ [idx nv]) as EqA.
    { by rewrite !fmap_app, <- app_assoc. }
    rewrite EqA in HsA, HoA.
    apply opt_suffix in HoA; [|done].
    apply StronglySorted_app in HsA as (_ & _ & HsA).
    assert (idx <$> l :: A2 ++ [nv] = idx l :: (idx <$> A2) ++ [idx nv]) as ->.
    { by rewrite fmap_cons, fmap_app. }
    by apply opt_jump.
  - intros t Ht. destruct (HB1 t Ht) as (B1 & r & B2 & -> & -> & ->).
    rewrite val_zero, Rplus_0_l.
    assert (idx <$> nv :: B1 ++ r :: B2
            = (idx nv :: (idx <$> B1)) ++ idx r :: (idx <$> B2)) as EqB.
    { by rewrite fmap_cons, fmap_app. }
    rewrite EqB in HsB, HoB.
    apply opt_prefix in HoB; [|done].
    assert (idx <$> nv :: B1 ++ [r] = idx nv :: (idx <$> B1) ++ [idx r]) as ->.
    { by rewrite fmap_cons, fmap_app. }
    apply opt_jump; [|done].
    eapply sorted_sublist; [|exact HsB]. simpl. apply sublist_skip.
    apply sublist_app; [done|]. apply sublist_skip, sublist_nil_l.
  - split; [done|].
    intros A1 i A2 B1 j B2 EA EB.
    apply fmap_app_inv in EA as (A1n & A2n' & -> & EA2 & ->).
    symmetry in EA2. apply fmap_cons_inv in EA2 as (l & A2n & -> & -> & ->).
    apply fmap_app_inv in EB as (B1n & B2n' & -> & EB2 & ->).
    symmetry in EB2. apply fmap_cons_inv in EB2 as (r & B2n & -> & -> & ->).
    destruct (HA2 A1n l A2n eq_refl) as (ta & Hta & Hita & Heva).
    destruct (HB2 B1n r B2n eq_refl) as (tb & Htb & Hitb & Hevb).
    specialize (Hall ta tb Hta Htb). unfold bal in Hall.
    rewrite Hita, Hitb, Heva, Hevb, val_zero in Hall.
    rewrite !fmap_cons, !fmap_app in Hall.
    change (idx <$> [nv]) with [idx nv] in Hall.
    change (idx <$> [r]) with [idx r] in Hall. lra.
Qed.

(** The joint with the largest balance: the edge that replaces what lies
    between its ends is tight, and the interval so shortened is optimal. *)
Lemma join_opt (x : NumericVector) {p : D} (P : PowerLaw p)
  (A1 : list nat) (l : nat) (A2 : list nat) (v : nat)
  (B1 : list nat) (r : nat) (B2 : list nat) (M : R) :
  StronglySorted lt ((A1 ++ l :: A2) ++ v :: B1 ++ r :: B2) →
  all_adj (tight x P) ((A1 ++ l :: A2) ++ v :: B1 ++ r :: B2) →
  opt x P ((A1 ++ l :: A2) ++ [v]) → opt x P (v :: B1 ++ r :: B2) →
  (∀ A1' i A2' B1' j B2',
     A1 ++ l :: A2 = A1' ++ i :: A2' → B1 ++ r :: B2 = B1' ++ j :: B2' →
     (jump x P i j
        <= psum x P (i :: A2' ++ [v]) + psum x P (v :: B1' ++ [j]) + M)%R) →
  (0 < M)%R →
  M = (jump x P l r - psum x P (v :: B1 ++ [r]) - psum x P (l :: A2 ++ [v]))%R →
  tight x P l r ∧ opt x P (A1 ++ l :: r :: B2).
Proof.
  intros Hs Ht HoA HoB Hbal HM EM.
  assert (StronglySorted lt ((l :: A2) ++ v :: B1 ++ [r])) as Hs'.
  { eapply sorted_sublist; [|exact Hs]. rewrite <- app_assoc.
    apply sublist_inserts_l. simpl. apply sublist_skip.
    apply sublist_app; [done|]. apply sublist_skip.
    apply sublist_app; [done|]. apply sublist_skip, sublist_nil_l. }
  assert (opt x P ((l :: A2) ++ [v])) as HoA'.
  { rewrite <- app_assoc in HoA, Hs. simpl in HoA.
    apply (opt_suffix x P A1 l (A2 ++ [v])); [|done].
    eapply sorted_sublist; [|exact Hs].
    apply sublist_app; [done|]. simpl. apply sublist_skip.
    apply sublist_app; [done|]. apply sublist_skip, sublist_nil_l. }
  assert (opt x P (v :: B1 ++ [r])) as HoB'.
  { apply (opt_prefix x P (v :: B1) r B2); [|done].
    by apply StronglySorted_app in Hs as (_ & _ & ?). }
  split.
  - (* the new edge *)
    intros s Hp.
    pose proof (bridge x P (l :: A2) v (B1 ++ [r]) M Hs') as Hbr.
    rewrite (psum_app x P (l :: A2) v (B1 ++ [r])) in Hbr.
    enough (psum x P s <= psum x P (l :: A2 ++ [v]) + psum x P (v :: B1 ++ [r]) + M)%R
      by lra.
    apply (Hbr) with (a := l) (b := r); [|done|done|lra| |done|by rewrite last_snoc|done].
    + assert ((A1 ++ l :: A2) ++ v :: B1 ++ r :: B2
              = A1 ++ ((l :: A2) ++ v :: B1 ++ [r]) ++ B2) as Eq by (by norm_app).
      rewrite Eq in Ht. apply all_adj_suffix in Ht. by apply all_adj_prefix in Ht.
    + intros A1' i A2' B1' j B2' EA EB.
      apply (Hbal (A1 ++ A1') i A2' B1' j (B2' ++ B2)).
      * by rewrite <- app_assoc, <- EA.
      * rewrite app_comm_cons, app_assoc, <- EB. by rewrite <- app_assoc.
  - (* the interval *)
    intros a b s Hh Hl Hp.
    pose proof (bridge x P (A1 ++ l :: A2) v (B1 ++ r :: B2) M Hs Ht HoA HoB
                  ltac:(lra) Hbal a b s) as Hbr.
    rewrite (psum_app x P (A1 ++ l :: A2) v (B1 ++ r :: B2)) in Hbr.
    rewrite <- (app_assoc A1) in Hbr.
    change ((l :: A2) ++ [v]) with (l :: A2 ++ [v]) in Hbr.
    rewrite (psum_app x P A1 l (A2 ++ [v])) in Hbr.
    rewrite (psum_app_cons x P v B1 r B2) in Hbr.
    rewrite (psum_app x P A1 l (r :: B2)), psum_cons2.
    enough (psum x P s <= psum x P (A1 ++ [l]) + psum x P (l :: A2 ++ [v])
                          + (psum x P (v :: B1 ++ [r]) + psum x P (r :: B2)) + M)%R
      by lra.
    apply Hbr; [| |done].
    + rewrite <- Hh. by destruct A1.
    + rewrite <- Hl. by rewrite !last_app_cons.
Qed.

Lemma seg_idx (a b : nat) (c : list node) :
  idx <$> seg a b c = filter (λ i, a ≤ i ∧ i ≤ b) (idx <$> c).
Proof.
  unfold seg. induction c as [|nd c IH]; [done|].
  rewrite fmap_cons, !filter_cons. simpl.
  destruct (decide (a ≤ idx nd ∧ idx nd ≤ b)); by rewrite ?fmap_cons, IH.
Qed.

Lemma excise_idx (pre : list node) (l : node) (mid : list node) (r : node)
  (post : list node) (f : D) :
  StronglySorted lt (idx <$> (pre ++ l :: mid ++ r :: post)) →
  idx <$> (pre ++ l :: mk_node (idx r) f :: post)
  = filter (λ i, i ≤ idx l ∨ idx r ≤ i) (idx <$> (pre ++ l :: mid ++ r :: post)).
Proof.
  intros Hs.
  destruct (sorted_split _ _ _ Hs) as (Fpre & Fpost1 & _ & Spost1).
  destruct (sorted_split _ _ _ Spost1) as (Fmid & Fpost & _ & _).
  apply Forall_app in Fpost1 as [Fmid' [Hab Fpost']%Forall_cons].
  rewrite !fmap_app, !fmap_cons, !fmap_app, !fmap_cons.
  rewrite filter_app, filter_cons_True by lia.
  rewrite filter_app, filter_cons_True by lia.
  rewrite (filter_all _ (idx <$> pre)), (filter_none _ (idx <$> mid)),
    (filter_all _ (idx <$> post)); [done|..].
  - apply Forall_fmap. eapply Forall_impl; [exact Fpost|]. simpl. intros; lia.
  - apply Forall_fmap. eapply Forall_impl;
      [apply Forall_and; split; [exact Fmid|exact Fmid']|]. simpl. intros; lia.
  - apply Forall_fmap. eapply Forall_impl; [exact Fpre|]. simpl. intros; lia.
Qed.

(** What [Merge2GoodInt] does to two optimal intervals that meet at [v]:
    it leaves a chain with exact weights and tight edges in which the two
    together are one optimal interval, and has only removed nodes that were
    strictly inside. *)
Lemma merge2_value (x : NumericVector) {p : D} (P : PowerLaw p)
  (pre : list node) (na : node) (m1 : list node) (nv : node) (m2 : list node)
  (nb : node) (post : list node) :
  chain_ok x P (pre ++ na :: m1 ++ nv :: m2 ++ nb :: post) →
  opt x P (idx <$> na :: m1 ++ [nv]) → opt x P (idx <$> nv :: m2 ++ [nb]) →
  ∃ X l r,
    merge2 x p (pre ++ na :: m1 ++ nv :: m2 ++ nb :: post)
      (idx na) (idx nv) (idx nb) = pre ++ X ++ post ∧
    chain_ok x P (pre ++ X ++ post) ∧
    opt x P (idx <$> X) ∧
    idx <$> X `sublist_of` idx <$> (na :: m1 ++ nv :: m2 ++ [nb]) ∧
    head (idx <$> X) = Some (idx na) ∧ last (idx <$> X) = Some (idx nb) ∧
    idx na ≤ l ∧ r ≤ idx nb ∧
    idx <$> (pre ++ X ++ post)
    = filter (λ i, i ≤ l ∨ r ≤ i)
        (idx <$> (pre ++ na :: m1 ++ nv :: m2 ++ nb :: post)).
Proof.
  intros Hc HoA HoB. pose proof Hc as ((Hhd & Hw) & Hs & Ht).
  assert (pre ++ na :: m1 ++ nv :: m2 ++ nb :: post
          = pre ++ ((na :: m1) ++ nv :: m2 ++ [nb]) ++ post) as Ec by (by norm_app).
  (* the two intervals, as a chain of their own *)
  assert (StronglySorted lt (idx <$> (na :: m1) ++ nv :: m2 ++ [nb])) as HsX.
  { eapply sorted_sublist; [|exact Hs]. rewrite Ec, !fmap_app.
    apply sublist_inserts_l, sublist_inserts_r. by rewrite <- fmap_app. }
  assert (all_adj (λ u w, wt w = fjoin x p (idx u) (idx w))
            ((na :: m1) ++ nv :: m2 ++ [nb])) as HwX.
  { rewrite Ec in Hw. apply all_adj_suffix in Hw. by apply all_adj_prefix in Hw. }
  assert (all_adj (tight x P) (idx <$> (na :: m1) ++ nv :: m2 ++ [nb])) as HtX.
  { rewrite Ec, !(fmap_app idx pre), (fmap_app idx _ post) in Ht.
    apply all_adj_suffix in Ht. by apply all_adj_prefix in Ht. }
  assert (idx na < idx nv ∧ idx nv < idx nb) as [Hav Hvb].
  { rewrite fmap_app, fmap_cons in HsX.
    apply StronglySorted_app in HsX as (Hx & _ & [Hv _]%StronglySorted_cons).
    split; [apply Hx; [left|left]|].
    rewrite Forall_forall in Hv. apply Hv.
    apply (list_elem_of_fmap_2 idx). apply elem_of_app. right. left. }
  destruct (joint_balance x P (na :: m1) nv (m2 ++ [nb]) HsX HwX HoA HoB)
    as [[Hpos Hsv] Hbal].
  unfold merge2. rewrite decide_False by lia.
  rewrite (best_joint_records x p pre na m1 nv m2 nb post Hs).
  set (s := joint_search x p (idx nv) _ _) in *.
  assert (idx <$> (na :: m1) ++ nv :: m2 ++ [nb]
          = (idx <$> na :: m1) ++ idx nv :: (idx <$> m2 ++ [nb])) as EX.
  { by rewrite fmap_app, fmap_cons. }
  rewrite EX in HsX, HtX.
  assert (idx <$> (na :: m1) ++ [nv] = (idx <$> na :: m1) ++ [idx nv]) as EA'
    by (by rewrite fmap_app).
  assert (opt x P ((idx <$> na :: m1) ++ [idx nv])) as HoA' by (by rewrite <- EA').
  assert (opt x P (idx nv :: (idx <$> m2 ++ [nb]))) as HoB' by done.
  destruct (dlt dzero (maxbalance s)) eqn:Hd; cycle 1.
  { (* no joint wins: the chain stays *)
    apply dlt_false in Hd. rewrite val_zero in Hd.
    exists ((na :: m1) ++ nv :: m2 ++ [nb]), (idx na), (idx na).
    rewrite <- Ec. split_and!; [done|done| |done|done| |done|lia|].
    - rewrite EX. intros a b s' Hh Hl Hp.
      pose proof (bridge x P (idx <$> na :: m1) (idx nv) (idx <$> m2 ++ [nb])
                    (val (maxbalance s)) HsX HtX HoA' HoB' Hpos Hbal a b s') as Hbr.
      enough (psum x P s' <= psum x P ((idx <$> na :: m1) ++ idx nv :: (idx <$> m2 ++ [nb]))
                            + val (maxbalance s))%R by lra.
      apply Hbr; [exact Hh| |done].
      rewrite last_app_cons, <- (fmap_cons idx), fmap_last in Hl.
      rewrite app_comm_cons, last_snoc in Hl.
      by rewrite fmap_last, last_snoc.
    - by rewrite fmap_last, app_comm_cons, app_assoc, last_snoc.
    - symmetry. apply filter_all. apply Forall_forall. intros i _. lia. }
  (* a joint wins *)
  apply val_lt in Hd. rewrite val_zero in Hd.
  destruct (tjoin s) as [[ta tb]|] eqn:Etj; [|lra].
  destruct Hsv as ((Hta & Htb) & Hmax & Htf).
  destruct (back_visits_chain x P (na :: m1) nv) as (HA1 & _ & _).
  { apply (all_adj_prefix _ _ (m2 ++ [nb])). by rewrite <- app_assoc. }
  destruct (HA1 ta Hta) as (A1 & l & A2 & EA & Hita & Heva).
  destruct (forth_visits_spec x P (m2 ++ [nb]) nv dzero) as (HB1 & _).
  { by apply all_adj_suffix in HwX. }
  destruct (HB1 tb Htb) as (B1 & r & B2 & EB & Hitb & Hevb).
  rewrite val_zero, Rplus_0_l in Hevb.
  rewrite Htf, Hita, Hitb. unfold bal in Hmax. rewrite Hita, Hitb, Heva, Hevb in Hmax.
  set (f := fjoin x p (idx l) (idx r)).
  assert (pre ++ na :: m1 ++ nv :: m2 ++ nb :: post
          = (pre ++ A1) ++ l :: (A2 ++ nv :: B1) ++ r :: (B2 ++ post)) as Ec2.
  { rewrite Ec, EA, EB. by norm_app. }
  assert (idx <$> na :: m1 = (idx <$> A1) ++ idx l :: (idx <$> A2)) as EAi.
  { by rewrite EA, fmap_app, fmap_cons. }
  assert (idx <$> m2 ++ [nb] = (idx <$> B1) ++ idx r :: (idx <$> B2)) as EBi.
  { by rewrite EB, fmap_app, fmap_cons. }
  assert (idx <$> l :: A2 ++ [nv] = idx l :: (idx <$> A2) ++ [idx nv]) as El
    by (by rewrite fmap_cons, fmap_app).
  assert (idx <$> nv :: B1 ++ [r] = idx nv :: (idx <$> B1) ++ [idx r]) as Er
    by (by rewrite fmap_cons, fmap_app).
  rewrite El, Er in Hmax.
  rewrite EAi in HsX, HtX, HoA', Hbal. rewrite EBi in HsX, HtX, HoB', Hbal.
  destruct (join_opt x P (idx <$> A1) (idx l) (idx <$> A2) (idx nv)
              (idx <$> B1) (idx r) (idx <$> B2) (val (maxbalance s))
              HsX HtX HoA' HoB' Hbal Hd Hmax) as [Hnew Hopt].
  rewrite Ec2 in Hs, Hw, Ht, Hhd |- *.
  rewrite (excise_sorted _ _ _ _ _ f Hs).
  exists (A1 ++ l :: mk_node (idx r) f :: B2), (idx l), (idx r).
  assert (idx <$> A1 ++ l :: mk_node (idx r) f :: B2
          = (idx <$> A1) ++ idx l :: idx r :: (idx <$> B2)) as EXi.
  { by rewrite fmap_app, !fmap_cons. }
  assert (pre ++ (A1 ++ l :: mk_node (idx r) f :: B2) ++ post
          = (pre ++ A1) ++ l :: mk_node (idx r) f :: (B2 ++ post)) as Enew
    by (by norm_app).
  assert (Forall (λ e, idx na ≤ e ∧ e ≤ idx nb)
            (((idx <$> A1) ++ idx l :: (idx <$> A2)) ++ idx nv
               :: (idx <$> B1) ++ idx r :: (idx <$> B2))) as Hrange.
  { apply path_range. split_and!; [by apply sorted_lt_le|by rewrite <- EAi|].
    rewrite last_app_cons, <- EBi, <- (fmap_cons idx nv), fmap_last.
    by rewrite app_comm_cons, last_snoc. }
  rewrite Forall_forall in Hrange.
  split_and!.
  - by rewrite Enew.
  - rewrite Enew. split_and!.
    + split.
      * intros nd Hnd. apply Hhd. rewrite <- Hnd. by destruct (pre ++ A1).
      * apply all_adj_app in Hw as [HwL HwR].
        apply all_adj_app. split; [done|]. split; [done|].
        rewrite app_comm_cons in HwR. apply all_adj_suffix in HwR.
        eapply all_adj_head; [exact HwR|]. done.
    + rewrite (excise_idx _ _ _ _ _ f Hs). eapply sorted_sublist; [|exact Hs].
      apply sublist_filter.
    + rewrite (fmap_app idx (pre ++ A1)), fmap_cons,
        (fmap_app idx (A2 ++ nv :: B1)), fmap_cons in Ht.
      rewrite (fmap_app idx (pre ++ A1)), !fmap_cons. cbn [idx].
      apply all_adj_app in Ht as [HtL HtR].
      apply all_adj_app. split; [done|]. split; [done|].
      rewrite app_comm_cons in HtR. by apply all_adj_suffix in HtR.
  - by rewrite EXi.
  - change (na :: m1 ++ nv :: m2 ++ [nb]) with ((na :: m1) ++ nv :: m2 ++ [nb]).
    rewrite EXi, EX, EAi, EBi, <- app_assoc.
    apply sublist_app; [done|]. apply sublist_skip.
    apply sublist_inserts_l. apply sublist_cons. by apply sublist_inserts_l.
  - rewrite EXi.
    assert (head ((idx <$> A1) ++ idx l :: (idx <$> A2)) = Some (idx na)) as Hh
      by (by rewrite <- EAi).
    by destruct (idx <$> A1).
  - rewrite EXi, last_app_cons.
    assert (last (idx <$> m2 ++ [nb]) = Some (idx nb)) as Hl
      by (by rewrite fmap_last, last_snoc).
    rewrite EBi, last_app_cons in Hl. exact Hl.
  - apply (Hrange (idx l)). apply elem_of_app. left. apply elem_of_app. right. left.
  - apply (Hrange (idx r)). apply elem_of_app. right. right.
    apply elem_of_app. right. left.
  - rewrite Enew. apply (excise_idx _ _ _ _ _ f Hs).
Qed.

(** ** The rounds of merges *)

Lemma merge2_ok (x : NumericVector) {p : D} (P : PowerLaw p) (c : list node)
  (a v b : nat) :
  chain_ok x P c →
  a ∈ idx <$> c → v ∈ idx <$> c → b ∈ idx <$> c → a ≤ v → v ≤ b →
  opt x P (idx <$> seg a v c) → opt x P (idx <$> seg v b c) →
  chain_ok x P (merge2 x p c a v b) ∧
  opt x P (idx <$> seg a b (merge2 x p c a v b)) ∧
  ∃ l r, a ≤ l ∧ r ≤ b ∧
    idx <$> merge2 x p c a v b = filter (λ i, i ≤ l ∨ r ≤ i) (idx <$> c).
Proof.
  intros Hc Ha Hv Hb Hav Hvb HoA HoB.
  destruct (decide (a = v ∨ v = b)) as [Heq|Hne].
  { unfold merge2. rewrite decide_True by done. split_and!; [done| |].
    - destruct Heq as [ ->| ->]; done.
    - exists a, a. split_and!; [done|lia|].
      symmetry. apply filter_all. apply Forall_forall. intros i _. lia. }
  pose proof Hc as (_ & Hs & _).
  destruct (chain_split3 c a v b Hs Ha Hv Hb) as
    (pre & na & m1 & nv & m2 & nb & post & -> & <- & <- & <-); [lia..|].
  rewrite (seg_sorted pre na m1 nv (m2 ++ nb :: post) Hs) in HoA.
  assert (seg (idx nv) (idx nb) (pre ++ na :: m1 ++ nv :: m2 ++ nb :: post)
          = nv :: m2 ++ [nb]) as EsB.
  { replace (pre ++ na :: m1 ++ nv :: m2 ++ nb :: post)
      with ((pre ++ na :: m1) ++ nv :: m2 ++ nb :: post) by (by norm_app).
    apply seg_sorted. by norm_app. }
  rewrite EsB in HoB.
  destruct (merge2_value x P pre na m1 nv m2 nb post Hc HoA HoB)
    as (X & l & r & -> & Hc' & Hopt & Hsub & Hh & Hl & Hal & Hrb & Hfil).
  split_and!; [done| |by exists l, r].
  pose proof Hc' as (_ & Hs' & _).
  assert (idx <$> seg (idx na) (idx nb) (pre ++ X ++ post) = idx <$> X) as ->; [|done].
  rewrite seg_idx, !fmap_app, !filter_app.
  destruct (sorted_split _ _ _ Hs) as (Fpre & _).
  assert (Forall (λ nd, idx nb < idx nd) post) as Fpost.
  { replace (pre ++ na :: m1 ++ nv :: m2 ++ nb :: post)
      with ((pre ++ na :: m1 ++ nv :: m2) ++ nb :: post) in Hs by (by norm_app).
    by destruct (sorted_split _ _ _ Hs) as (_ & ? & _). }
  rewrite (filter_none _ (idx <$> pre)), (filter_none _ (idx <$> post)),
    (filter_all _ (idx <$> X)); [by rewrite app_nil_r|..].
  - apply path_range. split_and!; [|done|done]. apply sorted_lt_le.
    rewrite !fmap_app in Hs'.
    by apply StronglySorted_app in Hs' as (_ & _ & (_ & ? & _)%StronglySorted_app).
  - apply Forall_fmap. eapply Forall_impl; [exact Fpost|]. simpl. intros; lia.
  - apply Forall_fmap. eapply Forall_impl; [exact Fpre|]. simpl. intros; lia.
Qed.

(** A merge leaves the intervals on either side as they were. *)
Lemma seg_frame (c c' : list node) (a b l r lo hi : nat) :
  a ≤ l → r ≤ b →
  idx <$> c' = filter (λ i, i ≤ l ∨ r ≤ i) (idx <$> c) →
  hi ≤ a ∨ b ≤ lo →
  idx <$> seg lo hi c' = idx <$> seg lo hi c.
Proof.
  intros Hal Hrb Hfil Hout. rewrite !seg_idx, Hfil, list_filter_filter.
  apply list_filter_iff. intros i. lia.
Qed.

Lemma all_adj_impl_in {A} (Q Q' : A → A → Prop) (c : list A) :
  (∀ u w, u ∈ c → w ∈ c → Q u w → Q' u w) → all_adj Q c → all_adj Q' c.
Proof.
  induction c as [|u [|w c] IH]; intros HQ; [done|done|].
  intros [? ?]. split.
  - apply HQ; [left|right; left|done].
  - apply IH; [|done]. intros u' w' Hu' Hw'. apply HQ; by right.
Qed.

(** One pass of merges keeps the chain well formed and optimal between
    consecutive boundaries. *)
Lemma pass_ok (x : NumericVector) {p : D} (P : PowerLaw p) (il : list nat)
  (c : list node) :
  chain_ok x P c → bounds_ok c il → parts_opt x P c il →
  chain_ok x P (pass x p c il).1 ∧
  parts_opt x P (pass x p c il).1 (pass x p c il).2 ∧
  (∀ lo hi h, head il = Some h → hi ≤ h →
     idx <$> seg lo hi (pass x p c il).1 = idx <$> seg lo hi c).
Proof.
  remember (length il) as n eqn:Hn. revert il c Hn.
  induction n as [n IH] using lt_wf_ind. intros il c -> Hc Hb Hpo.
  destruct il as [|a [|v [|b rest]]]; try (simpl; split_and!; done).
  rewrite pass_cons3.
  pose proof Hc as (_ & Hs & _).
  destruct (merge2_bounds x p c a v b rest Hs Hb)
    as (Ha & Hv & Hb' & Hav & Hvb & Hs1 & Hb1).
  destruct Hpo as (HoA & HoB & Hpo).
  destruct (merge2_ok x P c a v b Hc Ha Hv Hb' Hav Hvb HoA HoB)
    as (Hc1 & Hopt1 & l & r & Hal & Hrb & Hfil).
  set (c1 := merge2 x p c a v b) in *.
  assert (parts_opt x P c1 (b :: rest)) as Hpo1.
  { eapply all_adj_impl_in; [|exact Hpo]. intros u w Hu Hw Ho. simpl.
    rewrite (seg_frame c c1 a b l r u w Hal Hrb Hfil); [done|].
    right. destruct Hb as [_ Hle].
    apply StronglySorted_cons in Hle as [_ Hle].
    apply StronglySorted_cons in Hle as [_ Hle].
    apply StronglySorted_cons in Hle as [Hle _]. rewrite Forall_forall in Hle.
    apply elem_of_cons in Hu as [ ->|Hu]; [done|by apply Hle]. }
  destruct (IH (length (b :: rest)) ltac:(simpl; lia) (b :: rest) c1 eq_refl Hc1 Hb1 Hpo1)
    as (Hc' & Hpo' & Hfr').
  destruct (pass_spec x p (b :: rest) c1 Hs1 Hb1) as (_ & _ & _ & _ & _ & _ & Hhd & _).
  destruct (pass x p c1 (b :: rest)) as [c' tl'] eqn:Ep. cbn [fst snd] in *.
  split_and!; [done| |].
  - destruct tl' as [|b0 tl'']; [done|]. injection Hhd as ->.
    split; [|done]. by rewrite (Hfr' a b b eq_refl).
  - intros lo hi h [= <-] Hhi.
    rewrite (Hfr' lo hi b eq_refl ltac:(lia)).
    apply (seg_frame c c1 a b l r lo hi Hal Hrb Hfil). by left.
Qed.

Lemma rounds_ok (x : NumericVector) {p : D} (P : PowerLaw p) (k : nat) :
  ∀ (il : list nat) (c : list node),
    chain_ok x P c → bounds_ok c il → parts_opt x P c il →
    ∃ il', chain_ok x P (rounds k x p c il) ∧
           parts_opt x P (rounds k x p c il) il' ∧
           head il' = head il ∧ last il' = last il ∧
           (length il ≤ k → length il' ≤ 2).
Proof.
  induction k as [|k IH]; intros il c Hc Hb Hpo.
  { exists il. simpl. split_and!; try done. lia. }
  simpl. destruct (decide (2 < length il)) as [Hlen|Hlen]; cycle 1.
  { exists il. split_and!; try done. lia. }
  pose proof Hc as (_ & Hs & _).
  destruct (pass_spec x p il c Hs Hb) as (_ & Hb' & _ & _ & Hlt & _ & Hhd & Hlast).
  destruct (pass_ok x P il c Hc Hb Hpo) as (Hc' & Hpo' & _).
  destruct (pass x p c il) as [c' il1]. cbn [fst snd] in *.
  destruct (IH il1 c' Hc' Hb' Hpo') as (il' & ? & ? & Hh' & Hl' & Hk).
  exists il'. split_and!; [done|done|congruence|congruence|].
  intros ?. apply Hk. specialize (Hlt Hlen). lia.
Qed.

(** ** The intervals the merges start from *)

Lemma all_adj3_prefix {A} (Q : A → A → A → Prop) (l1 l2 : list A) :
  all_adj3 Q (l1 ++ l2) → all_adj3 Q l1.
Proof.
  induction l1 as [|u [|v [|w l1]] IH]; simpl; try done.
  intros [? ?]. split; [done|]. by apply IH.
Qed.

Lemma all_adj3_suffix {A} (Q : A → A → A → Prop) (l1 l2 : list A) :
  all_adj3 Q (l1 ++ l2) → all_adj3 Q l2.
Proof.
  induction l1 as [|u l1 IH]; [done|]. intros Hq. apply IH.
  destruct l1 as [|v [|w l1]]; simpl in *.
  - by destruct l2 as [|? [|? ?]]; [..|destruct Hq].
  - by destruct l2 as [|? ?]; [|destruct Hq].
  - by destruct Hq.
Qed.

Lemma all_adj4_suffix {A} (Q : A → A → A → A → Prop) (l1 l2 : list A) :
  all_adj4 Q (l1 ++ l2) → all_adj4 Q l2.
Proof.
  induction l1 as [|u l1 IH]; [done|]. intros Hq. apply IH.
  destruct l1 as [|v [|w [|y l1]]]; simpl in *.
  - by destruct l2 as [|? [|? [|? ?]]]; [..|destruct Hq].
  - by destruct l2 as [|? [|? ?]]; [..|destruct Hq].
  - by destruct l2 as [|? ?]; [|destruct Hq].
  - by destruct Hq.
Qed.

(** Across two windows that hold, the jump over four edges does not beat
    them. *)
Lemma span5 (x : NumericVector) {p : D} (P : PowerLaw p) (c0 c1 c2 c3 c4 : nat) :
  peak x c0 c1 c2 → peak x c1 c2 c3 → peak x c2 c3 c4 →
  window_ok x P c0 c1 c2 c3 → window_ok x P c1 c2 c3 c4 →
  (jump x P c0 c4
     <= jump x P c0 c1 + jump x P c1 c2 + jump x P c2 c3 + jump x P c3 c4)%R.
Proof.
  intros P1 P2 P3 W1 W2. unfold window_ok in *.
  pose proof (jump_nonneg x P c0 c1). pose proof (jump_nonneg x P c3 c4).
  assert (jump x P c0 c4 <= jump x P c0 c3 ∨ jump x P c0 c4 <= jump x P c1 c4)%R
    as [?|?]; [|lra|lra].
  unfold peak in *.
  destruct (Rle_or_lt (xr x c0) (xr x c4));
    destruct P1 as [[? ?]|[? ?]]; destruct P2 as [[? ?]|[? ?]];
    destruct P3 as [[? ?]|[? ?]]; try lra;
    first [ left; apply jump_mono; unfold Rabs; repeat destruct (Rcase_abs _); lra
          | right; apply jump_mono; unfold Rabs; repeat destruct (Rcase_abs _); lra ].
Qed.

(** A stretch of at most four edges of a scanned chain is optimal. *)
Lemma short_opt (x : NumericVector) {p : D} (P : PowerLaw p) (c : list nat) :
  length c ≤ 5 → StronglySorted lt c → all_adj (tight x P) c →
  all_adj3 (peak x) c → all_adj4 (window_ok x P) c → opt x P c.
Proof.
  intros Hlen Hs Ht Hp Hw. apply opt_by_sublists; [done|done|].
  intros s Hsub Hh Hl. apply sublists_complete in Hsub.
  destruct c as [|c0 [|c1 [|c2 [|c3 [|c4 [|c5 c]]]]]]; simpl in Hlen; try lia;
    simpl in Hp, Hw, Hsub;
    repeat match goal with
      | H : StronglySorted _ (_ :: _) |- _ =>
          apply StronglySorted_cons in H as [? ?]
      | H : Forall _ (_ :: _) |- _ => apply Forall_cons in H as [? ?]
      end;
    repeat match goal with
      | H : peak _ _ _ _ ∧ _ |- _ => destruct H as [? ?]
      | H : window_ok _ _ _ _ _ _ ∧ _ |- _ => destruct H as [? ?]
      end;
    try match goal with
      | P1 : peak x ?a ?b ?c, P2 : peak x ?b ?c ?d, P3 : peak x ?c ?d ?e,
        W1 : window_ok x P ?a ?b ?c ?d, W2 : window_ok x P ?b ?c ?d ?e |- _ =>
          pose proof (span5 x P a b c d e P1 P2 P3 W1 W2)
      end;
    repeat match goal with
      | P1 : peak x ?a ?b ?c |- _ =>
          pose proof (jump_via x P a b c
                        ltac:(unfold peak in P1; destruct P1 as [[? ?]|[? ?]];
                              [right|left]; lra));
          pose proof (jump_nonneg x P a b); pose proof (jump_nonneg x P b c);
          clear P1
      end;
    unfold window_ok in *;
    repeat (apply elem_of_cons in Hsub as [ ->|Hsub]);
    try (by apply elem_of_nil in Hsub); simpl in Hh, Hl;
    try (injection Hh as ?); try (injection Hl as ?); try lia; try done;
    simpl; try lra.
Qed.

Lemma boundaries_mod (c : list node) (count : nat) :
  boundaries 4 c (count + 4) = boundaries 4 c count.
Proof.
  revert count. induction c as [|nd c IH]; intros count; [done|].
  cbn [boundaries].
  replace (count + 4 + 1) with (count + 1 + 4) by lia. rewrite IH.
  replace ((count + 4) mod 4) with (count mod 4); [done|].
  rewrite <- (Nat.Div0.add_mod_idemp_r count 4 4). simpl (4 mod 4).
  by rewrite Nat.add_0_r.
Qed.

Lemma boundaries_block (c0 c1 c2 c3 : node) (rest : list node) :
  boundaries 4 (c0 :: c1 :: c2 :: c3 :: rest) 0 = idx c0 :: boundaries 4 rest 0.
Proof. cbn [boundaries]. simpl. apply (f_equal (cons _)), (boundaries_mod rest 0). Qed.

Lemma seg_single (pre : list node) (a : node) (post : list node) :
  StronglySorted lt (idx <$> (pre ++ a :: post)) →
  seg (idx a) (idx a) (pre ++ a :: post) = [a].
Proof.
  intros Hs. destruct (sorted_split _ _ _ Hs) as (Fpre & Fpost & _ & _).
  unfold seg. rewrite filter_app, filter_cons_True by lia.
  rewrite (filter_none _ pre), (filter_none _ post); [done|..].
  - eapply Forall_impl; [exact Fpost|]. simpl. intros; lia.
  - eapply Forall_impl; [exact Fpre|]. simpl. intros; lia.
Qed.

(** A stretch of at most five nodes of a scanned chain is optimal. *)
Lemma infix_opt (x : NumericVector) {p : D} (P : PowerLaw p)
  (pre mid post : list node) :
  scanned x P (pre ++ mid ++ post) → length mid ≤ 5 → opt x P (idx <$> mid).
Proof.
  intros ((_ & Hs & Ht) & Hp & Hw) Hlen.
  rewrite !fmap_app in Hs, Ht, Hp, Hw.
  apply short_opt.
  - by rewrite length_fmap.
  - eapply sorted_sublist; [|exact Hs]. by apply sublist_inserts_l, sublist_inserts_r.
  - apply all_adj_suffix in Ht. by apply all_adj_prefix in Ht.
  - apply all_adj3_suffix in Hp. by apply all_adj3_prefix in Hp.
  - apply all_adj4_suffix in Hw. by apply all_adj4_prefix in Hw.
Qed.

(** The boundaries [MergeIntervalsRecursively] starts from cut a scanned
    chain into optimal intervals. *)
Lemma boundaries_parts (x : NumericVector) {p : D} (P : PowerLaw p) (e : nat)
  (n : nat) :
  ∀ (rest done : list node),
    length rest ≤ n →
    scanned x P (done ++ rest) → last (idx <$> done ++ rest) = Some e →
    all_adj (λ a b, opt x P (idx <$> seg a b (done ++ rest)))
      (boundaries 4 rest 0 ++ [e]).
Proof.
  induction n as [n IH] using lt_wf_ind. intros rest done Hn Hsc Hlast.
  pose proof Hsc as ((_ & Hs & _) & _).
  destruct rest as [|c0 [|c1 [|c2 [|c3 [|c4 rest]]]]].
  - done.
  - rewrite fmap_last, last_snoc in Hlast. injection Hlast as <-.
    simpl. split; [|done]. rewrite seg_single by done.
    apply (infix_opt x P done [c0] []); [done|simpl; lia].
  - rewrite fmap_last, (last_app_cons done), last_cons_cons in Hlast.
    injection Hlast as <-. simpl. split; [|done].
    rewrite (seg_sorted done c0 [] c1 [] Hs
             : seg (idx c0) (idx c1) (done ++ [c0; c1]) = [c0; c1]).
    apply (infix_opt x P done [c0; c1] []); [done|simpl; lia].
  - rewrite fmap_last, (last_app_cons done), !last_cons_cons in Hlast.
    injection Hlast as <-. simpl. split; [|done].
    rewrite (seg_sorted done c0 [c1] c2 [] Hs
             : seg (idx c0) (idx c2) (done ++ [c0; c1; c2]) = [c0; c1; c2]).
    apply (infix_opt x P done [c0; c1; c2] []); [done|simpl; lia].
  - rewrite fmap_last, (last_app_cons done), !last_cons_cons in Hlast.
    injection Hlast as <-. simpl. split; [|done].
    rewrite (seg_sorted done c0 [c1; c2] c3 [] Hs
             : seg (idx c0) (idx c3) (done ++ [c0; c1; c2; c3]) = [c0; c1; c2; c3]).
    apply (infix_opt x P done [c0; c1; c2; c3] []); [done|simpl; lia].
  - rewrite boundaries_block.
    assert (done ++ c0 :: c1 :: c2 :: c3 :: c4 :: rest
            = (done ++ [c0; c1; c2; c3]) ++ c4 :: rest) as Eq by (by norm_app).
    pose proof (IH (length (c4 :: rest)) ltac:(simpl in *; lia) (c4 :: rest)
                  (done ++ [c0; c1; c2; c3]) ltac:(done)) as IH'.
    rewrite <- Eq in IH'. specialize (IH' Hsc Hlast).
    cbn [boundaries] in IH' |- *. simpl in IH' |- *.
    split; [|done].
    rewrite (seg_sorted done c0 [c1; c2; c3] c4 rest Hs
             : seg (idx c0) (idx c4) (done ++ c0 :: c1 :: c2 :: c3 :: c4 :: rest)
               = [c0; c1; c2; c3; c4]).
    apply (infix_opt x P done [c0; c1; c2; c3; c4] rest); [done|simpl; lia].
Qed.

(** ** The chain [pvar] sums *)

Lemma exact_irreflexive : dlt dzero dzero = false.
Proof. apply dlt_false. lra. Qed.

(** The three stages leave links that hold the three chains. *)
Lemma stage_reprs (x : NumericVector) (p : D) :
  3 ≤ length x →
  ∃ links1 links2 links3,
    repr x links1 (extrema_chain x p) ∧
    repr x links2 (short_chain x p (extrema_chain x p)) ∧
    repr x links3 (final_chain x p).
Proof.
  intros Hn.
  destruct (DetectLocalExtrema_sim x p
              (replicate (length x) (mk_pointdata 0 0 dzero)))
    as (links1 & _ & Hr1); [lia|by rewrite length_replicate| |].
  { apply Forall_replicate. split; simpl; lia. }
  pose proof Hr1 as [Hp1 _]. pose proof (prepr_length _ _ _ Hp1).
  destruct (outcome_Ok _ _ _
              (CheckShortIntervals_sim (3 * length x + 1) x p links1 _ Hr1))
    as (links2 & _ & Hr2); [lia|apply exact_irreflexive|].
  destruct (outcome_Ok _ _ _
              (MergeIntervalsRecursively_sim (3 * length x + 1) x p 4 links2 _ Hr2))
    as (links3 & _ & Hr3); [lia|apply exact_irreflexive|].
  by exists links1, links2, links3.
Qed.

Lemma chain_sum_val (x : NumericVector) {p : D} (P : PowerLaw p) (c : list node) :
  ∀ (u : node) (acc : D),
    all_adj (λ u w, wt w = fjoin x p (idx u) (idx w)) (u :: c) →
    val (foldl (λ acc nd, dadd acc (wt nd)) acc c)
    = (val acc + psum x P (idx <$> u :: c))%R.
Proof.
  induction c as [|w c IH]; intros u acc Hw.
  { simpl. lra. }
  destruct Hw as [Hw0 Hw]. cbn [foldl].
  rewrite (IH w _ Hw), val_add, Hw0, (val_fjoin x P).
  rewrite !fmap_cons, psum_cons2. lra.
Qed.

Lemma chain_sum_psum (x : NumericVector) {p : D} (P : PowerLaw p) (c : list node) :
  exact_wts x p c → val (chain_sum c) = psum x P (idx <$> c).
Proof.
  intros [Hhd Hw]. unfold chain_sum. destruct c as [|u c].
  { simpl. apply val_zero. }
  cbn [foldl]. rewrite (chain_sum_val x P c u _ Hw), val_add, val_zero.
  rewrite (Hhd u eq_refl), val_zero. lra.
Qed.

(** The chain the three stages leave is optimal: no sequence of indices from
    [0] to [n - 1] sums to more. *)
Lemma final_chain_opt (x : NumericVector) {p : D} (P : PowerLaw p) :
  3 ≤ length x →
  chain_ok x P (final_chain x p) ∧ opt x P (idx <$> final_chain x p) ∧
  head (idx <$> final_chain x p) = Some 0 ∧
  last (idx <$> final_chain x p) = Some (length x - 1) ∧
  Forall (λ i, i < length x) (idx <$> final_chain x p).
Proof.
  intros Hn. destruct (stage_reprs x p Hn) as (l1 & l2 & l3 & Hr1 & Hr2 & Hr3).
  destruct (extrema_chain_inv x P) as (He1 & Ht1 & Hp1).
  pose proof Hr1 as [(_ & _ & Hs1 & _) _].
  assert (scanned x P (short_chain x p (extrema_chain x p))) as Hsc.
  { by apply short_chain_ok. }
  set (c := short_chain x p (extrema_chain x p)) in *.
  pose proof Hr2 as [(_ & [post Ec] & Hs2 & _) Hlast2].
  pose proof (boundaries_ok x l2 4 c Hr2) as Hb.
  pose proof (boundaries_parts x P (length x - 1) (length c) c [] ltac:(done) Hsc Hlast2)
    as Hpo.
  destruct Hsc as (Hc2 & _).
  destruct (rounds_ok x P (length (boundaries 4 c 0 ++ [length x - 1]))
              (boundaries 4 c 0 ++ [length x - 1]) c Hc2 Hb Hpo)
    as (il' & Hc3 & Hpo3 & Hh & Hl & Hk).
  fold (merged_chain x p 4 c) in Hc3, Hpo3. fold (final_chain x p) in Hc3, Hpo3.
  pose proof Hr3 as [(_ & [post3 Ec3] & Hs3 & Hlt3 & _) Hlast3].
  assert (Forall (λ i, i < length x) (idx <$> final_chain x p)) as Hlt.
  { by apply Forall_fmap. }
  split_and!; [done| |by rewrite Ec3|done|done].
  specialize (Hk ltac:(done)).
  rewrite last_snoc in Hl.
  assert (head (boundaries 4 c 0 ++ [length x - 1]) = Some 0) as Hh0.
  { rewrite Ec. done. }
  rewrite Hh0 in Hh.
  destruct il' as [|h0 [|h1 [|h2 il']]]; simpl in Hk; try lia; try done.
  { simpl in Hh, Hl. simplify_eq. lia. }
  simpl in Hh. rewrite last_cons_cons in Hl. simpl in Hl. simplify_eq.
  destruct Hpo3 as [Ho _].
  rewrite seg_idx, filter_all in Ho; [done|].
  eapply Forall_impl; [exact Hlt|]. simpl. intros; lia.
Qed.
(** ** The value of [pvar] *)

Lemma val_subseq_sum (x : NumericVector) {p : D} (P : PowerLaw p) (s : list nat) :
  val (subseq_sum x p s) = psum x P s.
Proof.
  induction s as [|i [|j s] IH]; [apply val_zero..|].
  change (subseq_sum x p (i :: j :: s))
    with (dadd (fjoin x p j i) (subseq_sum x p (j :: s))).
  by rewrite val_add, IH, psum_cons2, (val_fjoin x P), (jump_sym x P j i).
Qed.

(** A subsequence, extended to the first and the last sample, is a path
    that sums to no less. *)
Lemma psum_extend (x : NumericVector) {p : D} (P : PowerLaw p) (s : list nat) :
  1 ≤ length x → subsequence x s →
  path 0 (length x - 1) (0 :: s ++ [length x - 1]) ∧
  (psum x P s <= psum x P (0 :: s ++ [length x - 1])%nat)%R.
Proof.
  intros Hn [Hs Hb]. split.
  - split_and!; [|done|by rewrite app_comm_cons, last_snoc].
    constructor.
    + apply StronglySorted_app. split_and!.
      * intros e1 e2 He1 ->%list_elem_of_singleton.
        rewrite Forall_forall in Hb. specialize (Hb _ He1). simpl in Hb. lia.
      * by apply sorted_lt_le.
      * repeat constructor.
    + apply Forall_forall. intros; lia.
  - destruct s as [|h s]; [apply psum_nonneg|].
    destruct (last (h :: s)) as [l|] eqn:Hl; [|by apply last_None in Hl].
    rewrite (psum_wrap x P 0 (h :: s) _ h l) by done.
    pose proof (jump_nonneg x P 0 h). pose proof (jump_nonneg x P l (length x - 1)).
    lra.
Qed.

(** The chain of the result: a subsequence, not beaten by any other, along
    which [pvar] sums. *)
Lemma pvar_value (x : NumericVector) {p : D} (P : PowerLaw p) :
  ∃ c, subsequence x c ∧
       (∀ s, subsequence x s → (psum x P s <= psum x P c)%R) ∧
       ∀ fuel, 3 * length x < fuel →
         ∃ v, pvar fuel x p = Ok v ∧ val v = psum x P c.
Proof.
  destruct (decide (length x ≤ 1)) as [H1|H1].
  { exists []. split_and!.
    - split; constructor.
    - intros s [Hs Hb]. simpl.
      destruct s as [|i [|j s]]; simpl; try lra.
      apply StronglySorted_cons in Hs as [[Hij _]%Forall_cons _].
      apply Forall_cons in Hb as [_ [Hj _]%Forall_cons]. simpl in Hj. lia.
    - intros fuel _. exists dzero. unfold pvar.
      rewrite decide_True by lia. rewrite decide_True by done.
      split; [done|]. apply val_zero. }
  destruct (decide (length x ≤ 2)) as [H2|H2].
  { destruct x as [|a [|b [|? ?]]]; simpl in *; try lia.
    exists [0; 1]. split_and!.
    - split; repeat constructor; simpl; lia.
    - intros s Hs.
      destruct (psum_extend [a; b] P s) as [Hp Hle]; [simpl; lia|done|].
      simpl length in Hp, Hle. change (2 - 1) with 1 in Hp, Hle.
      etrans; [exact Hle|].
      assert (psum [a; b] P [0; 1] = jump [a; b] P 0 1) as ->.
      { rewrite psum_cons2. simpl. lra. }
      apply (mono_psum [a; b] P 0 1); [|done|lia|lia].
      destruct (Rle_or_lt (xr [a; b] 0) (xr [a; b] 1)) as [Hc|Hc].
      + left. intros k k' Hk Hkk Hk'.
        assert (k = k' ∨ (k = 0 ∧ k' = 1)) as [->|[-> ->]] by lia; [lra|done].
      + right. intros k k' Hk Hkk Hk'.
        assert (k = k' ∨ (k = 0 ∧ k' = 1)) as [->|[-> ->]] by lia; lra.
    - intros fuel _. eexists. split; [reflexivity|].
      assert (psum [a; b] P [0; 1] = jump [a; b] P 0 1) as ->.
      { rewrite psum_cons2. simpl. lra. }
      apply (val_fjoin [a; b] P 0 1). }
  assert (3 ≤ length x) as Hn by lia.
  destruct (final_chain_opt x P Hn) as ((Hw & Hs & Ht) & Ho & Hh & Hl & Hb).
  exists (idx <$> final_chain x p). split_and!.
  - by split.
  - intros s Hsub.
    destruct (psum_extend x P s) as [Hp Hle]; [lia|done|].
    etrans; [exact Hle|]. by apply (Ho 0 (length x - 1)).
  - intros fuel Hf.
    destruct (outcome_Ok _ _ _ (pvar_sim fuel x p Hn) Hf exact_irreflexive)
      as (v & Hv & ->).
    exists (chain_sum (final_chain x p)). split; [done|].
    by apply chain_sum_psum.
Qed.

Lemma dmax_val (a b : D) : val (dmax a b) = Rmax (val a) (val b).
Proof.
  unfold dmax. destruct (dle a b) eqn:Hc.
  - apply val_le in Hc. by rewrite Rmax_right.
  - apply dle_false in Hc. rewrite Rmax_left; [done|lra].
Qed.

(** The maximum over a list of candidates. *)
Lemma brute_max (l : list D) (v : D) :
  v ∈ l → (∀ u, u ∈ l → (val u <= val v)%R) → (0 <= val v)%R →
  foldr dmax dzero l = v.
Proof.
  intros Hin Hmax H0. apply val_inj.
  assert (∀ l', (∀ u, u ∈ l' → (val u <= val v)%R) →
                (val (foldr dmax dzero l') <= val v)%R ∧
                (v ∈ l' → val (foldr dmax dzero l') = val v)) as Hgen.
  { induction l' as [|u l' IH]; intros Hb.
    - simpl. rewrite val_zero. split; [done|]. by intros ?%elem_of_nil.
    - destruct IH as [IH1 IH2]; [intros; apply Hb; by right|].
      cbn [foldr]. rewrite dmax_val. specialize (Hb u ltac:(left)) as Hu.
      split; [by apply Rmax_lub|].
      intros [->|Hv]%elem_of_cons.
      + rewrite Rmax_left; [done|lra].
      + rewrite IH2 by done. by rewrite Rmax_right. }
  by apply Hgen.
Qed.

Lemma sublists_sound {A} (s c : list A) : s ∈ sublists c → s `sublist_of` c.
Proof.
  revert s. induction c as [|a c IH]; intros s; simpl.
  - by intros ->%list_elem_of_singleton.
  - intros [(s' & -> & Hs')%list_elem_of_fmap|Hs]%elem_of_app.
    + apply sublist_skip, IH, Hs'.
    + apply sublist_cons, IH, Hs.
Qed.

Lemma sublist_sorted (s c : list nat) :
  s `sublist_of` c → StronglySorted lt c → StronglySorted lt s.
Proof.
  induction 1 as [|a s c Hsub IH|a s c Hsub IH]; [done| |].
  - intros [Ha Hc]%StronglySorted_cons. constructor; [by apply IH|].
    rewrite Forall_forall in Ha |- *. intros e He. apply Ha.
    by eapply elem_of_sublist.
  - intros [_ Hc]%StronglySorted_cons. by apply IH.
Qed.

Lemma seq_sorted (a n : nat) : StronglySorted lt (seq a n).
Proof.
  revert a. induction n as [|n IH]; intros a; simpl; constructor; [apply IH|].
  apply Forall_forall. intros e [He _]%elem_of_seq. lia.
Qed.

(** The subsequences of [x] are the sublists of its indices. *)
Lemma subsequence_sublists (x : NumericVector) (s : list nat) :
  subsequence x s ↔ s ∈ sublists (seq 0 (length x)).
Proof.
  split.
  - intros [Hs Hb]. apply sublists_complete, sorted_sub; [done|apply seq_sorted|].
    intros e He. rewrite Forall_forall in Hb. apply elem_of_seq.
    specialize (Hb _ He). simpl in Hb. lia.
  - intros Hsub%sublists_sound. split.
    + eapply sublist_sorted; [done|apply seq_sorted].
    + apply Forall_forall. intros e He.
      pose proof (elem_of_sublist _ _ _ He Hsub) as [_ Hlt]%elem_of_seq.
      simpl in *. lia.
Qed.

End Exact.
Lemma outcome_inv {A} (e : Prop) (r : res A) (Q : A → Prop) (a : A) :
  outcome e r Q → r = Ok a → Q a.
Proof. by intros Ho ->. Qed.

Lemma repr_in_bounds (x : NumericVector) (links : DoublyLinkedList) (c : list node) :
  repr x links c → Forall (in_bounds (length x)) links.
Proof. by intros [(_ & _ & _ & _ & _ & _ & _ & _ & ?) _]. Qed.

Lemma repr_head_fields (x : NumericVector) (links : DoublyLinkedList) (c : list node) :
  repr x links c → get_prev links 0 = Ok 0 ∧ get_pvdiff links 0 = Ok dzero.
Proof.
  intros [(_ & [post ->] & _ & _ & Hw & _ & _ & Hp & _) _]. split; [done|].
  by apply Forall_cons in Hw as [? _].
Qed.

(** ** The claims on the structure of the computation *)

(** C2: for every [p], [pvar] returns exactly 0 on a sequence of length 0 or
    1 and exactly [|x[0] - x[1]|^p] on a sequence of length 2; it does so
    whatever the loop budget, even none: the pipeline is not run. *)
Theorem pvar_short (fuel : nat) (p : D) :
  pvar fuel [] p = Ok dzero ∧
  (∀ a, pvar fuel [a] p = Ok dzero) ∧
  (∀ a b, pvar fuel [a; b] p = Ok (dpow (dabs (dsub a b)) p)).
Proof. done. Qed.

(** C10: [Merge2GoodInt(a, v, b)] leaves the links unchanged whenever
    [a = v] or [v = b]; so the pass over a boundary list that ends with the
    duplicated last index changes nothing when it merges that pair. *)
Theorem Merge2GoodInt_degenerate (fuel : nat) (x : NumericVector) (p : D)
  (links : DoublyLinkedList) :
  (∀ a b, Merge2GoodInt fuel x p links a a b = Ok links) ∧
  (∀ a v, Merge2GoodInt fuel x p links a v v = Ok links) ∧
  (∀ a e, merge_pass fuel x p links [a; e; e] = Ok (links, [a; e])).
Proof.
  assert (∀ a v, Merge2GoodInt fuel x p links a v v = Ok links) as Hv.
  { intros a v. unfold Merge2GoodInt. by rewrite decide_True by (by right). }
  split_and!; [|done|].
  - intros a b. unfold Merge2GoodInt. by rewrite decide_True by (by left).
  - intros a e. simpl. by rewrite Hv.
Qed.
Lemma z_backtrack_reach (l : list node) (b e' : node) (r : list node) :
  match z_backtrack l b e' r with
  | inr z' => ∃ k, k ≤ 2 ∧ zl z' = drop k l ∧ zr z' = drop (2 - k) r
  | inl _ => length l + length r < 2
  end.
Proof.
  destruct l as [|l1 [|l2 l']]; destruct r as [|r1 [|r2 r']]; simpl; try lia;
    first [exists 0; split_and!; [lia|done|done]
          |exists 1; split_and!; [lia|done|done]
          |exists 2; split_and!; [lia|done|done]].
Qed.

(** C4: one iteration of the scan of [CheckShortIntervals], on a window
    [begin - m1 - m2 - end] with running sum [csum].  If the direct jump
    value [|x[begin] - x[end]|^p] does not exceed [csum], the links are left
    as they are and the window advances by one edge (the scan returns when
    there is no further edge).  Otherwise the two middle points are excised:
    [begin] and [end] are linked to each other, the weight at [end] becomes
    the direct jump value, and the next window has three edges around the
    new one, taking [k <= 2] edges on its left and [2 - k] on its right (the
    scan returns when the chain has fewer than two other edges there). *)
Theorem CheckShortIntervals_step (x : NumericVector) (p : D)
  (links : DoublyLinkedList) (z : zipper) :
  repr x links (z_chain z) →
  let f := fjoin x p (idx (zb z)) (idx (ze z)) in
  if dle f (zsum z) then
    csi_step x p links (z_window z)
      = Ok (links,
            match zr z with
            | [] => None
            | e' :: _ =>
                Some (mk_window (idx (zm1 z)) (idx e')
                        (dadd (dsub (zsum z) (wt (zm1 z))) (wt e')))
            end)
  else
    ∃ links',
      csi_step x p links (z_window z)
        = Ok (links', z_next (z_backtrack (zl z) (zb z) (mk_node (idx (ze z)) f) (zr z))) ∧
      repr x links' (reverse (zl z) ++ zb z :: mk_node (idx (ze z)) f :: zr z) ∧
      get_next links' (idx (zb z)) = Ok (idx (ze z)) ∧
      get_prev links' (idx (ze z)) = Ok (idx (zb z)) ∧
      get_pvdiff links' (idx (ze z)) = Ok f ∧
      match z_backtrack (zl z) (zb z) (mk_node (idx (ze z)) f) (zr z) with
      | inr z' =>
          z_chain z' = reverse (zl z) ++ zb z :: mk_node (idx (ze z)) f :: zr z ∧
          ∃ k, k ≤ 2 ∧ zl z' = drop k (zl z) ∧ zr z' = drop (2 - k) (zr z)
      | inl _ => length (zl z) + length (zr z) < 2
      end.
Proof.
  intros Hr f. destruct (csi_step_sim x p links z Hr) as (links' & Es & Hr' & Hk).
  unfold z_step in Es, Hr'. fold f in Es, Hr', Hk.
  destruct (dle f (zsum z)).
  - subst links'. rewrite Es. by destruct (zr z).
  - destruct Hk as (? & ? & ?). exists links'.
    pose proof (z_backtrack_chain (zl z) (zb z) (mk_node (idx (ze z)) f) (zr z)) as Ec.
    pose proof (z_backtrack_reach (zl z) (zb z) (mk_node (idx (ze z)) f) (zr z)) as Hk.
    rewrite Ec in Hr'. split_and!; try done.
    by destruct (z_backtrack _ _ _ _).
Qed.
Lemma pvar_total_short (x : NumericVector) (p : D) :
  length x ≤ 2 → ∃ v, ∀ fuel, pvar fuel x p = Ok v.
Proof.
  destruct x as [|a [|b [|c x]]]; simpl; intros Hn; [eauto..|lia].
Qed.

(** C7: [pvar] terminates on every sequence and every [p], and its result
    does not depend on the loop budget once that exceeds [3 * n]: it is a
    function of the sequence and [p].  On every chain the links hold, the
    scan of [CheckShortIntervals] runs to completion and leaves with its
    forward boundary [int_end] at the sentinel [n]; the loop over the
    boundary list of [MergeIntervalsRecursively] runs to completion and
    leaves with the list reduced to two entries, [0] and [n - 1]; the
    closing walk runs to completion and leaves with its index at the
    sentinel [n]. *)
Theorem pvar_terminates :
  dlt dzero dzero = false →
  ∀ (x : NumericVector) (p : D),
    (∃ v, ∀ fuel, 3 * length x < fuel → pvar fuel x p = Ok v) ∧
    (∀ links c fuel, repr x links c → 3 * length x < fuel →
       (∃ links' we,
          CheckShortIntervals_end fuel x links p = Ok (links', we) ∧
          CheckShortIntervals fuel x links p = Ok links' ∧
          int_end we = length x) ∧
       (∃ il links',
          collect fuel (length x) 4 links 0 0 [] = Ok il ∧
          merge_rounds_end fuel fuel x p links (il ++ [length x - 1])
            = Ok (links', [0; length x - 1]) ∧
          MergeIntervalsRecursively fuel x links p 4 = Ok links') ∧
       (∃ v,
          accumulate_end fuel (length x) links 0 dzero = Ok (length x, v) ∧
          accumulate fuel (length x) links 0 dzero = Ok v)).
Proof.
  intros Hirr x p. split.
  - destruct (decide (length x ≤ 2)) as [Hn|Hn].
    { destruct (pvar_total_short x p Hn) as [v Hv]. eauto. }
    exists (chain_sum (final_chain x p)). intros fuel Hf.
    destruct (outcome_Ok _ _ _ (pvar_sim fuel x p ltac:(lia)) Hf Hirr) as (v & -> & ->).
    done.
  - intros links c fuel Hr Hf.
    pose proof Hr as [Hp _]. pose proof (prepr_length _ _ _ Hp).
    pose proof Hp as (_ & [post Ec] & _).
    assert (1 ≤ length x) by (rewrite Ec in *; simpl in *; lia).
    split_and!.
    + destruct (outcome_Ok _ _ _ (CheckShortIntervals_sim fuel x p links c Hr))
        as (links' & El & _); [lia|done|].
      pose proof El as El'. rewrite CheckShortIntervals_end_same in El'.
      apply fmap_Ok_inv in El' as ([l we] & Ee & Efst). simpl in Efst. subst l.
      exists links', we. split_and!; [done|done|].
      by eapply CheckShortIntervals_end_sentinel.
    + pose proof (collect_sim fuel x links 4 [] c 0 [] Hr) as Hco.
      assert (cursor x c = 0) as E0 by (by rewrite Ec).
      rewrite E0 in Hco.
      destruct (outcome_Ok _ _ _ Hco) as (il & Eil & ->); [lia|done|].
      pose proof (boundaries_ok x links 4 c Hr) as Hb.
      pose proof (sublist_length _ _ (boundaries_sublist 4 c 0)) as Hlb.
      rewrite length_fmap in Hlb.
      assert (head (boundaries 4 c 0 ++ [length x - 1]) = Some 0) as Hh0
        by (by rewrite Ec).
      destruct (outcome_Ok _ _ _
                  (merge_rounds_end_sim fuel fuel x p
                     (boundaries 4 c 0 ++ [length x - 1]) links c Hr Hb
                     ltac:(rewrite Ec, length_app; simpl; lia)))
        as ([links' il'] & Er & Hl2 & Hh & Hl); [|done|].
      { rewrite length_app. simpl. lia. }
      simpl in Hl2, Hh, Hl. rewrite Hh0 in Hh. rewrite last_snoc in Hl.
      destruct il' as [|i0 [|i1 [|i2 il']]]; simpl in Hl2; try lia.
      simpl in Hh, Hl. injection Hh as ->. injection Hl as ->.
      exists (boundaries 4 c 0), links'. simpl "++". split_and!; [done|done|].
      unfold MergeIntervalsRecursively. rewrite Eil. simpl.
      by rewrite merge_rounds_end_same, Er.
    + pose proof (accumulate_end_sim fuel x links [] c dzero Hr) as Ha.
      rewrite Ec in Ha at 2. simpl in Ha.
      destruct (outcome_Ok _ _ _ Ha) as (r & Er & ->); [lia|done|].
      eexists. split; [exact Er|].
      by rewrite accumulate_end_same, Er.
Qed.

(** C8: no run of [pvar] indexes a vector outside its bounds, whatever the
    loop budget; and the links left by each stage, as by each iteration of
    the scan and each merge, hold [prev] and [next] fields in [0, n] only.
    This rests on the chain the links hold and on the stages being run on
    nodes of that chain, in order; it does not rest on a test for the
    sentinel before every use of a link value as an index: there is none in
    the walks of [Merge2GoodInt], which read [links[n]] when they are run
    on indices that are not nodes of the chain in order. *)
Theorem pvar_index_safe (fuel : nat) (x : NumericVector) (p : D) :
  pvar fuel x p ≠ OutOfBounds ∧
  (∀ links links' c,
     repr x links c → CheckShortIntervals fuel x links p = Ok links' →
     Forall (in_bounds (length x)) links') ∧
  (∀ links links' c,
     repr x links c → MergeIntervalsRecursively fuel x links p 4 = Ok links' →
     Forall (in_bounds (length x)) links') ∧
  (∀ links z r,
     repr x links (z_chain z) → csi_step x p links (z_window z) = Ok r →
     Forall (in_bounds (length x)) r.1) ∧
  (∀ links links' c a v b,
     repr x links c → bounds_ok c [a; v; b] →
     Merge2GoodInt fuel x p links a v b = Ok links' →
     Forall (in_bounds (length x)) links') ∧
  (3 ≤ length x →
   ∃ links1,
     DetectLocalExtrema x (replicate (length x) (mk_pointdata 0 0 dzero)) p = Ok links1 ∧
     Forall (in_bounds (length x)) links1 ∧
     CheckShortIntervals fuel x links1 p ≠ OutOfBounds ∧
     ∀ links2, CheckShortIntervals fuel x links1 p = Ok links2 →
       MergeIntervalsRecursively fuel x links2 p 4 ≠ OutOfBounds ∧
       ∀ links3, MergeIntervalsRecursively fuel x links2 p 4 = Ok links3 →
         accumulate fuel (length x) links3 0 dzero ≠ OutOfBounds).
Proof.
  split_and!.
  - destruct (decide (length x ≤ 2)) as [Hn|Hn].
    + destruct (pvar_total_short x p Hn) as [v Hv]. by rewrite Hv.
    + eapply outcome_in_bounds. apply pvar_sim. lia.
  - intros links links' c Hr E. eapply repr_in_bounds.
    exact (outcome_inv _ _ _ _ (CheckShortIntervals_sim fuel x p links c Hr) E).
  - intros links links' c Hr E. eapply repr_in_bounds.
    exact (outcome_inv _ _ _ _ (MergeIntervalsRecursively_sim fuel x p 4 links c Hr) E).
  - intros links z r Hr E.
    destruct (csi_step_sim x p links z Hr) as (links' & E' & Hr' & _).
    rewrite E' in E. simplify_eq/=. by eapply repr_in_bounds.
  - intros links links' c a v b Hr Hb E.
    pose proof Hr as [(_ & _ & Hs & _) _].
    destruct (merge2_bounds x p c a v b [] Hs Hb) as (? & ? & ? & ? & ? & _).
    eapply repr_in_bounds.
    refine (outcome_inv _ _ _ _ (Merge2GoodInt_sim fuel x p links c a v b _ _ _ _ _ _) E);
      done.
  - intros Hn.
    destruct (DetectLocalExtrema_sim x p
                (replicate (length x) (mk_pointdata 0 0 dzero)))
      as (links1 & E1 & Hr1); [lia|by rewrite length_replicate| |].
    { apply Forall_replicate. split; simpl; lia. }
    exists links1. split_and!; [done|by eapply repr_in_bounds|..].
    + eapply outcome_in_bounds. by apply CheckShortIntervals_sim.
    + intros links2 E2.
      pose proof (outcome_inv _ _ _ _ (CheckShortIntervals_sim fuel x p links1 _ Hr1) E2)
        as Hr2.
      split; [eapply outcome_in_bounds;
              apply (MergeIntervalsRecursively_sim fuel x p 4 links2 _ Hr2)|].
      intros links3 E3.
      pose proof (outcome_inv _ _ _ _
                    (MergeIntervalsRecursively_sim fuel x p 4 links2 _ Hr2) E3) as Hr3.
      pose proof Hr3 as [(_ & [post E] & _) _].
      pose proof (accumulate_sim fuel x links3 [] _ dzero Hr3) as Ha.
      rewrite E in Ha at 2. simpl in Ha. by eapply outcome_in_bounds.
Qed.

(** C9: the fields [prev = 0] and [pvdiff = 0] that [DetectLocalExtrema]
    gives the head node are still there after every iteration of the scan
    and after every merge, hence after each stage; so the first term the
    closing walk adds, [links[0].pvdiff], is exactly 0. *)
Theorem head_node_preserved (fuel : nat) (x : NumericVector) (p : D) :
  (2 ≤ length x →
   ∃ links1,
     DetectLocalExtrema x (replicate (length x) (mk_pointdata 0 0 dzero)) p = Ok links1 ∧
     get_prev links1 0 = Ok 0 ∧ get_pvdiff links1 0 = Ok dzero) ∧
  (∀ links z r,
     repr x links (z_chain z) → csi_step x p links (z_window z) = Ok r →
     get_prev r.1 0 = Ok 0 ∧ get_pvdiff r.1 0 = Ok dzero) ∧
  (∀ links links' c a v b,
     repr x links c → bounds_ok c [a; v; b] →
     Merge2GoodInt fuel x p links a v b = Ok links' →
     get_prev links' 0 = Ok 0 ∧ get_pvdiff links' 0 = Ok dzero) ∧
  (∀ links links' c,
     repr x links c → CheckShortIntervals fuel x links p = Ok links' →
     get_prev links' 0 = Ok 0 ∧ get_pvdiff links' 0 = Ok dzero) ∧
  (∀ links links' c,
     repr x links c → MergeIntervalsRecursively fuel x links p 4 = Ok links' →
     get_prev links' 0 = Ok 0 ∧ get_pvdiff links' 0 = Ok dzero) ∧
  (∀ links c nx f,
     repr x links c → get_next links 0 = Ok nx →
     accumulate (S f) (length x) links 0 dzero
       = accumulate f (length x) links nx (dadd dzero dzero)).
Proof.
  split_and!.
  - intros Hn.
    destruct (DetectLocalExtrema_sim x p
                (replicate (length x) (mk_pointdata 0 0 dzero)))
      as (links1 & E1 & Hr1); [lia|by rewrite length_replicate| |].
    { apply Forall_replicate. split; simpl; lia. }
    exists links1. split; [done|]. by eapply repr_head_fields.
  - intros links z r Hr E.
    destruct (csi_step_sim x p links z Hr) as (links' & E' & Hr' & _).
    rewrite E' in E. simplify_eq/=. by eapply repr_head_fields.
  - intros links links' c a v b Hr Hb E.
    pose proof Hr as [(_ & _ & Hs & _) _].
    destruct (merge2_bounds x p c a v b [] Hs Hb) as (? & ? & ? & ? & ? & _).
    eapply repr_head_fields.
    refine (outcome_inv _ _ _ _ (Merge2GoodInt_sim fuel x p links c a v b _ _ _ _ _ _) E);
      done.
  - intros links links' c Hr E. eapply repr_head_fields.
    exact (outcome_inv _ _ _ _ (CheckShortIntervals_sim fuel x p links c Hr) E).
  - intros links links' c Hr E. eapply repr_head_fields.
    exact (outcome_inv _ _ _ _ (MergeIntervalsRecursively_sim fuel x p 4 links c Hr) E).
  - intros links c nx f Hr En.
    destruct (repr_head_fields _ _ _ Hr) as [_ Hw].
    pose proof Hr as [(_ & [post ->] & _ & [Hlt _]%Forall_cons & _) _].
    simpl in *. rewrite decide_True by done. by rewrite Hw, En.
Qed.

(** * Further properties of the stages

    What each stage does to the chain, and what the result is, in exact
    arithmetic. *)

Section Properties.
Context {E : ExactOps D}.

(** ** The jump weight *)

Lemma val_pvar_diff {p : D} (P : PowerLaw p) (a b : D) :
  val (pvar_diff (dsub a b) p) = phi P (Rabs (val a - val b)).
Proof.
  unfold pvar_diff. rewrite (phi_pow P); rewrite val_abs, val_sub; [done|].
  apply Rabs_pos.
Qed.

(** X1: in exact arithmetic and for an exponent [p >= 1], [pvar_diff],
    applied to a difference, is a distance raised to the power [p]: it does not depend on the order of the two samples, it is
    never negative, and it is zero exactly when the two samples are equal. *)
Theorem pvar_diff_distance {p : D} (P : PowerLaw p) (a b : D) :
  pvar_diff (dsub a b) p = pvar_diff (dsub b a) p ∧
  (0 <= val (pvar_diff (dsub a b) p))%R ∧
  (pvar_diff (dsub a b) p = dzero ↔ a = b).
Proof.
  split_and!.
  - apply val_inj. by rewrite !(val_pvar_diff P), Rabs_minus_sym.
  - rewrite (val_pvar_diff P). apply phi_nonneg, Rabs_pos.
  - split.
    + intros E0. apply (f_equal val) in E0.
      rewrite (val_pvar_diff P), val_zero in E0.
      apply val_inj. destruct (Req_dec (val a) (val b)) as [|Hne]; [done|].
      pose proof (phi_pos P (Rabs (val a - val b))) as Hpos.
      assert (0 < Rabs (val a - val b))%R by (apply Rabs_pos_lt; lra).
      lra.
    + intros ->. apply val_inj.
      by rewrite (val_pvar_diff P), val_zero, Rminus_diag, Rabs_R0, (phi_0 P).
Qed.

(** ** The chain of local extrema *)

Lemma fresh_links_ok (n : nat) :
  length (replicate n (mk_pointdata 0 0 (dzero : D))) = n ∧
  Forall (in_bounds n) (replicate n (mk_pointdata 0 0 (dzero : D))).
Proof.
  split; [by rewrite length_replicate|].
  apply Forall_replicate. split; simpl; lia.
Qed.

Lemma extrema_chain_runs (x : NumericVector) (p : D) :
  exact_wts x p (extrema_chain x p) ∧
  all_adj (mono_seg x) (idx <$> extrema_chain x p) ∧
  all_adj3 (peak x) (idx <$> extrema_chain x p).
Proof.
  unfold extrema_chain.
  destruct (extrema_inv x p (length x) 0 0 0%Z dzero) as (Hw & Hm & Hp & _);
    [done|done| |].
  { left. split_and!; [done|apply mono_up_refl|apply mono_down_refl]. }
  rewrite drop_0 in Hw, Hm, Hp. split_and!; [|done|done].
  split; [|done]. by intros nd [= <-].
Qed.

(** X2: in exact arithmetic, on a sequence of length at least 2 and links
    of that length with fields in [[0, n]], [DetectLocalExtrema] succeeds and leaves a chain from index 0 to index
    [n - 1] in which the samples rise or fall all the way between two
    consecutive nodes, every inner node is a strict turn (strictly above, or
    strictly below, both its neighbours in the chain), the head has weight
    0 and every other node holds the jump from its predecessor. *)
Theorem DetectLocalExtrema_chain (x : NumericVector) (p : D)
  (links : DoublyLinkedList) :
  2 ≤ length x → length links = length x → Forall (in_bounds (length x)) links →
  ∃ links' c,
    DetectLocalExtrema x links p = Ok links' ∧ repr x links' c ∧
    head (idx <$> c) = Some 0 ∧ last (idx <$> c) = Some (length x - 1) ∧
    exact_wts x p c ∧
    all_adj (mono_seg x) (idx <$> c) ∧
    all_adj3 (peak x) (idx <$> c).
Proof.
  intros Hn Hl Hb.
  destruct (DetectLocalExtrema_sim x p links Hn Hl Hb) as (links' & El & Hr).
  destruct (extrema_chain_runs x p) as (Hw & Hm & Hp).
  exists links', (extrema_chain x p).
  pose proof Hr as [_ Hlast]. by split_and!.
Qed.

(** ** The scan of short intervals *)

Lemma z_loop_sublist (fuel : nat) (x : NumericVector) (p : D) (z : zipper)
  (c : list node) :
  z_loop fuel x p z = Some c → idx <$> c `sublist_of` idx <$> z_chain z.
Proof.
  revert z. induction fuel as [|f IH]; intros z; [done|]. simpl.
  pose proof (z_step_sublist x p z) as Hs.
  destruct (z_step x p z) as [c'|z'].
  - by intros [= <-].
  - intros Hz. etrans; [by apply IH|done].
Qed.

Lemma short_chain_sublist (x : NumericVector) (p : D) (c : list node) :
  idx <$> short_chain x p c `sublist_of` idx <$> c.
Proof.
  unfold short_chain.
  destruct c as [|b [|m1 [|m2 [|e r]]]]; try done.
  cbn [z_open].
  set (z := mk_zipper [] b m1 m2 e r _).
  destruct (z_loop (S (z_measure z)) x p z) as [c'|] eqn:Ez; [|done].
  apply z_loop_sublist in Ez. done.
Qed.

(** X3: on links that hold a chain of at most three nodes (fewer than three
    edges), [CheckShortIntervals] returns from its opening loop: the links
    are left exactly as they are, whatever the loop budget. *)
Theorem CheckShortIntervals_few_edges (fuel : nat) (x : NumericVector) (p : D)
  (links : DoublyLinkedList) (c : list node) :
  repr x links c → length c ≤ 3 →
  CheckShortIntervals fuel x links p = Ok links.
Proof.
  intros Hr Hlen. unfold CheckShortIntervals.
  destruct (csi_open_sim x links c Hr) as [-> _].
  destruct c as [|b [|m1 [|m2 [|e r]]]]; simpl in *; try done. lia.
Qed.

(** X4: [CheckShortIntervals] only unlinks nodes: the chain it leaves is the
    chain it was given with some nodes removed, in the same order, still
    from index 0 to index [n - 1]; and, the arithmetic being exact, with a
    loop budget above three times the length of the chain it does return
    one. *)
Theorem CheckShortIntervals_subchain (fuel : nat) (x : NumericVector) (p : D)
  (links : DoublyLinkedList) (c : list node) :
  repr x links c →
  (∀ links', CheckShortIntervals fuel x links p = Ok links' →
     ∃ c', repr x links' c' ∧ idx <$> c' `sublist_of` idx <$> c ∧
           head (idx <$> c') = Some 0 ∧ last (idx <$> c') = Some (length x - 1)) ∧
  (3 * length c < fuel → ∃ links', CheckShortIntervals fuel x links p = Ok links').
Proof.
  intros Hr. pose proof (CheckShortIntervals_sim fuel x p links c Hr) as Hsim.
  split.
  - intros links' El. pose proof (outcome_inv _ _ _ _ Hsim El) as Hr'.
    exists (short_chain x p c). split_and!; [done|apply short_chain_sublist| |].
    + pose proof Hr' as [(_ & [post ->] & _) _]. done.
    + by destruct Hr'.
  - intros Hf. destruct (outcome_Ok _ _ _ Hsim Hf exact_irreflexive) as (l' & -> & _).
    eauto.
Qed.

(** X5: in exact arithmetic and for an exponent [p >= 1], on a chain with
    exact weights, tight edges and a strict turn at
    every inner node (as [DetectLocalExtrema] leaves it), the chain
    [CheckShortIntervals] leaves has the same three properties and, in
    addition, no three consecutive edges that sum to less than the direct
    jump across them. *)
Theorem CheckShortIntervals_windows (fuel : nat) (x : NumericVector) {p : D}
  (P : PowerLaw p) (links links' : DoublyLinkedList) (c : list node) :
  repr x links c → chain_ok x P c → all_adj3 (peak x) (idx <$> c) →
  CheckShortIntervals fuel x links p = Ok links' →
  ∃ c', repr x links' c' ∧ chain_ok x P c' ∧
        all_adj3 (peak x) (idx <$> c') ∧
        all_adj4 (window_ok x P) (idx <$> c').
Proof.
  intros Hr Hc Hp El.
  pose proof (outcome_inv _ _ _ _ (CheckShortIntervals_sim fuel x p links c Hr) El).
  destruct (short_chain_ok x P c Hc Hp) as (? & ? & ?).
  by exists (short_chain x p c).
Qed.
(** ** Merging two intervals *)

Lemma best_bit_fjoin (x : NumericVector) (p : D) (ait : pvtemppoint D)
  (cur : list (pvtemppoint D)) :
  ∀ s,
    (∀ ta tb, tjoin s = Some (ta, tb) → takefjoin s = fjoin x p (it ta) (it tb)) →
    ∀ ta tb, tjoin (best_bit x p ait cur s) = Some (ta, tb) →
      takefjoin (best_bit x p ait cur s) = fjoin x p (it ta) (it tb).
Proof.
  induction cur as [|bit rest IH]; intros s Hs; [done|].
  simpl. apply IH. destruct (dlt _ _); [|done]. by intros ta tb [= <- <-].
Qed.

Lemma best_ait_fjoin (x : NumericVector) (p : D) (av : list (pvtemppoint D)) :
  ∀ s,
    (∀ ta tb, tjoin s = Some (ta, tb) → takefjoin s = fjoin x p (it ta) (it tb)) →
    ∀ ta tb, tjoin (best_ait x p av s) = Some (ta, tb) →
      takefjoin (best_ait x p av s) = fjoin x p (it ta) (it tb).
Proof.
  induction av as [|ait rest IH]; intros s Hs; [done|].
  simpl. apply IH. by apply best_bit_fjoin.
Qed.

Lemma best_joint_fjoin (x : NumericVector) (p : D) (c : list node) (a v b : nat)
  (ta tb : pvtemppoint D) :
  tjoin (best_joint x p c a v b) = Some (ta, tb) →
  takefjoin (best_joint x p c a v b) = fjoin x p (it ta) (it tb).
Proof.
  unfold best_joint. apply best_ait_fjoin. simpl. by apply best_ait_fjoin.
Qed.

(** X6: [Merge2GoodInt(a, v, b)], on links that hold a chain through the
    nodes [a < v < b], either leaves the chain as it is or removes the nodes
    strictly between two nodes [l] and [r] of the chain with
    [a <= l < v < r <= b], linking [l] to [r] and storing the direct jump
    between them at [r]; no other node is touched.  The arithmetic being
    exact, with a loop budget above the length of the sequence it does
    return. *)
Theorem Merge2GoodInt_excision (fuel : nat) (x : NumericVector) (p : D)
  (links : DoublyLinkedList) (c : list node) (a v b : nat) :
  repr x links c →
  a ∈ idx <$> c → v ∈ idx <$> c → b ∈ idx <$> c → a < v → v < b →
  (∀ links', Merge2GoodInt fuel x p links a v b = Ok links' →
     repr x links' c ∨
     ∃ pre l mid r post,
       c = pre ++ l :: mid ++ r :: post ∧
       a ≤ idx l ∧ idx l < v ∧ v < idx r ∧ idx r ≤ b ∧
       repr x links'
         (pre ++ l :: mk_node (idx r) (fjoin x p (idx l) (idx r)) :: post)) ∧
  (length x < fuel → ∃ links', Merge2GoodInt fuel x p links a v b = Ok links').
Proof.
  intros Hr Ha Hv Hb Hav Hvb.
  pose proof (Merge2GoodInt_sim fuel x p links c a v b Hr Ha Hv Hb
                ltac:(lia) ltac:(lia)) as Hsim.
  pose proof Hr as [(_ & _ & Hs & _) _].
  split; cycle 1.
  { intros Hf. destruct (outcome_Ok _ _ _ Hsim Hf exact_irreflexive) as (l' & -> & _).
    eauto. }
  intros links' El. pose proof (outcome_inv _ _ _ _ Hsim El) as Hr'.
  destruct (merge2_cases x p c a v b Hs Ha Hv Hb Hav Hvb)
    as [Ec|(pre & l & mid & r & post & s & Ec & ? & ? & ? & ? & Es & _ & Hj & Em)].
  { left. by rewrite Ec in Hr'. }
  right. exists pre, l, mid, r, post.
  destruct Hj as (ta & tb & Etj & Hta & Htb).
  rewrite Es in Etj. pose proof (best_joint_fjoin x p c a v b ta tb Etj) as Hf.
  rewrite Hta, Htb, <- Es in Hf. rewrite Em, Hf in Hr'. by split_and!.
Qed.


(** X8: [Merge2GoodInt(a, v, b)] merges two optimal intervals into one, in
    exact arithmetic and for an exponent [p >= 1].  On
    links that hold a chain with exact weights and tight edges in which no
    sequence of indices from [a] to [v], and none from [v] to [b], sums to
    more than the chain does there, it leaves a chain with exact weights and
    tight edges in which no sequence of indices from [a] to [b] sums to more
    than the chain; outside [[a, b]] the chain is as it was. *)
Theorem Merge2GoodInt_optimal (fuel : nat) (x : NumericVector) {p : D}
  (P : PowerLaw p) (links links' : DoublyLinkedList) (c : list node)
  (a v b : nat) :
  repr x links c → chain_ok x P c →
  a ∈ idx <$> c → v ∈ idx <$> c → b ∈ idx <$> c → a ≤ v → v ≤ b →
  opt x P (idx <$> seg a v c) → opt x P (idx <$> seg v b c) →
  Merge2GoodInt fuel x p links a v b = Ok links' →
  ∃ c', repr x links' c' ∧ chain_ok x P c' ∧
        opt x P (idx <$> seg a b c') ∧
        (∀ lo hi, hi ≤ a ∨ b ≤ lo → idx <$> seg lo hi c' = idx <$> seg lo hi c).
Proof.
  intros Hr Hc Ha Hv Hb Hav Hvb HoA HoB El.
  pose proof (outcome_inv _ _ _ _
                (Merge2GoodInt_sim fuel x p links c a v b Hr Ha Hv Hb Hav Hvb) El)
    as Hr'.
  destruct (merge2_ok x P c a v b Hc Ha Hv Hb Hav Hvb HoA HoB)
    as (Hc' & Ho & l & r & Hal & Hrb & Hfil).
  exists (merge2 x p c a v b). split_and!; [done..|].
  intros lo hi Hout. by apply (seg_frame c _ a b l r).
Qed.

(** ** Merging all intervals *)

Lemma boundaries_spans (n : nat) :
  ∀ (rest done : list node) (e : nat),
    length rest ≤ n →
    StronglySorted lt (idx <$> done ++ rest) →
    last (idx <$> done ++ rest) = Some e →
    all_adj (λ a b, length (seg a b (done ++ rest)) ≤ 5)
      (boundaries 4 rest 0 ++ [e]).
Proof.
  induction n as [n IH] using lt_wf_ind. intros rest done e Hn Hs Hlast.
  destruct rest as [|c0 [|c1 [|c2 [|c3 [|c4 rest]]]]].
  - done.
  - rewrite fmap_last, last_snoc in Hlast. injection Hlast as <-.
    simpl. split; [|done]. rewrite seg_single by done. simpl. lia.
  - rewrite fmap_last, (last_app_cons done), last_cons_cons in Hlast.
    injection Hlast as <-. simpl. split; [|done].
    rewrite (seg_sorted done c0 [] c1 [] Hs
             : seg (idx c0) (idx c1) (done ++ [c0; c1]) = [c0; c1]).
    simpl. lia.
  - rewrite fmap_last, (last_app_cons done), !last_cons_cons in Hlast.
    injection Hlast as <-. simpl. split; [|done].
    rewrite (seg_sorted done c0 [c1] c2 [] Hs
             : seg (idx c0) (idx c2) (done ++ [c0; c1; c2]) = [c0; c1; c2]).
    simpl. lia.
  - rewrite fmap_last, (last_app_cons done), !last_cons_cons in Hlast.
    injection Hlast as <-. simpl. split; [|done].
    rewrite (seg_sorted done c0 [c1; c2] c3 [] Hs
             : seg (idx c0) (idx c3) (done ++ [c0; c1; c2; c3]) = [c0; c1; c2; c3]).
    simpl. lia.
  - rewrite boundaries_block.
    assert (done ++ c0 :: c1 :: c2 :: c3 :: c4 :: rest
            = (done ++ [c0; c1; c2; c3]) ++ c4 :: rest) as Eq by (by norm_app).
    pose proof (IH (length (c4 :: rest)) ltac:(simpl in *; lia) (c4 :: rest)
                  (done ++ [c0; c1; c2; c3]) e ltac:(done)) as IH'.
    rewrite <- Eq in IH'. specialize (IH' Hs Hlast).
    cbn [boundaries] in IH' |- *. simpl in IH' |- *.
    split; [|done].
    rewrite (seg_sorted done c0 [c1; c2; c3] c4 rest Hs
             : seg (idx c0) (idx c4) (done ++ c0 :: c1 :: c2 :: c3 :: c4 :: rest)
               = [c0; c1; c2; c3; c4]).
    simpl. lia.
Qed.

(** X9: the first step of [MergeIntervalsRecursively], with intervals of
    four edges.  The boundaries it collects, closed by [n - 1], start at
    index 0, are nodes of the chain in increasing order ([n - 1] possibly
    twice), and between two consecutive boundaries the chain has at most
    five nodes, that is at most four edges.  (The arithmetic being exact,
    the loop does return with a budget above the length of the chain.) *)
Theorem MergeIntervalsRecursively_boundaries (fuel : nat) (x : NumericVector)
  (links : DoublyLinkedList) (c : list node) :
  repr x links c → length c < fuel →
  ∃ il,
    collect fuel (length x) 4 links 0 0 [] = Ok il ∧
    head il = Some 0 ∧
    Forall (λ i, i ∈ idx <$> c) (il ++ [length x - 1]) ∧
    StronglySorted le (il ++ [length x - 1]) ∧
    all_adj (λ a b, length (seg a b c) ≤ 5) (il ++ [length x - 1]).
Proof.
  intros Hr Hf.
  pose proof (collect_sim fuel x links 4 [] c 0 [] Hr) as Hsim.
  pose proof Hr as [(_ & [post Ec] & Hs & _) Hlast].
  assert (cursor x c = 0) as E0 by (by rewrite Ec).
  rewrite E0 in Hsim.
  destruct (outcome_Ok _ _ _ Hsim Hf exact_irreflexive) as (il & El & ->).
  exists (boundaries 4 c 0). simpl.
  destruct (boundaries_ok x links 4 c Hr) as [Hin Hsorted].
  split_and!; [done| |done|done|].
  - by rewrite Ec.
  - apply (boundaries_spans (length c) c [] (length x - 1)); done.
Qed.
Lemma rounds_sublist (x : NumericVector) (p : D) (k : nat) :
  ∀ (il : list nat) (c : list node),
    StronglySorted lt (idx <$> c) → bounds_ok c il →
    idx <$> rounds k x p c il `sublist_of` idx <$> c.
Proof.
  induction k as [|k IH]; intros il c Hs Hb; [done|].
  simpl. case_decide as Hlen; [|done].
  destruct (pass_spec x p il c Hs Hb) as (Hs' & Hb' & _ & _ & _ & Hsub & _).
  destruct (pass x p c il) as [c' il']. simpl in *.
  etrans; [by apply IH|done].
Qed.

Lemma merged_chain_sublist (x : NumericVector) (p : D) (links : DoublyLinkedList)
  (c : list node) :
  repr x links c → idx <$> merged_chain x p 4 c `sublist_of` idx <$> c.
Proof.
  intros Hr. pose proof Hr as [(_ & _ & Hs & _) _].
  apply rounds_sublist; [done|]. by apply (boundaries_ok x links).
Qed.

(** The chain the merges leave is optimal when the scan has been over it. *)
Lemma merged_chain_opt (x : NumericVector) {p : D} (P : PowerLaw p)
  (links : DoublyLinkedList) (c : list node) :
  repr x links c → scanned x P c →
  chain_ok x P (merged_chain x p 4 c) ∧
  ∀ s, path 0 (length x - 1) s →
    (psum x P s <= psum x P (idx <$> merged_chain x p 4 c))%R.
Proof.
  intros Hr Hsc.
  pose proof Hr as [(_ & [post Ec] & Hs & Hlt & _) Hlast].
  pose proof (boundaries_ok x links 4 c Hr) as Hb.
  pose proof (boundaries_parts x P (length x - 1) (length c) c [] ltac:(done) Hsc Hlast)
    as Hpo.
  pose proof Hsc as Hsc'. destruct Hsc as (Hc & _).
  destruct (rounds_ok x P (length (boundaries 4 c 0 ++ [length x - 1]))
              (boundaries 4 c 0 ++ [length x - 1]) c Hc Hb Hpo)
    as (il' & Hc3 & Hpo3 & Hh & Hl & Hk).
  fold (merged_chain x p 4 c) in Hc3, Hpo3.
  split; [done|].
  specialize (Hk ltac:(done)). rewrite last_snoc in Hl.
  assert (head (boundaries 4 c 0 ++ [length x - 1]) = Some 0) as Hh0.
  { rewrite Ec. done. }
  rewrite Hh0 in Hh.
  pose proof (merged_chain_sublist x p links c Hr) as Hsub.
  assert (Forall (λ i, i < length x) (idx <$> merged_chain x p 4 c)) as Hlt3.
  { apply Forall_forall. intros i Hi.
    pose proof (elem_of_sublist _ _ _ Hi Hsub) as (nd & -> & Hnd)%list_elem_of_fmap.
    rewrite Forall_forall in Hlt. by apply Hlt. }
  pose proof (MergeIntervalsRecursively_sim (length x + 2) x p 4 links c Hr) as Hsim.
  destruct (outcome_Ok _ _ _ Hsim ltac:(lia) exact_irreflexive)
    as (links3 & _ & [(_ & [post3 Ec3] & _) Hlast3]).
  destruct il' as [|h0 [|h1 [|h2 il']]]; simpl in Hk; try lia; try done.
  { (* a single sample *)
    simpl in Hh, Hl. assert (length x - 1 = 0) as E0 by congruence.
    rewrite Ec in Hs, Hlt, Hsc' |- *.
    assert (post = []) as ->.
    { destruct post as [|nd post]; [done|].
      apply StronglySorted_cons in Hs as [[? _]%Forall_cons _].
      apply Forall_cons in Hlt as [_ [? _]%Forall_cons]. simpl in *. lia. }
    intros s Hp.
    pose proof (infix_opt x P [] [mk_node 0 dzero] [] Hsc' ltac:(simpl; lia)) as Ho.
    unfold merged_chain. simpl.
    apply (Ho 0 0); [done|done|]. by rewrite E0 in Hp. }
  simpl in Hh. rewrite last_cons_cons in Hl. simpl in Hl. simplify_eq.
  destruct Hpo3 as [Ho _].
  rewrite seg_idx, filter_all in Ho.
  - intros s Hp. apply (Ho 0 (length x - 1)); [by rewrite Ec3|done|done].
  - eapply Forall_impl; [exact Hlt3|]. simpl. intros; lia.
Qed.

(** X10: in exact arithmetic and for an exponent [p >= 1]:
    [MergeIntervalsRecursively], with intervals of four edges, on the
    chain [CheckShortIntervals] leaves (exact weights, tight edges, a strict
    turn at every inner node, no three edges beaten by the jump across
    them): the chain it leaves is a part of that chain, has exact weights,
    and no sequence of indices from 0 to [n - 1] sums to more than it. *)
Theorem MergeIntervalsRecursively_optimal (fuel : nat) (x : NumericVector)
  {p : D} (P : PowerLaw p) (links links' : DoublyLinkedList) (c : list node) :
  repr x links c → scanned x P c →
  MergeIntervalsRecursively fuel x links p 4 = Ok links' →
  ∃ c', repr x links' c' ∧ exact_wts x p c' ∧
        idx <$> c' `sublist_of` idx <$> c ∧
        ∀ s, path 0 (length x - 1) s → (psum x P s <= psum x P (idx <$> c'))%R.
Proof.
  intros Hr Hsc El.
  pose proof (outcome_inv _ _ _ _
                (MergeIntervalsRecursively_sim fuel x p 4 links c Hr) El) as Hr'.
  destruct (merged_chain_opt x P links c Hr Hsc) as [(Hw & _) Hopt].
  exists (merged_chain x p 4 c).
  split_and!; [done|done|by apply (merged_chain_sublist x p links)|done].
Qed.

(** ** The result *)

(** X11: in exact arithmetic and for an exponent [p >= 1], [pvar] computes
    the p-variation: with a loop budget above [3 n] it returns a value that
    is the sum of [|x[j] - x[i]|^p] over the consecutive pairs of some
    strictly increasing sequence of indices, and that no strictly increasing
    sequence of indices exceeds. *)
Theorem pvar_is_pvariation (fuel : nat) (x : NumericVector) {p : D}
  (P : PowerLaw p) :
  3 * length x < fuel →
  ∃ v, pvar fuel x p = Ok v ∧ is_pvariation x p v.
Proof.
  intros Hf. destruct (pvar_value x P) as (c & Hc & Hmax & Hv).
  destruct (Hv fuel Hf) as (v & Ev & Hval).
  exists v. split; [done|]. split.
  - exists c. split; [done|]. apply val_inj. by rewrite (val_subseq_sum x P).
  - intros s Hs. apply val_le. rewrite (val_subseq_sum x P), Hval. by apply Hmax.
Qed.

(** X12: in exact arithmetic and for an exponent [p >= 1], [pvar] agrees
    with the exhaustive search: its result is the largest of the sums of
    [|x[j] - x[i]|^p] along the sublists of [0, 1, ..., n - 1]. *)
Theorem pvar_brute_force (fuel : nat) (x : NumericVector) {p : D}
  (P : PowerLaw p) :
  3 * length x < fuel → pvar fuel x p = Ok (brute_force x p).
Proof.
  intros Hf. destruct (pvar_value x P) as (c & Hc & Hmax & Hv).
  destruct (Hv fuel Hf) as (v & -> & Hval). f_equal. symmetry.
  apply brute_max.
  - apply list_elem_of_fmap. exists c. split; [|by apply subsequence_sublists].
    apply val_inj. by rewrite (val_subseq_sum x P).
  - intros u (s & -> & Hs%subsequence_sublists)%list_elem_of_fmap.
    rewrite (val_subseq_sum x P), Hval. by apply Hmax.
  - rewrite Hval. apply psum_nonneg.
Qed.

Lemma xr_reverse (x : NumericVector) (i : nat) :
  i < length x → xr (reverse x) (length x - 1 - i) = xr x i.
Proof.
  intros Hi. unfold xr, xval. rewrite reverse_lookup by lia.
  by replace (length x - S (length x - 1 - i)) with i by lia.
Qed.

Lemma psum_reverse (x : NumericVector) {p : D} (P : PowerLaw p) (s : list nat) :
  psum x P (reverse s) = psum x P s.
Proof.
  induction s as [|i [|j s] IH]; [done|done|].
  rewrite reverse_cons, (psum_snoc x P (reverse (j :: s)) i j), IH, psum_cons2.
  - rewrite (jump_sym x P j i). lra.
  - by rewrite last_reverse.
Qed.

Lemma psum_mirror (x : NumericVector) {p : D} (P : PowerLaw p) (s : list nat) :
  Forall (λ i, i < length x) s →
  psum (reverse x) P ((λ i, length x - 1 - i) <$> s) = psum x P s.
Proof.
  induction s as [|i [|j s] IH]; [done|done|].
  intros [Hi Hs]%Forall_cons. pose proof Hs as [Hj _]%Forall_cons.
  rewrite !fmap_cons, !psum_cons2. rewrite !fmap_cons in IH. rewrite (IH Hs).
  unfold jump. by rewrite !xr_reverse.
Qed.

Lemma mirror_sorted (n : nat) (s : list nat) :
  StronglySorted lt s → Forall (λ i, i < n) s →
  StronglySorted lt (reverse ((λ i, n - 1 - i) <$> s)).
Proof.
  induction 1 as [|e s Hs IH He]; intros Hb; [constructor|].
  apply Forall_cons in Hb as [Hen Hb].
  rewrite fmap_cons, reverse_cons. apply StronglySorted_app. split_and!.
  - intros e1 e2 He1 ->%list_elem_of_singleton.
    apply elem_of_reverse, list_elem_of_fmap in He1 as (e' & -> & He').
    rewrite Forall_forall in He, Hb. specialize (He _ He'). specialize (Hb _ He').
    simpl in *. lia.
  - by apply IH.
  - repeat constructor.
Qed.

(** Every subsequence of [x] is mirrored by one of [reverse x] with the same
    sum. *)
Lemma subsequence_mirror (x : NumericVector) {p : D} (P : PowerLaw p)
  (s : list nat) :
  subsequence x s →
  ∃ s', subsequence (reverse x) s' ∧ psum (reverse x) P s' = psum x P s.
Proof.
  intros [Hs Hb]. exists (reverse ((λ i, length x - 1 - i) <$> s)). split_and!.
  - split; [by apply mirror_sorted|].
    apply Forall_reverse, Forall_fmap. rewrite length_reverse.
    eapply Forall_impl; [exact Hb|]. simpl. intros; lia.
  - by rewrite psum_reverse, psum_mirror.
Qed.

(** X13: in exact arithmetic and for an exponent [p >= 1], [pvar] returns
    the same value on a sequence and on the sequence read backwards. *)
Theorem pvar_reverse (fuel : nat) (x : NumericVector) {p : D} (P : PowerLaw p) :
  3 * length x < fuel → pvar fuel (reverse x) p = pvar fuel x p.
Proof.
  intros Hf.
  destruct (pvar_value x P) as (c & Hc & Hmax & Hv).
  destruct (pvar_value (reverse x) P) as (c' & Hc' & Hmax' & Hv').
  destruct (Hv fuel Hf) as (v & -> & Hval).
  destruct (Hv' fuel) as (v' & -> & Hval'); [by rewrite length_reverse|].
  f_equal. apply val_inj. rewrite Hval, Hval'. apply Rle_antisym.
  - destruct (subsequence_mirror (reverse x) P c' Hc') as (s & Hs & <-).
    rewrite reverse_involutive in Hs |- *. by apply Hmax.
  - destruct (subsequence_mirror x P c Hc) as (s & Hs & <-). by apply Hmax'.
Qed.

(** On a monotone sequence the chain of local extrema has no inner node. *)
Lemma extrema_chain_monotone (x : NumericVector) (p : D) :
  2 ≤ length x → mono_seg x 0 (length x - 1) →
  extrema_chain x p
  = [mk_node 0 dzero; mk_node (length x - 1) (fjoin x p 0 (length x - 1))].
Proof.
  intros Hn Hm.
  destruct (fresh_links_ok (length x)) as [Hl Hb].
  destruct (DetectLocalExtrema_sim x p _ Hn Hl Hb) as (links & _ & Hr).
  destruct (extrema_chain_runs x p) as ((_ & Hw) & _ & Hp).
  destruct Hr as [(_ & [post Ec] & Hs & Hlt & _) Hlast].
  rewrite Ec in *. destruct post as [|[a wa] [|[b wb] post]].
  - simpl in Hlast. simplify_eq. lia.
  - simpl in Hlast. injection Hlast as ->. destruct Hw as [Hw _].
    simpl in Hw. by rewrite Hw.
  - exfalso. destruct Hp as [Hp _]. simpl in Hp.
    apply StronglySorted_cons in Hs as [[H0a _]%Forall_cons Hs].
    apply StronglySorted_cons in Hs as [[Hab _]%Forall_cons _].
    apply Forall_cons in Hlt as [_ [_ [Hbn _]%Forall_cons]%Forall_cons].
    simpl in *.
    destruct Hm as [Hup|Hdn].
    + pose proof (Hup a b ltac:(lia) ltac:(lia) ltac:(lia)).
      pose proof (Hup 0 a ltac:(lia) ltac:(lia) ltac:(lia)).
      destruct Hp as [[? ?]|[? ?]]; lra.
    + pose proof (Hdn a b ltac:(lia) ltac:(lia) ltac:(lia)).
      pose proof (Hdn 0 a ltac:(lia) ltac:(lia) ltac:(lia)).
      destruct Hp as [[? ?]|[? ?]]; lra.
Qed.

(** X14: in exact arithmetic and for an exponent [p >= 1], on a monotone
    sequence (non-decreasing or non-increasing, equal
    neighbours allowed) of length at least 2, [DetectLocalExtrema] leaves
    the single edge from index 0 to index [n - 1], and [pvar] returns
    [|x[0] - x[n-1]|^p]. *)
Theorem pvar_monotone_input (fuel : nat) (x : NumericVector) {p : D} (P : PowerLaw p) :
  2 ≤ length x → mono_seg x 0 (length x - 1) → 3 * length x < fuel →
  (∃ links,
     DetectLocalExtrema x (replicate (length x) (mk_pointdata 0 0 dzero)) p
       = Ok links ∧
     repr x links
       [mk_node 0 dzero;
        mk_node (length x - 1)
          (pvar_diff (dsub (xval x 0) (xval x (length x - 1))) p)]) ∧
  pvar fuel x p = Ok (pvar_diff (dsub (xval x 0) (xval x (length x - 1))) p).
Proof.
  intros Hn Hm Hf. split.
  - destruct (fresh_links_ok (length x)) as [Hl Hb].
    destruct (DetectLocalExtrema_sim x p _ Hn Hl Hb) as (links & El & Hr).
    rewrite (extrema_chain_monotone x p Hn Hm) in Hr. by exists links.
  - destruct (pvar_value x P) as (c & Hc & Hmax & Hv).
    destruct (Hv fuel Hf) as (v & -> & Hval). f_equal. apply val_inj.
    change (val v = val (fjoin x p 0 (length x - 1))).
    rewrite Hval, (val_fjoin x P). apply Rle_antisym.
    + destruct (psum_extend x P c) as [Hp Hle]; [lia|done|].
      etrans; [exact Hle|].
      apply (mono_psum x P 0 (length x - 1)); [done|done|lia|lia].
    + assert (psum x P [0; length x - 1] = jump x P 0 (length x - 1)) as <-.
      { rewrite psum_cons2. simpl. lra. }
      apply Hmax. split; repeat constructor; simpl; lia.
Qed.

(** X15: the three stages of [pvar] on a sequence of length at least 3, in
    exact arithmetic and for an exponent [p >= 1].
    Each stage leaves a chain from index 0 to index [n - 1]; each chain is
    a part of the one before; the weights of each chain sum to the sum of
    [|x[j] - x[i]|^p] along it, hence to no more than the result of [pvar],
    which is the sum along the last chain. *)
Theorem pvar_stages (fuel : nat) (x : NumericVector) {p : D} (P : PowerLaw p) :
  3 ≤ length x → 3 * length x < fuel →
  ∃ links1 links2 links3 c1 c2 c3 v,
    DetectLocalExtrema x (replicate (length x) (mk_pointdata 0 0 dzero)) p
      = Ok links1 ∧
    CheckShortIntervals fuel x links1 p = Ok links2 ∧
    MergeIntervalsRecursively fuel x links2 p 4 = Ok links3 ∧
    pvar fuel x p = Ok v ∧
    repr x links1 c1 ∧ repr x links2 c2 ∧ repr x links3 c3 ∧
    idx <$> c2 `sublist_of` idx <$> c1 ∧ idx <$> c3 `sublist_of` idx <$> c2 ∧
    chain_sum c1 = subseq_sum x p (idx <$> c1) ∧
    chain_sum c2 = subseq_sum x p (idx <$> c2) ∧
    chain_sum c3 = subseq_sum x p (idx <$> c3) ∧
    dle (chain_sum c1) v = true ∧ dle (chain_sum c2) v = true ∧
    chain_sum c3 = v.
Proof.
  intros Hn Hf.
  destruct (fresh_links_ok (length x)) as [Hl Hb].
  destruct (DetectLocalExtrema_sim x p _ ltac:(lia) Hl Hb) as (links1 & E1 & Hr1).
  pose proof Hr1 as [Hp1 _]. pose proof (prepr_length _ _ _ Hp1) as Hlen1.
  destruct (outcome_Ok _ _ _ (CheckShortIntervals_sim fuel x p links1 _ Hr1))
    as (links2 & E2 & Hr2); [lia|apply exact_irreflexive|].
  destruct (outcome_Ok _ _ _ (MergeIntervalsRecursively_sim fuel x p 4 links2 _ Hr2))
    as (links3 & E3 & Hr3); [lia|apply exact_irreflexive|].
  destruct (outcome_Ok _ _ _ (pvar_sim fuel x p Hn) Hf exact_irreflexive)
    as (v & Ev & Hv).
  destruct (extrema_chain_inv x P) as (Hw1 & Ht1 & Hp1').
  pose proof Hr1 as [(_ & _ & Hs1 & _) _].
  assert (scanned x P (short_chain x p (extrema_chain x p))) as Hsc
    by (by apply short_chain_ok).
  destruct (merged_chain_opt x P links2 _ Hr2 Hsc) as [(Hw3 & _) Hopt].
  pose proof Hsc as ((Hw2 & _) & _).
  fold (final_chain x p) in Hw3, Hopt, Hr3.
  assert (∀ links c, repr x links c → path 0 (length x - 1) (idx <$> c)) as Hpath.
  { intros links c [(_ & [post ->] & Hs & _) Hlast].
    split_and!; [by apply sorted_lt_le|done|done]. }
  assert (∀ c, exact_wts x p c → chain_sum c = subseq_sum x p (idx <$> c)) as Hsum.
  { intros c Hw. apply val_inj.
    by rewrite (chain_sum_psum x P), (val_subseq_sum x P). }
  exists links1, links2, links3, (extrema_chain x p),
    (short_chain x p (extrema_chain x p)), (final_chain x p), v.
  split_and!; try done.
  - apply short_chain_sublist.
  - by apply (merged_chain_sublist x p links2).
  - by apply Hsum.
  - by apply Hsum.
  - by apply Hsum.
  - apply val_le. rewrite Hv, !(chain_sum_psum x P) by done.
    apply Hopt. by apply (Hpath links1).
  - apply val_le. rewrite Hv, !(chain_sum_psum x P) by done.
    apply Hopt. by apply (Hpath links2).
Qed.

(** X16: the closing walk of [pvar], in exact arithmetic and for an
    exponent [p >= 1].  On links that hold a chain with exact
    weights, and with a loop budget above the length of the chain, it
    returns the sum of [|x[j] - x[i]|^p] over the consecutive nodes of the
    chain. *)
Theorem accumulate_chain (fuel : nat) (x : NumericVector) {p : D} (P : PowerLaw p)
  (links : DoublyLinkedList) (c : list node) :
  repr x links c → exact_wts x p c → length c < fuel →
  accumulate fuel (length x) links 0 dzero = Ok (subseq_sum x p (idx <$> c)).
Proof.
  intros Hr Hw Hf.
  pose proof (accumulate_sim fuel x links [] c dzero Hr) as Hsim.
  pose proof Hr as [(_ & [post Ec] & _) _].
  assert (cursor x c = 0) as E0 by (by rewrite Ec).
  rewrite E0 in Hsim.
  destruct (outcome_Ok _ _ _ Hsim Hf exact_irreflexive) as (v & -> & ->).
  f_equal. apply val_inj.
  change (val (chain_sum c) = val (subseq_sum x p (idx <$> c))).
  by rewrite (chain_sum_psum x P), (val_subseq_sum x P).
Qed.
(** ** The candidates of the walks *)

(** The records are found at the positions of the points that undercut the
    start and every point before them. *)
Lemma records_positions (x : NumericVector) (less : D → D → bool) (k : D → R)
  (vs : list (pvtemppoint D)) :
  (∀ a b, less a b = true ↔ (k a < k b)%R) →
  ∀ cur,
    ∃ ks : list nat,
      StronglySorted lt ks ∧
      Forall2 (λ i t, vs !! i = Some t) ks (records x less cur vs) ∧
      ∀ i, i ∈ ks ↔
        ∃ t, vs !! i = Some t ∧ (k (xval x (it t)) < k cur)%R ∧
             ∀ j t', j < i → vs !! j = Some t' →
               (k (xval x (it t)) < k (xval x (it t')))%R.
Proof.
  intros Hless. induction vs as [|t vs IH]; intros cur.
  { exists []. split_and!; [constructor|constructor|].
    intros i. split; [by intros ?%elem_of_nil|]. by intros (u & ? & _). }
  cbn [records].
  assert (∀ ks' : list nat, StronglySorted lt (S <$> ks')
                            → StronglySorted lt (0 :: (S <$> ks'))) as Hcons.
  { intros ks' Hs. constructor; [done|]. apply Forall_fmap, Forall_forall.
    intros; simpl; lia. }
  assert (∀ ks' : list nat, StronglySorted lt ks' → StronglySorted lt (S <$> ks'))
    as Hshift.
  { intros ks'. apply StronglySorted_fmap. intros; lia. }
  destruct (less (xval x (it t)) cur) eqn:Hc.
  - apply Hless in Hc.
    destruct (IH (xval x (it t))) as (ks' & Hs & Hf & Hiff).
    exists (0 :: (S <$> ks')). split_and!.
    + by apply Hcons, Hshift.
    + constructor; [done|]. by apply Forall2_fmap_l.
    + intros [|i]; split.
      * intros _. exists t. split_and!; [done|done|]. intros; lia.
      * intros _. left.
      * intros [?|Hi]%elem_of_cons; [done|].
        apply list_elem_of_fmap in Hi as (i' & [= <-] & Hi').
        apply Hiff in Hi' as (u & Hu & Hlt & Hall).
        exists u. split_and!; [done|lra|].
        intros [|j] u' Hj Hu'; [simpl in Hu'; by simplify_eq|].
        apply (Hall j); [lia|done].
      * intros (u & Hu & Hlt & Hall). right. apply list_elem_of_fmap_2.
        apply Hiff. exists u. split_and!; [done| |].
        -- apply (Hall 0 t); [lia|done].
        -- intros j u' Hj Hu'. apply (Hall (S j)); [lia|done].
  - assert (k cur <= k (xval x (it t)))%R as Hge.
    { destruct (Rle_or_lt (k cur) (k (xval x (it t)))) as [|Hlt]; [done|].
      apply Hless in Hlt. congruence. }
    destruct (IH cur) as (ks' & Hs & Hf & Hiff).
    exists (S <$> ks'). split_and!.
    + by apply Hshift.
    + by apply Forall2_fmap_l.
    + intros [|i]; split.
      * by intros (i' & [=] & _)%list_elem_of_fmap.
      * intros (u & [= <-] & Hlt & _). lra.
      * intros (i' & [= <-] & Hi')%list_elem_of_fmap.
        apply Hiff in Hi' as (u & Hu & Hlt & Hall).
        exists u. split_and!; [done|done|].
        intros [|j] u' Hj Hu'; [simpl in Hu'; simplify_eq; lra|].
        apply (Hall j); [lia|done].
      * intros (u & Hu & Hlt & Hall). apply list_elem_of_fmap_2.
        apply Hiff. exists u. split_and!; [done|done|].
        intros j u' Hj Hu'. apply (Hall (S j)); [lia|done].
Qed.

Lemma records_strict (x : NumericVector) (less : D → D → bool) (k : D → R)
  (below : R → R → Prop) (v : nat) (vs : list (pvtemppoint D)) :
  (∀ a b, less a b = true ↔ (k a < k b)%R) →
  (∀ a b, (k a < k b)%R ↔ below (val a) (val b)) →
  strict_records x below v (it <$> vs) (it <$> records x less (xval x v) vs).
Proof.
  intros Hless Hbelow.
  destruct (records_positions x less k vs Hless (xval x v)) as (ks & Hs & Hf & Hiff).
  exists ks. split_and!; [done| |].
  - apply Forall2_fmap_r. eapply Forall2_impl; [exact Hf|].
    intros i t Hi. simpl. by rewrite list_lookup_fmap, Hi.
  - intros i. rewrite Hiff. unfold xr. split.
    + intros (t & Ht & Hlt & Hall). exists (it t). split_and!.
      * by rewrite list_lookup_fmap, Ht.
      * by apply Hbelow.
      * intros j u' Hj Hu'. rewrite list_lookup_fmap in Hu'.
        destruct (vs !! j) as [t'|] eqn:Et'; [|done]. injection Hu' as <-.
        apply Hbelow. by apply (Hall j).
    + intros (u & Hu & Hlt & Hall). rewrite list_lookup_fmap in Hu.
      destruct (vs !! i) as [t|] eqn:Et; [|done]. injection Hu as <-.
      exists t. split_and!; [done|by apply Hbelow|].
      intros j t' Hj Ht'. apply Hbelow. apply (Hall j); [done|].
      by rewrite list_lookup_fmap, Ht'.
Qed.

Lemma walk_over_records (x : NumericVector) (v : nat) (vs : list (pvtemppoint D)) :
  strict_records x Rlt v (it <$> vs) (it <$> w_mins (walk_over x vs (walk0 x v))) ∧
  strict_records x Rgt v (it <$> vs) (it <$> w_maxs (walk_over x vs (walk0 x v))).
Proof.
  rewrite walk_over_mins, walk_over_maxs. simpl. split.
  - apply (records_strict x dlt val); [apply val_lt|done].
  - apply (records_strict x (λ a b, dlt b a) (λ d, (- val d)%R)).
    + intros a b. rewrite val_lt. split; lra.
    + intros a b. unfold Rgt. split; lra.
Qed.

Lemma back_visits_it (cur : node) (rest : list node) (ev0 : D) :
  it <$> back_visits cur rest ev0 = idx <$> rest.
Proof.
  revert cur ev0. induction rest as [|u rest IH]; intros cur ev0; [done|].
  cbn [back_visits]. by rewrite !fmap_cons, IH.
Qed.

Lemma forth_visits_it (rest : list node) (ev0 : D) :
  it <$> forth_visits rest ev0 = idx <$> rest.
Proof.
  revert ev0. induction rest as [|u rest IH]; intros ev0; [done|].
  cbn [forth_visits]. by rewrite !fmap_cons, IH.
Qed.

(** X17: the candidates of [Merge2GoodInt], in exact arithmetic.  On links
    that hold a chain through the nodes [a < v < b], and with a loop budget
    above the length of the sequence, both walks from [v] return: the walk
    back visits the nodes before [v] down to [a], the walk forth the nodes
    after [v] up to [b].  After each walk the min vector lists, in the order
    of the walk, exactly the visited nodes whose value is strictly below
    [x[v]] and strictly below the value at every node visited before (the
    strict running minima), and the max vector exactly those strictly above
    [x[v]] and above every node visited before (the strict running
    maxima). *)
Theorem Merge2GoodInt_candidates (fuel : nat) (x : NumericVector)
  (links : DoublyLinkedList) (pre : list node) (na : node) (m1 : list node)
  (nv : node) (m2 : list node) (nb : node) (post : list node) :
  repr x links (pre ++ na :: m1 ++ nv :: m2 ++ nb :: post) → length x < fuel →
  let w0 := mk_walk dzero (idx nv) (xval x (idx nv)) (xval x (idx nv)) [] [] in
  ∃ wa wb,
    walk_back fuel x links (idx na) w0 = Ok wa ∧
    walk_forth fuel x links (idx nb) w0 = Ok wb ∧
    strict_records x Rlt (idx nv) (idx <$> reverse (na :: m1)) (it <$> w_mins wa) ∧
    strict_records x Rgt (idx nv) (idx <$> reverse (na :: m1)) (it <$> w_maxs wa) ∧
    strict_records x Rlt (idx nv) (idx <$> m2 ++ [nb]) (it <$> w_mins wb) ∧
    strict_records x Rgt (idx nv) (idx <$> m2 ++ [nb]) (it <$> w_maxs wb).
Proof.
  intros Hr Hf w0. fold (walk0 x (idx nv)) in w0. subst w0.
  pose proof Hr as [Hp _]. pose proof (prepr_length _ _ _ Hp) as Hlen.
  rewrite !length_app in Hlen. simpl in Hlen.
  rewrite !length_app in Hlen. simpl in Hlen.
  rewrite !length_app in Hlen. simpl in Hlen.
  pose proof (walk_back_sim fuel x links pre (reverse m1 ++ [na]) nv
                (m2 ++ nb :: post) (walk0 x (idx nv))) as Hwb.
  rewrite last_snoc, reverse_app, reverse_involutive in Hwb. simpl in Hwb.
  destruct (outcome_Ok _ _ _ (Hwb Hp eq_refl)) as (wa & Ea & ->);
    [rewrite length_app, length_reverse; simpl; lia|apply exact_irreflexive|].
  pose proof (walk_forth_sim fuel x links (pre ++ na :: m1) nv (m2 ++ [nb]) post
                (walk0 x (idx nv))) as Hwf.
  rewrite last_snoc in Hwf. simpl in Hwf.
  destruct (outcome_Ok _ _ _ (Hwf ltac:(by norm_app) eq_refl)) as (wb & Eb & ->);
    [rewrite length_app; simpl; lia|apply exact_irreflexive|].
  eexists _, _. split; [exact Ea|]. split; [exact Eb|].
  rewrite reverse_cons.
  rewrite back_walk_visits, forth_walk_visits.
  rewrite <- (back_visits_it nv (reverse m1 ++ [na]) (w_ev (walk0 x (idx nv)))).
  rewrite <- (forth_visits_it (m2 ++ [nb]) (w_ev (walk0 x (idx nv)))).
  destruct (walk_over_records x (idx nv)
              (back_visits nv (reverse m1 ++ [na]) (w_ev (walk0 x (idx nv))))).
  destruct (walk_over_records x (idx nv)
              (forth_visits (m2 ++ [nb]) (w_ev (walk0 x (idx nv))))).
  done.
Qed.
(** ** The passes over the boundaries *)

(** X18: one pass of the merging loop of [MergeIntervalsRecursively] over
    the boundary list.  Whatever the links, if it returns, the list it
    leaves keeps the first and the last boundary, is a part of the list it
    started from, in the same order, and of [m >= 2] boundaries it leaves
    [m / 2 + 1]: every second boundary is erased. *)
Theorem merge_pass_boundaries (fuel : nat) (x : NumericVector) (p : D)
  (il : list nat) :
  ∀ (links links' : DoublyLinkedList) (il' : list nat),
    merge_pass fuel x p links il = Ok (links', il') →
    il' `sublist_of` il ∧ head il' = head il ∧ last il' = last il ∧
    (2 ≤ length il → length il' = length il / 2 + 1).
Proof.
  assert (∀ k (il : list nat), length il ≤ k →
          ∀ (links links' : DoublyLinkedList) (il' : list nat),
            merge_pass fuel x p links il = Ok (links', il') →
            il' `sublist_of` il ∧ head il' = head il ∧ last il' = last il ∧
            (2 ≤ length il → length il' = length il / 2 + 1)) as Hgen;
    [|by apply (Hgen (length il))].
  clear il. intros k. induction k as [|k IH]; intros il Hk links links' il'.
  { destruct il; [|simpl in Hk; lia]. intros [= <- <-].
    split_and!; [done..|simpl; lia]. }
  destruct il as [|a [|v [|b tl]]];
    try (intros [= <- <-]; split_and!; [done..|simpl; intros; first [lia|done]]).
  rewrite merge_pass_cons3.
  destruct (Merge2GoodInt fuel x p links a v b) as [l1| | |]; try done.
  cbn [mbind res_bind].
  destruct (merge_pass fuel x p l1 (b :: tl)) as [[l2 tl']| | |] eqn:E2; try done.
  intros Hres. simpl in Hres. injection Hres as <- <-.
  destruct (IH (b :: tl) ltac:(simpl in *; lia) l1 l2 tl' E2)
    as (Hsub & Hh & Hl & Hlen).
  destruct tl' as [|b' tl']; [done|]. injection Hh as ->.
  split_and!.
  - by apply sublist_skip, sublist_cons.
  - done.
  - by rewrite !last_cons_cons.
  - intros _. destruct tl as [|w tl].
    + destruct tl'; [done|].
      apply sublist_length in Hsub. simpl in Hsub. lia.
    + specialize (Hlen ltac:(simpl; lia)).
      assert (∀ m, (m + 2) / 2 = m / 2 + 1) as Hdiv.
      { intros m. replace (m + 2) with (m + 1 * 2) by lia. by rewrite Nat.div_add. }
      replace (length (a :: v :: b :: w :: tl)) with (length (b :: w :: tl) + 2)
        by (simpl; lia).
      rewrite Hdiv, <- Hlen. simpl. lia.
Qed.

End Properties.

End Program.

(** * Exact arithmetic on integers

    On integer samples and an integer exponent, small enough for every
    intermediate value to stay below 2^53, the [double] operations of the
    source are exact and coincide with the following instance. *)

#[global] Instance Z_ops : DoubleOps Z := {|
  dzero := 0%Z;
  dadd := Z.add;
  dsub := Z.sub;
  dlt := Z.ltb;
  dle := Z.leb;
  dabs := Z.abs;
  dpow := Z.pow;
|}.

(** The examples of the specification. *)
Example pvar_up_down : pvar 16 [0; 1; 0]%Z 1%Z = Ok 2%Z.
Proof. reflexivity. Qed.
Example pvar_monotone : pvar 16 [1; 2; 3; 4; 5]%Z 2%Z = Ok 16%Z.
Proof. reflexivity. Qed.
Example pvar_zigzag : pvar 16 [0; 1; 0; 1; 0]%Z 1%Z = Ok 4%Z.
Proof. reflexivity. Qed.
Example pvar_pair : pvar 0 [2; 5]%Z 3%Z = Ok 27%Z.
Proof. reflexivity. Qed.

(** A chain of four extrema, and the window over its three edges. *)
Definition zigzag4 : list Z := [0; 2; 1; 3]%Z.
Definition zigzag4_window : zipper :=
  mk_zipper [] (mk_node 0 0%Z) (mk_node 1 2%Z) (mk_node 2 1%Z) (mk_node 3 2%Z) [] 5%Z.

Lemma CheckShortIntervals_step_witness :
  ∃ links,
    repr zigzag4 links (z_chain zigzag4_window) ∧
    csi_step zigzag4 1%Z links (z_window zigzag4_window) = Ok (links, None).
Proof.
  destruct (DetectLocalExtrema_sim zigzag4 1%Z (replicate 4 (mk_pointdata 0 0 0%Z)))
    as (links & _ & Hr);
    [simpl; lia|reflexivity|repeat constructor; simpl; lia|].
  exists links. split; [exact Hr|].
  exact (CheckShortIntervals_step zigzag4 1%Z links zigzag4_window Hr).
Defined.


(** The integers are an exact arithmetic. *)
#[global, refine] Instance Z_exact : ExactOps Z := {| val := IZR |}.
Proof.
  - exact eq_IZR.
  - reflexivity.
  - exact plus_IZR.
  - exact minus_IZR.
  - exact abs_IZR.
  - intros a b. simpl. rewrite Z.ltb_lt. split; [apply IZR_lt|apply lt_IZR].
  - intros a b. simpl. rewrite Z.leb_le. split; [apply IZR_le|apply le_IZR].
Defined.

(** The increments of [t ↦ t^n] grow, on the non-negative reals. *)
Lemma pow_increments (n : nat) (s t c : R) :
  (0 <= s)%R → (s <= t)%R → (0 <= c)%R →
  ((s + c) ^ n - s ^ n <= (t + c) ^ n - t ^ n)%R.
Proof.
  intros Hs Hst Hc. induction n as [|n IH]; simpl; [lra|].
  assert (s ^ n <= t ^ n)%R by (apply pow_incr; lra).
  assert (0 <= s ^ n)%R by (apply pow_le; lra).
  assert (0 <= (s + c) ^ n - s ^ n)%R.
  { assert (s ^ n <= (s + c) ^ n)%R by (apply pow_incr; lra). lra. }
  assert ((s + c) * (s + c) ^ n - s * s ^ n
          = s * ((s + c) ^ n - s ^ n) + c * (s + c) ^ n)%R as -> by ring.
  assert ((t + c) * (t + c) ^ n - t * t ^ n
          = t * ((t + c) ^ n - t ^ n) + c * (t + c) ^ n)%R as -> by ring.
  assert ((s + c) ^ n <= (t + c) ^ n)%R by (apply pow_incr; lra).
  assert (s * ((s + c) ^ n - s ^ n) <= t * ((t + c) ^ n - t ^ n))%R.
  { apply Rmult_le_compat; lra. }
  assert (c * (s + c) ^ n <= c * (t + c) ^ n)%R by (apply Rmult_le_compat_l; lra).
  lra.
Qed.

(** Every integer exponent [n >= 1] is a power law. *)
#[refine] Definition Z_power (n : nat) (Hn : 1 ≤ n) : PowerLaw (Z.of_nat n) :=
  {| phi := λ t, (t ^ n)%R |}.
Proof.
  - intros a _. simpl. symmetry. apply pow_IZR.
  - apply pow_i. lia.
  - intros t Ht. by apply pow_lt.
  - intros s t Hs Hst. by apply pow_incr.
  - intros s t c. apply pow_increments.
Defined.

(** * Instances on integers *)

Definition zigzag6 : list Z := [0; 2; 1; 3; 2; 4]%Z.
Definition rising5 : list Z := [1; 2; 3; 4; 5]%Z.
Definition square : PowerLaw 2%Z := Z_power 2 (le_S 1 1 (le_n 1)).

Lemma fresh_links (x : list Z) (p : Z) :
  2 ≤ length x →
  ∃ links,
    DetectLocalExtrema x (replicate (length x) (mk_pointdata 0 0 0%Z)) p = Ok links ∧
    repr x links (extrema_chain x p).
Proof.
  intros Hn. destruct (fresh_links_ok (D:=Z) (length x)) as [Hl Hb].
  by apply DetectLocalExtrema_sim.
Qed.

Lemma zigzag6_chain :
  extrema_chain zigzag6 2%Z
  = [mk_node 0 0%Z; mk_node 1 4%Z; mk_node 2 1%Z; mk_node 3 4%Z;
     mk_node 4 1%Z; mk_node 5 4%Z].
Proof. reflexivity. Qed.

Lemma zigzag6_short :
  short_chain zigzag6 2%Z (extrema_chain zigzag6 2%Z) = extrema_chain zigzag6 2%Z.
Proof. reflexivity. Qed.

Lemma zigzag6_scanned : scanned zigzag6 square (extrema_chain zigzag6 2%Z).
Proof.
  destruct (fresh_links zigzag6 2%Z) as (links & _ & [(_ & _ & Hs & _) _]);
    [simpl; lia|].
  destruct (extrema_chain_inv zigzag6 square) as (Hw & Ht & Hp).
  rewrite <- zigzag6_short. by apply short_chain_ok.
Qed.

Lemma rising5_monotone : mono_seg rising5 0 4.
Proof.
  left. intros k k' _ Hkk Hk'.
  assert (k' = 0 ∨ k' = 1 ∨ k' = 2 ∨ k' = 3 ∨ k' = 4) as Hc' by lia.
  assert (k = 0 ∨ k = 1 ∨ k = 2 ∨ k = 3 ∨ k = 4) as Hc by lia.
  destruct Hc as [ -> |[ -> |[ -> |[ -> | -> ]]]];
    destruct Hc' as [ -> |[ -> |[ -> |[ -> | -> ]]]];
    try lia; unfold xr, xval, rising5; simpl; apply IZR_le; lia.
Qed.

(** * The properties, on instances *)

Lemma DetectLocalExtrema_chain_witness :
  ∃ links' c,
    DetectLocalExtrema zigzag6 (replicate 6 (mk_pointdata 0 0 0%Z)) 2%Z = Ok links' ∧
    repr zigzag6 links' c ∧
    head (idx <$> c) = Some 0 ∧ last (idx <$> c) = Some 5 ∧
    exact_wts zigzag6 2%Z c ∧
    all_adj (mono_seg zigzag6) (idx <$> c) ∧
    all_adj3 (peak zigzag6) (idx <$> c).
Proof.
  destruct (fresh_links_ok (D:=Z) 6) as [Hl Hb].
  exact (DetectLocalExtrema_chain zigzag6 2%Z (replicate 6 (mk_pointdata 0 0 0%Z))
           ltac:(simpl; lia) Hl Hb).
Defined.

Lemma CheckShortIntervals_few_edges_witness :
  ∃ links,
    repr [0; 1; 0]%Z links (extrema_chain [0; 1; 0]%Z 1%Z) ∧
    length (extrema_chain [0; 1; 0]%Z 1%Z) ≤ 3 ∧
    CheckShortIntervals 0 [0; 1; 0]%Z links 1%Z = Ok links.
Proof.
  destruct (fresh_links [0; 1; 0]%Z 1%Z) as (links & _ & Hr); [simpl; lia|].
  exists links. split; [exact Hr|]. split; [simpl; lia|].
  apply (CheckShortIntervals_few_edges 0 [0; 1; 0]%Z 1%Z links _ Hr). simpl; lia.
Defined.

Lemma CheckShortIntervals_subchain_witness :
  ∃ links,
    repr zigzag4 links (extrema_chain zigzag4 3%Z) ∧
    (∀ links', CheckShortIntervals 13 zigzag4 links 3%Z = Ok links' →
       ∃ c', repr zigzag4 links' c' ∧
             idx <$> c' `sublist_of` idx <$> extrema_chain zigzag4 3%Z ∧
             head (idx <$> c') = Some 0 ∧ last (idx <$> c') = Some 3) ∧
    (3 * length (extrema_chain zigzag4 3%Z) < 13 →
     ∃ links', CheckShortIntervals 13 zigzag4 links 3%Z = Ok links').
Proof.
  destruct (fresh_links zigzag4 3%Z) as (links & _ & Hr); [simpl; lia|].
  exists links. split; [exact Hr|].
  exact (CheckShortIntervals_subchain 13 zigzag4 3%Z links _ Hr).
Defined.

Lemma CheckShortIntervals_windows_witness :
  ∃ links links' c',
    repr zigzag6 links (extrema_chain zigzag6 2%Z) ∧
    chain_ok zigzag6 square (extrema_chain zigzag6 2%Z) ∧
    all_adj3 (peak zigzag6) (idx <$> extrema_chain zigzag6 2%Z) ∧
    CheckShortIntervals 19 zigzag6 links 2%Z = Ok links' ∧
    repr zigzag6 links' c' ∧ chain_ok zigzag6 square c' ∧
    all_adj3 (peak zigzag6) (idx <$> c') ∧
    all_adj4 (window_ok zigzag6 square) (idx <$> c').
Proof.
  destruct (fresh_links zigzag6 2%Z) as (links & _ & Hr); [simpl; lia|].
  destruct (outcome_Ok _ _ _ (CheckShortIntervals_sim 19 zigzag6 2%Z links _ Hr))
    as (links' & El & _); [simpl; lia|reflexivity|].
  destruct zigzag6_scanned as (Hc & Hp & _).
  destruct (CheckShortIntervals_windows 19 zigzag6 square links links' _ Hr Hc Hp El)
    as (c' & Hr' & Hc' & Hp' & Hw').
  exists links, links', c'. repeat (split; [assumption|]). assumption.
Defined.

Lemma Merge2GoodInt_excision_witness :
  ∃ links,
    repr zigzag6 links (extrema_chain zigzag6 2%Z) ∧
    (∀ links', Merge2GoodInt 7 zigzag6 2%Z links 0 4 5 = Ok links' →
       repr zigzag6 links' (extrema_chain zigzag6 2%Z) ∨
       ∃ pre l mid r post,
         extrema_chain zigzag6 2%Z = pre ++ l :: mid ++ r :: post ∧
         0 ≤ idx l ∧ idx l < 4 ∧ 4 < idx r ∧ idx r ≤ 5 ∧
         repr zigzag6 links'
           (pre ++ l :: mk_node (idx r) (fjoin zigzag6 2%Z (idx l) (idx r)) :: post)) ∧
    (length zigzag6 < 7 → ∃ links', Merge2GoodInt 7 zigzag6 2%Z links 0 4 5 = Ok links').
Proof.
  destruct (fresh_links zigzag6 2%Z) as (links & _ & Hr); [simpl; lia|].
  exists links. split; [exact Hr|].
  apply (Merge2GoodInt_excision 7 zigzag6 2%Z links _ 0 4 5 Hr);
    first [by (vm_compute; repeat constructor) | lia].
Defined.


Lemma Merge2GoodInt_optimal_witness :
  ∃ links links' c',
    repr zigzag6 links (extrema_chain zigzag6 2%Z) ∧
    opt zigzag6 square (idx <$> seg 0 4 (extrema_chain zigzag6 2%Z)) ∧
    opt zigzag6 square (idx <$> seg 4 5 (extrema_chain zigzag6 2%Z)) ∧
    Merge2GoodInt 7 zigzag6 2%Z links 0 4 5 = Ok links' ∧
    repr zigzag6 links' c' ∧ chain_ok zigzag6 square c' ∧
    opt zigzag6 square (idx <$> seg 0 5 c') ∧
    (∀ lo hi, hi ≤ 0 ∨ 5 ≤ lo →
       idx <$> seg lo hi c' = idx <$> seg lo hi (extrema_chain zigzag6 2%Z)).
Proof.
  destruct (fresh_links zigzag6 2%Z) as (links & _ & Hr); [simpl; lia|].
  assert (0 ∈ idx <$> extrema_chain zigzag6 2%Z) as H0
    by (vm_compute; repeat constructor).
  assert (4 ∈ idx <$> extrema_chain zigzag6 2%Z) as H4
    by (vm_compute; repeat constructor).
  assert (5 ∈ idx <$> extrema_chain zigzag6 2%Z) as H5
    by (vm_compute; repeat constructor).
  destruct (outcome_Ok _ _ _
              (Merge2GoodInt_sim 7 zigzag6 2%Z links _ 0 4 5 Hr H0 H4 H5
                 ltac:(lia) ltac:(lia)))
    as (links' & El & _); [simpl; lia|reflexivity|].
  pose proof zigzag6_scanned as Hsc. pose proof Hsc as (Hc & _).
  rewrite zigzag6_chain in Hsc.
  pose proof (infix_opt zigzag6 square []
                [mk_node 0 0%Z; mk_node 1 4%Z; mk_node 2 1%Z; mk_node 3 4%Z;
                 mk_node 4 1%Z] [mk_node 5 4%Z] Hsc ltac:(simpl; lia)) as HoA.
  pose proof (infix_opt zigzag6 square
                [mk_node 0 0%Z; mk_node 1 4%Z; mk_node 2 1%Z; mk_node 3 4%Z]
                [mk_node 4 1%Z; mk_node 5 4%Z] [] Hsc ltac:(simpl; lia)) as HoB.
  destruct (Merge2GoodInt_optimal 7 zigzag6 square links links' _ 0 4 5 Hr Hc
              H0 H4 H5 ltac:(lia) ltac:(lia) HoA HoB El)
    as (c' & Hr' & Hc' & Ho' & Hfr).
  exists links, links', c'. repeat (split; [assumption|]). assumption.
Defined.

Lemma MergeIntervalsRecursively_boundaries_witness :
  ∃ links il,
    repr zigzag6 links (extrema_chain zigzag6 2%Z) ∧
    collect 7 6 4 links 0 0 [] = Ok il ∧
    head il = Some 0 ∧
    Forall (λ i, i ∈ idx <$> extrema_chain zigzag6 2%Z) (il ++ [5]) ∧
    StronglySorted le (il ++ [5]) ∧
    all_adj (λ a b, length (seg a b (extrema_chain zigzag6 2%Z)) ≤ 5) (il ++ [5]).
Proof.
  destruct (fresh_links zigzag6 2%Z) as (links & _ & Hr); [simpl; lia|].
  destruct (MergeIntervalsRecursively_boundaries 7 zigzag6 links _ Hr
              ltac:(simpl; lia)) as (il & Hil).
  exists links, il. split; [exact Hr|exact Hil].
Defined.

Lemma MergeIntervalsRecursively_optimal_witness :
  ∃ links links' c',
    repr zigzag6 links (extrema_chain zigzag6 2%Z) ∧
    scanned zigzag6 square (extrema_chain zigzag6 2%Z) ∧
    MergeIntervalsRecursively 9 zigzag6 links 2%Z 4 = Ok links' ∧
    repr zigzag6 links' c' ∧ exact_wts zigzag6 2%Z c' ∧
    idx <$> c' `sublist_of` idx <$> extrema_chain zigzag6 2%Z ∧
    ∀ s, path 0 5 s →
      (psum zigzag6 square s <= psum zigzag6 square (idx <$> c'))%R.
Proof.
  destruct (fresh_links zigzag6 2%Z) as (links & _ & Hr); [simpl; lia|].
  destruct (outcome_Ok _ _ _
              (MergeIntervalsRecursively_sim 9 zigzag6 2%Z 4 links _ Hr))
    as (links' & El & _); [simpl; lia|reflexivity|].
  destruct (MergeIntervalsRecursively_optimal 9 zigzag6 square links links' _ Hr
              zigzag6_scanned El) as (c' & Hr' & Hw' & Hsub & Hopt).
  exists links, links', c'.
  split; [exact Hr|]. split; [exact zigzag6_scanned|].
  repeat (split; [assumption|]). assumption.
Defined.

Lemma pvar_is_pvariation_witness :
  3 * length zigzag6 < 19 ∧
  ∃ v, pvar 19 zigzag6 2%Z = Ok v ∧ is_pvariation zigzag6 2%Z v.
Proof.
  assert (3 * length zigzag6 < 19) as Hf by (simpl; lia).
  split; [exact Hf|]. exact (pvar_is_pvariation 19 zigzag6 square Hf).
Defined.

Lemma pvar_brute_force_witness :
  3 * length zigzag6 < 19 ∧ pvar 19 zigzag6 2%Z = Ok (brute_force zigzag6 2%Z).
Proof.
  assert (3 * length zigzag6 < 19) as Hf by (simpl; lia).
  split; [exact Hf|]. exact (pvar_brute_force 19 zigzag6 square Hf).
Defined.

Lemma pvar_reverse_witness :
  3 * length zigzag6 < 19 ∧ pvar 19 (reverse zigzag6) 2%Z = pvar 19 zigzag6 2%Z.
Proof.
  assert (3 * length zigzag6 < 19) as Hf by (simpl; lia).
  split; [exact Hf|]. exact (pvar_reverse 19 zigzag6 square Hf).
Defined.

Lemma pvar_monotone_input_witness :
  mono_seg rising5 0 4 ∧
  (∃ links,
     DetectLocalExtrema rising5 (replicate 5 (mk_pointdata 0 0 0%Z)) 2%Z = Ok links ∧
     repr rising5 links [mk_node 0 0%Z; mk_node 4 16%Z]) ∧
  pvar 16 rising5 2%Z = Ok 16%Z.
Proof.
  split; [exact rising5_monotone|].
  exact (pvar_monotone_input 16 rising5 square ltac:(simpl; lia) rising5_monotone
           ltac:(simpl; lia)).
Defined.

Lemma pvar_stages_witness :
  ∃ links1 links2 links3 c1 c2 c3 v,
    DetectLocalExtrema zigzag6 (replicate 6 (mk_pointdata 0 0 0%Z)) 2%Z = Ok links1 ∧
    CheckShortIntervals 19 zigzag6 links1 2%Z = Ok links2 ∧
    MergeIntervalsRecursively 19 zigzag6 links2 2%Z 4 = Ok links3 ∧
    pvar 19 zigzag6 2%Z = Ok v ∧
    repr zigzag6 links1 c1 ∧ repr zigzag6 links2 c2 ∧ repr zigzag6 links3 c3 ∧
    idx <$> c2 `sublist_of` idx <$> c1 ∧ idx <$> c3 `sublist_of` idx <$> c2 ∧
    chain_sum c1 = subseq_sum zigzag6 2%Z (idx <$> c1) ∧
    chain_sum c2 = subseq_sum zigzag6 2%Z (idx <$> c2) ∧
    chain_sum c3 = subseq_sum zigzag6 2%Z (idx <$> c3) ∧
    (chain_sum c1 <=? v)%Z = true ∧ (chain_sum c2 <=? v)%Z = true ∧
    chain_sum c3 = v.
Proof.
  exact (pvar_stages 19 zigzag6 square ltac:(simpl; lia) ltac:(simpl; lia)).
Defined.

Lemma accumulate_chain_witness :
  ∃ links,
    repr zigzag6 links (extrema_chain zigzag6 2%Z) ∧
    exact_wts zigzag6 2%Z (extrema_chain zigzag6 2%Z) ∧
    accumulate 7 6 links 0 0%Z = Ok 14%Z.
Proof.
  destruct (fresh_links zigzag6 2%Z) as (links & _ & Hr); [simpl; lia|].
  destruct zigzag6_scanned as ((Hw & _) & _).
  exists links. split; [exact Hr|]. split; [exact Hw|].
  exact (accumulate_chain 7 zigzag6 square links _ Hr Hw ltac:(simpl; lia)).
Defined.

Lemma merge_pass_boundaries_witness :
  ∃ links links' il',
    merge_pass 7 zigzag6 2%Z links [0; 4; 5] = Ok (links', il') ∧
    il' `sublist_of` [0; 4; 5] ∧ head il' = Some 0 ∧ last il' = Some 5 ∧
    (2 ≤ 3 → length il' = 3 / 2 + 1).
Proof.
  destruct (fresh_links zigzag6 2%Z) as (links & _ & Hr); [simpl; lia|].
  assert (bounds_ok (extrema_chain zigzag6 2%Z) [0; 4; 5]) as Hb.
  { rewrite zigzag6_chain. split; repeat constructor; lia. }
  destruct (outcome_Ok _ _ _ (merge_pass_sim 7 zigzag6 2%Z [0; 4; 5] links _ Hr Hb))
    as ([links' il'] & El & _); [simpl; lia|reflexivity|].
  exists links, links', il'. split; [exact El|].
  exact (merge_pass_boundaries 7 zigzag6 2%Z [0; 4; 5] links links' il' El).
Defined.

Lemma Merge2GoodInt_candidates_witness :
  ∃ links,
    repr zigzag6 links
      ([] ++ mk_node 0 0%Z :: [mk_node 1 4%Z; mk_node 2 1%Z; mk_node 3 4%Z]
          ++ mk_node 4 1%Z :: [] ++ mk_node 5 4%Z :: []) ∧
    let w0 := mk_walk 0%Z 4 2%Z 2%Z [] [] in
    ∃ wa wb,
      walk_back 7 zigzag6 links 0 w0 = Ok wa ∧
      walk_forth 7 zigzag6 links 5 w0 = Ok wb ∧
      strict_records zigzag6 Rlt 4 [3; 2; 1; 0] (it <$> w_mins wa) ∧
      strict_records zigzag6 Rgt 4 [3; 2; 1; 0] (it <$> w_maxs wa) ∧
      strict_records zigzag6 Rlt 4 [5] (it <$> w_mins wb) ∧
      strict_records zigzag6 Rgt 4 [5] (it <$> w_maxs wb).
Proof.
  destruct (fresh_links zigzag6 2%Z) as (links & _ & Hr); [simpl; lia|].
  rewrite zigzag6_chain in Hr. exists links. split; [exact Hr|].
  exact (Merge2GoodInt_candidates 7 zigzag6 links [] (mk_node 0 0%Z)
           [mk_node 1 4%Z; mk_node 2 1%Z; mk_node 3 4%Z] (mk_node 4 1%Z) []
           (mk_node 5 4%Z) [] Hr ltac:(simpl; lia)).
Defined.

(** C8: not every use of a link value as an index is guarded by a test for
    the sentinel.  On the links [DetectLocalExtrema] leaves for [0, 1, 0],
    whose [prev] and [next] fields all lie in [[0, n]], the walk forth of
    [Merge2GoodInt(0, 1, 0)] steps from the last node, [2], to the sentinel
    [n = 3] and reads [links[3]]. *)
Lemma Merge2GoodInt_unguarded :
  ∃ links,
    DetectLocalExtrema [0; 1; 0]%Z (replicate 3 (mk_pointdata 0 0 0%Z)) 1%Z
      = Ok links ∧
    Forall (in_bounds 3) links ∧
    get_next links 2 = Ok 3 ∧
    get_pvdiff links 3 = OutOfBounds ∧
    walk_forth 10 [0; 1; 0]%Z links 0 (mk_walk 0%Z 1 1%Z 1%Z [] []) = OutOfBounds ∧
    Merge2GoodInt 10 [0; 1; 0]%Z 1%Z links 0 1 0 = OutOfBounds.
Proof.
  eexists. split; [reflexivity|].
  split; [repeat (constructor; [split; simpl; lia|]); constructor|].
  repeat split; reflexivity.
Qed.

Lemma pvar_terminates_witness :
  (0 <? 0)%Z = false ∧
  (∃ v, ∀ fuel, 3 * length zigzag6 < fuel → pvar fuel zigzag6 2%Z = Ok v) ∧
  ∃ links,
    repr zigzag6 links (extrema_chain zigzag6 2%Z) ∧
    (∃ links' we,
       CheckShortIntervals_end 19 zigzag6 links 2%Z = Ok (links', we) ∧
       CheckShortIntervals 19 zigzag6 links 2%Z = Ok links' ∧
       int_end we = 6) ∧
    (∃ il links',
       collect 19 6 4 links 0 0 [] = Ok il ∧
       merge_rounds_end 19 19 zigzag6 2%Z links (il ++ [5]) = Ok (links', [0; 5]) ∧
       MergeIntervalsRecursively 19 zigzag6 links 2%Z 4 = Ok links') ∧
    (∃ v,
       accumulate_end 19 6 links 0 0%Z = Ok (6, v) ∧
       accumulate 19 6 links 0 0%Z = Ok v).
Proof.
  split; [reflexivity|].
  destruct (@pvar_terminates Z Z_ops eq_refl zigzag6 2%Z) as [Hv Hloops].
  split; [exact Hv|].
  destruct (fresh_links zigzag6 2%Z) as (links & _ & Hr); [simpl; lia|].
  exists links. split; [exact Hr|].
  exact (Hloops links _ 19 Hr ltac:(simpl; lia)).
Defined.
